(** * trot: span stream to nested HTML timeline

    A shallow embedding of the two programs of the repository
    ([src/unnamed/part_000] and [src/main.go]) and the properties their
    specification states about them.

    Definitions:
    - [GoLib]: the pieces of the Go runtime and standard library the
      programs call ([time.Time], [time.Duration], [float64] arithmetic on
      the binary64 model of [SpecFloat], the [%f] and [%s] verbs of [fmt],
      [slices.MaxFunc]); [Runtime] holds what the library leaves open
      ([slices.SortFunc], the order of [range] over a map);
    - [Pdqsort]: the algorithm of [slices.SortFunc], for the run that
      shows what it does with children that start together;
    - the data model: [Span], [Node], the span store that [*Span] values
      point into, the outcome of a call, errors, log lines, the stream of
      decoded records;
    - [Unnamed]: [mainE], [buildTree], [writeSpan] of src/unnamed/part_000;
    - [Main]: the same three functions of src/main.go;
    - the store-free assembly [assembled], used to reason about
      [Unnamed.buildTree], the shapes of trees, sample streams, and the
      rational value of a float64.

    Properties: the sorting contract, the simulation of [buildTree] by
    [assembled], runs of [mainE], one rounding per float64 operation, and a
    theorem per claim of the specification (C1 to C10), followed by
    further properties of the two programs (X1 and up). *)

From Stdlib Require Import ZArith List String Ascii Lia Permutation Sorted SpecFloat.
From Stdlib Require Import QArith Qabs Qpower Lqa.
From stdpp Require Import gmap strings list.

Local Open Scope Z_scope.

(** ** The Go library, as far as the programs use it *)
Module GoLib.

(** [time.Time].  An instant is kept as its number of nanoseconds since
    the zero time (January 1, year 1, UTC), together with the identity of
    its [*Location].  The Go operator [==] on [time.Time] compares the
    whole struct, location pointer included; [Compare] and [Sub] only look
    at the instant.  Times read from JSON carry no monotonic clock
    reading. *)
Record Time := mkTime { ns : Z; loc : Z }.

(** The zero value [time.Time{}]. *)
Definition zeroTime : Time := mkTime 0 0.

(** Go's [t == u] on [time.Time] values. *)
Definition Time_eqb (t u : Time) : bool := (ns t =? ns u) && (loc t =? loc u).

(** [t.Compare(u)]: -1, 0 or +1. *)
Definition Time_Compare (t u : Time) : Z :=
  match ns t ?= ns u with
  | Lt => -1
  | Eq => 0
  | Gt => 1
  end.

(** [time.Duration] is an [int64] count of nanoseconds. *)
Definition minDuration : Z := - 2 ^ 63.
Definition maxDuration : Z := 2 ^ 63 - 1.

(** [t.Sub(u)]: the difference, saturated to the range of [Duration]. *)
Definition Time_Sub (t u : Time) : Z :=
  let d := ns t - ns u in
  if d <? minDuration then minDuration
  else if maxDuration <? d then maxDuration
  else d.

(** *** Decimal output *)

Definition digit_char (d : Z) : ascii := ascii_of_nat (48 + Z.to_nat d).

Fixpoint fmtInt_loop (fuel : nat) (v : Z) (acc : string) : string :=
  match fuel with
  | O => acc
  | S fuel' =>
      let acc' := String (digit_char (v mod 10)) acc in
      if v / 10 =? 0 then acc' else fmtInt_loop fuel' (v / 10) acc'
  end.

(** [fmtInt]: the decimal digits of a non-negative number, "0" for zero. *)
Definition fmtInt (v : Z) (acc : string) : string :=
  fmtInt_loop (S (Z.to_nat (Z.log2 v))) v acc.

(** [fmtFrac] of package time: the last [prec] digits of [v] as a decimal
    fraction, trailing zeros dropped, and the point dropped with them when
    nothing is left; also returns [v / 10^prec]. *)
Fixpoint fmtFrac_loop (prec : nat) (v : Z) (print : bool) (acc : string)
  : string * Z * bool :=
  match prec with
  | O => (acc, v, print)
  | S prec' =>
      let digit := v mod 10 in
      let print' := print || negb (digit =? 0) in
      let acc' := if print' then String (digit_char digit) acc else acc in
      fmtFrac_loop prec' (v / 10) print' acc'
  end.

Definition fmtFrac (v : Z) (prec : nat) (acc : string) : string * Z :=
  let '(s, v', print) := fmtFrac_loop prec v false acc in
  (if print then String "."%char s else s, v').

Definition Second : Z := 1000000000.
Definition Millisecond : Z := 1000000.
Definition Microsecond : Z := 1000.

(** The two bytes of the micro sign in UTF-8. *)
Definition micro (acc : string) : string :=
  String (ascii_of_nat 194) (String (ascii_of_nat 181) acc).

(** [Duration.String]: "0s", "1.5µs", "72h3m0.5s", ... *)
Definition Duration_String (d : Z) : string :=
  let u := Z.abs d in
  let body :=
    if u <? Second then
      if u =? 0 then "0s"%string
      else if u <? Microsecond then
        let '(s, u') := fmtFrac u 0 "ns" in fmtInt u' s
      else if u <? Millisecond then
        let '(s, u') := fmtFrac u 3 (micro "s") in fmtInt u' s
      else
        let '(s, u') := fmtFrac u 6 "ms" in fmtInt u' s
    else
      let '(s, u1) := fmtFrac u 9 "s" in
      let s1 := fmtInt (u1 mod 60) s in
      let u2 := u1 / 60 in
      if 0 <? u2 then
        let s2 := fmtInt (u2 mod 60) (String "m"%char s1) in
        let u3 := u2 / 60 in
        if 0 <? u3 then fmtInt u3 (String "h"%char s2) else s2
      else s1
  in
  if d <? 0 then String "-"%char body else body.

(** *** float64 *)

Definition float64 := spec_float.
Definition prec64 : Z := 53.
Definition emax64 : Z := 1024.

(** The conversion [float64(d)] of an integer: round to nearest, ties to
    even. *)
Definition float64_of_int (d : Z) : float64 := binary_normalize prec64 emax64 d 0 false.

Definition fdiv (x y : float64) : float64 := SFdiv prec64 emax64 x y.
Definition fmul (x y : float64) : float64 := SFmul prec64 emax64 x y.

(** The constant [100.0]. *)
Definition f100 : float64 := float64_of_int 100.

(** Round a non-negative rational [n / 2^k] to the nearest integer, ties
    to even. *)
Definition round_half_even_shift (n : Z) (k : Z) : Z :=
  let q := Z.shiftr n k in
  let r := n - Z.shiftl q k in
  let half := Z.shiftl 1 (k - 1) in
  if r <? half then q
  else if half <? r then q + 1
  else if Z.even q then q else q + 1.

Fixpoint pad_digits (n : nat) (v : Z) (acc : string) : string :=
  match n with
  | O => acc
  | S n' => pad_digits n' (v / 10) (String (digit_char (v mod 10)) acc)
  end.

(** The verb [%f] of package fmt on a [float64]: six digits after the
    point, the exact value rounded half to even; "NaN", "+Inf" and "-Inf"
    for the special values. *)
Definition fmt_f (x : float64) : string :=
  match x with
  | S754_nan => "NaN"
  | S754_infinity false => "+Inf"
  | S754_infinity true => "-Inf"
  | S754_zero false => "0.000000"
  | S754_zero true => "-0.000000"
  | S754_finite s m e =>
      let scaled :=
        if 0 <=? e then Z.shiftl (Z.pos m * 1000000) e
        else round_half_even_shift (Z.pos m * 1000000) (- e) in
      let body :=
        fmtInt (scaled / 1000000) (String "."%char (pad_digits 6 (scaled mod 1000000) EmptyString)) in
      if s then String "-"%char body else body
  end.

(** [slices.MaxFunc]: the first maximal element; panics (here [None]) on
    an empty slice. *)
Definition MaxFunc {E : Type} (x : list E) (cmp : E -> E -> Z) : option E :=
  match x with
  | [] => None
  | x0 :: rest => Some (fold_left (fun m xi => if 0 <? cmp xi m then xi else m) rest x0)
  end.

End GoLib.

Import GoLib.

(** ** Data model *)

(** [Span]: the fields of the decoded record the programs read.  The
    remaining fields of the Go struct (trace ids, kind, attributes,
    events, links, status, counters, resource, instrumentation library)
    are decoded and never looked at. *)
Record Span := mkSpan {
  Name : string;
  SpanID : string;       (* SpanContext.SpanID *)
  ParentID : string;     (* Parent.SpanID *)
  StartTime : Time;
  EndTime : Time
}.

(** A [*Span] is an address in the span store.  Every decoded record and
    every synthetic span is allocated once, both indexes and all nodes
    hold addresses, and [buildTree] writes through them. *)
Abbreviation ptr := nat.
Abbreviation store := (list Span).

Definition zeroSpan : Span := mkSpan EmptyString EmptyString EmptyString zeroTime zeroTime.

Definition deref (h : store) (p : ptr) : Span := default zeroSpan (h !! p).

Definition set_StartTime (t : Time) (s : Span) : Span :=
  mkSpan (Name s) (SpanID s) (ParentID s) t (EndTime s).

Definition set_EndTime (t : Time) (s : Span) : Span :=
  mkSpan (Name s) (SpanID s) (ParentID s) (StartTime s) t.

(** [Node]: a span address and the child nodes, which the node owns. *)
Inductive Node := mkNode { nSpan : ptr; Children : list Node }.

(** What a call can come to: a result, a run-time panic, or a recursion
    deeper than the fuel given (the Go program has no cycle guard and
    overflows its stack on cyclic ancestry). *)
Inductive outcome (A : Type) :=
  | Done (a : A)
  | Panic
  | OutOfFuel.
Arguments Done {A} a.
Arguments Panic {A}.
Arguments OutOfFuel {A}.

(** Errors the programs return. *)
Inductive error :=
  | DecodeError (msg : string)         (* what [dec.Decode] returned *)
  | Errorf_line (i : Z) (err : error)  (* fmt.Errorf("line %d: %w", i, err) *)
  | Errorf_no_root.                    (* fmt.Errorf("no root") *)

(** Lines written with [log.Printf]. *)
Inductive LogEntry :=
  | LogMissing (id : string)           (* log.Printf("missing %q", missed) *)
  | LogNoRoot.                         (* log.Printf("no root") *)

(** The input stream, as the successive outcomes of [dec.Decode] before
    the end of the input: a decoded span or the error of a record that
    does not parse. *)
Abbreviation stream := (list (Span + error)).

(** What a run leaves behind: the bytes written to [w], the log, and the
    returned error ([None] for [nil]). *)
Record Run := mkRun { written : string; logged : list LogEntry; ret : option error }.

(** What the decoding loop builds: the store of the decoded records and
    the two indexes [spans] and [children], which hold addresses. *)
Record Decoded := mkDecoded {
  heap : store;
  spans : gmap string ptr;
  children : gmap string (list ptr)
}.

(** A comparator [cmp] is an ordering when [cmp a b <= 0] and
    [0 <= cmp b a] say the same and the relation [cmp a b <= 0] is
    transitive (a strict weak ordering, as [SortFunc] asks for). *)
Definition ordering {E : Type} (cmp : E -> E -> Z) : Prop :=
  (forall a b, cmp a b <= 0 <-> 0 <= cmp b a) /\
  (forall a b c, cmp a b <= 0 -> cmp b c <= 0 -> cmp a c <= 0).

(** The two library behaviours the programs rely on without fixing them:
    [slices.SortFunc] (pattern-defeating quicksort; its documentation
    promises a sorted permutation and no stability) and the order in which
    [range] walks a map (unspecified, and free to differ from one loop to
    the next: the first argument of [map_range] names the loop).  The
    sort looks at the comparator only on the elements of the slice
    ([SortFunc_ext]). *)
Class Runtime := {
  SortFunc : forall {E : Type}, list E -> (E -> E -> Z) -> list E;
  SortFunc_Permutation :
    forall (E : Type) (x : list E) cmp, Permutation (SortFunc x cmp) x;
  SortFunc_sorted :
    forall (E : Type) (x : list E) cmp, ordering cmp ->
      StronglySorted (fun a b => cmp a b <= 0) (SortFunc x cmp);
  SortFunc_ext :
    forall (E : Type) (x : list E) cmp cmp',
      (forall a b, In a x -> In b x -> cmp a b = cmp' a b) ->
      SortFunc x cmp = SortFunc x cmp';
  map_range : nat -> list string -> list string;
  map_range_Permutation : forall n l, Permutation (map_range n l) l
}.

(** *** Text shared by both programs *)

Definition dq : string := String (ascii_of_nat 34) EmptyString.
Definition nl : string := String (ascii_of_nat 10) EmptyString.
Definition tab : string := String (ascii_of_nat 9) EmptyString.

Definition header : string :=
  nl +:+ "<html>" +:+ nl +:+ "<head>" +:+ nl +:+ "<title>trot</title>" +:+ nl +:+
  "<style>" +:+ nl +:+
  "summary {" +:+ nl +:+ "  border: 1px solid;" +:+ nl +:+ "  display: block;" +:+ nl +:+
  "  white-space: nowrap;" +:+ nl +:+ "  padding: 3px;" +:+ nl +:+ "}" +:+ nl +:+
  "span {" +:+ nl +:+ "  border: 1px solid;" +:+ nl +:+ "  display: block;" +:+ nl +:+
  "  white-space: nowrap;" +:+ nl +:+ "  padding: 3px;" +:+ nl +:+ "}" +:+ nl +:+
  "body {" +:+ nl +:+ tab +:+ "width: 100%;" +:+ nl +:+ tab +:+ "margin: 0px;" +:+ nl +:+ "}" +:+ nl +:+
  "div.parent:hover {" +:+ nl +:+ tab +:+ "outline: 1.5px solid lightgrey;" +:+ nl +:+ "}" +:+ nl +:+
  "</style>" +:+ nl +:+ "</head>" +:+ nl +:+ "<body>".

Definition footer : string :=
  nl +:+ "    </body>" +:+ nl +:+ "</html>" +:+ nl.

(** The sentinel parent id of a root span. *)
Definition rootID : string := "0000000000000000".

(** The percentages handed to [Fprintf] for a node under a parent:
    [(100.0*rightpad, 100.0*leftpad)], in the order of the arguments. *)
Definition margins (h : store) (parent node : Node) : float64 * float64 :=
  let total := Time_Sub (EndTime (deref h (nSpan parent))) (StartTime (deref h (nSpan parent))) in
  let left := Time_Sub (StartTime (deref h (nSpan node))) (StartTime (deref h (nSpan parent))) in
  let right := Time_Sub (EndTime (deref h (nSpan parent))) (EndTime (deref h (nSpan node))) in
  let leftpad := fdiv (float64_of_int left) (float64_of_int total) in
  let rightpad := fdiv (float64_of_int right) (float64_of_int total) in
  (fmul f100 rightpad, fmul f100 leftpad).

(** The opening [<div>] of a node: bare for a top-level node, with the
    margin style (and the class "parent" when it has children) below a
    parent. *)
Definition openDiv (h : store) (parent : option Node) (node : Node) : string :=
  match parent with
  | None => "<div>"
  | Some p =>
      let '(r, l) := margins h p node in
      match Children node with
      | [] => "<div style=" +:+ dq +:+ "margin: 1px " +:+ fmt_f r +:+ "% 0 " +:+ fmt_f l +:+ "%" +:+ dq +:+ ">"
      | _ :: _ => "<div class=" +:+ dq +:+ "parent" +:+ dq +:+ " style=" +:+ dq +:+ "margin: 1px "
                  +:+ fmt_f r +:+ "% 0 " +:+ fmt_f l +:+ "%" +:+ dq +:+ ">"
      end
  end.

(** The label of a node: its name and its duration. *)
Definition label (h : store) (node : Node) : string :=
  let s := deref h (nSpan node) in
  Name s +:+ " " +:+ Duration_String (Time_Sub (EndTime s) (StartTime s)).

(** The [for] loop of [buildTree], given the recursive call. *)
Fixpoint buildKids (rec : Node -> store -> outcome (Node * store))
    (kids : list ptr) (h : store) : outcome (list Node * store) :=
  match kids with
  | [] => Done ([], h)
  | kid :: rest =>
      match rec (mkNode kid []) h with
      | Done (node, h1) =>
          match buildKids rec rest h1 with
          | Done (nodes, h2) => Done (node :: nodes, h2)
          | Panic => Panic
          | OutOfFuel => OutOfFuel
          end
      | Panic => Panic
      | OutOfFuel => OutOfFuel
      end
  end.

(** The comparators handed to [SortFunc] and [MaxFunc]. *)
Definition byStart (h : store) (a b : Node) : Z :=
  Time_Compare (StartTime (deref h (nSpan a))) (StartTime (deref h (nSpan b))).

Definition byEnd (h : store) (a b : Node) : Z :=
  Time_Compare (EndTime (deref h (nSpan a))) (EndTime (deref h (nSpan b))).

(** ** src/unnamed/part_000 *)
Module Unnamed.
Section Program.
Context {RT : Runtime}.

(** [buildTree(root, children, spans)].  The node is returned with its
    children filled in; the writes to [root.Span] go to the store.  The
    map [spans] is passed and never read. *)
Fixpoint buildTree (fuel : nat) (children : gmap string (list ptr))
    (root : Node) (h : store) : outcome (Node * store) :=
  match fuel with
  | O => OutOfFuel
  | S fuel' =>
      match children !! SpanID (deref h (nSpan root)) with
      | None => Done (root, h)
      | Some kids =>
          match buildKids (buildTree fuel' children) kids h with
          | Done (nodes, h1) =>
              let sorted := SortFunc nodes (byStart h1) in
              let r := nSpan root in
              if Time_eqb (StartTime (deref h1 r)) (EndTime (deref h1 r)) then
                match sorted with
                | [] => Panic
                | first :: _ =>
                    let h2 := <[r := set_StartTime (StartTime (deref h1 (nSpan first))) (deref h1 r)]> h1 in
                    match MaxFunc sorted (byEnd h2) with
                    | None => Panic
                    | Some last =>
                        Done (mkNode r sorted,
                              <[r := set_EndTime (EndTime (deref h2 (nSpan last))) (deref h2 r)]> h2)
                    end
                end
              else Done (mkNode r sorted, h1)
          | Panic => Panic
          | OutOfFuel => OutOfFuel
          end
      end
  end.

(** [writeSpan(w, parent, node)]: the text written to [w]. *)
Fixpoint writeSpan (h : store) (parent : option Node) (node : Node) {struct node} : string :=
  openDiv h parent node +:+
  match node with
  | mkNode _ [] => "<span>" +:+ label h node +:+ "</span>"
  | mkNode _ ((_ :: _) as kids) =>
      match parent with
      | None => "<details open><summary>" +:+ label h node +:+ "</summary>"
      | Some _ => "<details><summary>" +:+ label h node +:+ "</summary>"
      end +:+
      (fix each (cs : list Node) : string :=
         match cs with
         | [] => EmptyString
         | child :: cs' => writeSpan h (Some node) child +:+ each cs'
         end) kids +:+
      "</details>"
  end +:+
  "</div>" +:+ nl.

(** The decoding loop; [i] counts the records read before this one.  Each
    record gets an address of its own (a fresh [span] variable per
    iteration), and [i] has already been incremented when [Decode] is
    called. *)
Fixpoint decode (input : stream) (i : Z) (d : Decoded) : error + Decoded :=
  match input with
  | [] => inr d
  | inr err :: _ => inl (Errorf_line (i + 1) err)
  | inl span :: rest =>
      let p := length (heap d) in
      let kids := match children d !! ParentID span with
                  | Some kids => kids
                  | None => []
                  end in
      decode rest (i + 1)
        (mkDecoded (heap d ++ [span])
                   (<[SpanID span := p]> (spans d))
                   (<[ParentID span := kids ++ [p]]> (children d)))
  end.

(** The parent ids with no span record. *)
Definition missingOf (d : Decoded) : gset string :=
  filter (fun parent => spans d !! parent = None) (dom (children d)).

(** The loop over [missing] in the "no root" branch: build and write a
    synthetic root per missing id. *)
Fixpoint renderMissing (fuel : nat) (ch : gmap string (list ptr))
    (ids : list string) (h : store) (w : string) : outcome (store * string) :=
  match ids with
  | [] => Done (h, w)
  | missed :: rest =>
      let p := length h in
      let h0 := h ++ [mkSpan "Missing span" missed EmptyString zeroTime zeroTime] in
      match buildTree fuel ch (mkNode p []) h0 with
      | Done (root, h1) => renderMissing fuel ch rest h1 (w +:+ writeSpan h1 None root)
      | Panic => Panic
      | OutOfFuel => OutOfFuel
      end
  end.

(** [mainE(w, r)]. *)
Definition mainE (fuel : nat) (input : stream) : outcome Run :=
  match decode input 0 (mkDecoded [] ∅ ∅) with
  | inl err => Done (mkRun EmptyString [] (Some err))
  | inr d =>
      let missing := missingOf d in
      let log1 := map LogMissing (map_range 0 (elements missing)) in
      let rootSpans := children d !! rootID in
      match
        match rootSpans with
        | Some _ => Done (heap d, EmptyString, log1)
        | None =>
            match renderMissing fuel (children d) (map_range 1 (elements missing))
                    (heap d) EmptyString with
            | Done (h, w) => Done (h, w, log1 ++ [LogNoRoot])
            | Panic => Panic
            | OutOfFuel => OutOfFuel
            end
        end
      with
      | Done (h, w, log) =>
          let w1 := w +:+ header in
          let p := length h in
          let h0 := h ++ [mkSpan "root" rootID EmptyString zeroTime zeroTime] in
          let root := mkNode p (map (fun rootSpan => mkNode rootSpan []) (default [] rootSpans)) in
          match buildTree fuel (children d) root h0 with
          | Done (root', h1) =>
              Done (mkRun (w1 +:+ writeSpan h1 None root' +:+ footer) log None)
          | Panic => Panic
          | OutOfFuel => OutOfFuel
          end
      | Panic => Panic
      | OutOfFuel => OutOfFuel
      end
  end.

End Program.
End Unnamed.

(** ** src/main.go *)
Module Main.
Section Program.
Context {RT : Runtime}.

(** [buildTree(root, children, spans)]: children built and sorted; this
    program never writes to a span. *)
Fixpoint buildTree (fuel : nat) (children : gmap string (list ptr))
    (root : Node) (h : store) : outcome (Node * store) :=
  match fuel with
  | O => OutOfFuel
  | S fuel' =>
      match children !! SpanID (deref h (nSpan root)) with
      | None => Done (root, h)
      | Some kids =>
          match buildKids (buildTree fuel' children) kids h with
          | Done (nodes, h1) => Done (mkNode (nSpan root) (SortFunc nodes (byStart h1)), h1)
          | Panic => Panic
          | OutOfFuel => OutOfFuel
          end
      end
  end.

(** [writeSpan(w, parent, node)]: the text written to [w]. *)
Fixpoint writeSpan (h : store) (parent : option Node) (node : Node) {struct node} : string :=
  openDiv h parent node +:+
  match node with
  | mkNode _ [] => "<span>" +:+ label h node +:+ "</span>"
  | mkNode _ ((_ :: _) as kids) =>
      "<details><summary>" +:+ label h node +:+ "</summary>" +:+
      (fix each (cs : list Node) : string :=
         match cs with
         | [] => EmptyString
         | child :: cs' => writeSpan h (Some node) child +:+ each cs'
         end) kids +:+
      "</details>"
  end +:+
  "</div>" +:+ nl.

(** The decoding loop: the error of [Decode] is returned as it is. *)
Fixpoint decode (input : stream) (d : Decoded) : error + Decoded :=
  match input with
  | [] => inr d
  | inr err :: _ => inl err
  | inl span :: rest =>
      let p := length (heap d) in
      let kids := match children d !! ParentID span with
                  | Some kids => kids
                  | None => []
                  end in
      decode rest
        (mkDecoded (heap d ++ [span])
                   (<[SpanID span := p]> (spans d))
                   (<[ParentID span := kids ++ [p]]> (children d)))
  end.

(** [mainE(w, r)]. *)
Definition mainE (fuel : nat) (input : stream) : outcome Run :=
  match decode input (mkDecoded [] ∅ ∅) with
  | inl err => Done (mkRun EmptyString [] (Some err))
  | inr d =>
      match children d !! rootID with
      | None => Done (mkRun EmptyString [] (Some Errorf_no_root))
      | Some [rootSpan] =>
          match buildTree fuel (children d) (mkNode rootSpan []) (heap d) with
          | Done (root, h1) =>
              Done (mkRun (header +:+ writeSpan h1 None root +:+ footer) [] None)
          | Panic => Panic
          | OutOfFuel => OutOfFuel
          end
      | Some _ => Panic
      end
  end.

End Program.
End Main.

(** ** Insertion sort, which meets the contract of [SortFunc] *)

(** Insertion from the left end into an already sorted tail: [x] goes
    before the first element that is larger than it and, unless
    [ties_first], before the first that is equal to it as well. *)
Fixpoint insertWhile {E : Type} (ties_first : bool) (cmp : E -> E -> Z)
    (x : E) (l : list E) : list E :=
  match l with
  | [] => [x]
  | y :: l' =>
      if (if ties_first then cmp y x <=? 0 else cmp y x <? 0)
      then y :: insertWhile ties_first cmp x l'
      else x :: l
  end.

(** Insertion sort that keeps equal elements in their order of arrival. *)
Definition insertionSort {E : Type} (x : list E) (cmp : E -> E -> Z) : list E :=
  foldr (insertWhile false cmp) [] x.

(** ** The sort of golang.org/x/exp/slices

    [slices.SortFunc] is pattern-defeating quicksort (file
    zsortanyfunc.go of the package, the code the standard library has
    under the same names).  The package is not part of the repository; the
    functions below follow it statement by statement, a slice being a
    list, an index a [nat], and each loop a recursion on a count that
    bounds its iterations.  A read or a swap out of range, which panics in
    Go and does not occur, leaves the data as it is. *)
Module Pdqsort.
Section Sort.
Context {E : Type}.
Variable cmp : E -> E -> Z.

(** The step of the pseudo-random generator of the package (the method
    [Next] of its [xorshift], a few shifts and exclusive ors on a
    [uint64]).  Only [breakPatternsCmpFunc] calls it, to pick the elements
    it scatters; nothing below depends on what it is. *)
Variable random_Next : Z -> Z.

(** [cmp(data[i], data[j]) < 0]. *)
Definition less (data : list E) (i j : nat) : bool :=
  match data !! i, data !! j with
  | Some x, Some y => cmp x y <? 0
  | _, _ => false
  end.

(** [data[i], data[j] = data[j], data[i]]. *)
Definition swap (data : list E) (i j : nat) : list E :=
  match data !! i, data !! j with
  | Some x, Some y => <[j := x]> (<[i := y]> data)
  | _, _ => data
  end.

(** [insertionSortCmpFunc(data, a, b, cmp)]: the inner loop
    [for j := i; j > a && cmp(data[j], data[j-1]) < 0; j--]. *)
Fixpoint insertionInner (a j : nat) (data : list E) : list E :=
  match j with
  | O => data
  | S j' =>
      if (a <? j)%nat && less data j j' then insertionInner a j' (swap data j j') else data
  end.

(** The outer loop [for i := a + 1; i < b; i++]. *)
Fixpoint insertionOuter (fuel : nat) (a b i : nat) (data : list E) : list E :=
  match fuel with
  | O => data
  | S fuel' =>
      if (i <? b)%nat then insertionOuter fuel' a b (S i) (insertionInner a i data) else data
  end.

Definition insertionSortCmpFunc (data : list E) (a b : nat) : list E :=
  insertionOuter b a b (a + 1) data.

(** [siftDownCmpFunc(data, lo, hi, first, cmp)], [root] starting at [lo]. *)
Fixpoint siftDownCmpFunc (fuel : nat) (data : list E) (root hi first : nat) : list E :=
  match fuel with
  | O => data
  | S fuel' =>
      let child := (2 * root + 1)%nat in
      if (hi <=? child)%nat then data
      else
        let child :=
          if (child + 1 <? hi)%nat && less data (first + child) (first + child + 1)
          then (child + 1)%nat else child in
        if negb (less data (first + root) (first + child)) then data
        else siftDownCmpFunc fuel' (swap data (first + root) (first + child)) child hi first
  end.

(** [for i := (hi - 1) / 2; i >= 0; i--] of [heapSortCmpFunc]. *)
Fixpoint heapBuild (i hi first : nat) (data : list E) : list E :=
  let data := siftDownCmpFunc hi data i hi first in
  match i with
  | O => data
  | S i' => heapBuild i' hi first data
  end.

(** [for i := hi - 1; i >= 0; i--] of [heapSortCmpFunc]; [k] is [i + 1]. *)
Fixpoint heapPop (k first : nat) (data : list E) : list E :=
  match k with
  | O => data
  | S i => heapPop i first (siftDownCmpFunc i (swap data first (first + i)) 0 i first)
  end.

Definition heapSortCmpFunc (data : list E) (a b : nat) : list E :=
  let first := a in
  let hi := (b - a)%nat in
  heapPop hi first (heapBuild ((hi - 1) / 2) hi first data).

(** The loops [for i <= j && cmp(data[i], data[a]) < 0 { i++ }] and
    [for i <= j && !(cmp(data[j], data[a]) < 0) { j-- }] of
    [partitionCmpFunc]. *)
Fixpoint skipLess (fuel : nat) (data : list E) (a i j : nat) : nat :=
  match fuel with
  | O => i
  | S fuel' => if (i <=? j)%nat && less data i a then skipLess fuel' data a (S i) j else i
  end.

Fixpoint skipNotLess (fuel : nat) (data : list E) (a i j : nat) : nat :=
  match fuel with
  | O => j
  | S fuel' =>
      if (i <=? j)%nat && negb (less data j a) then skipNotLess fuel' data a i (j - 1) else j
  end.

(** The closing [for] loop of [partitionCmpFunc]. *)
Fixpoint partitionLoop (fuel : nat) (data : list E) (a i j : nat) : list E * nat :=
  match fuel with
  | O => (data, j)
  | S fuel' =>
      let i := skipLess (S j) data a i j in
      let j := skipNotLess (S j) data a i j in
      if (j <? i)%nat then (data, j)
      else partitionLoop fuel' (swap data i j) a (S i) (j - 1)
  end.

(** [partitionCmpFunc(data, a, b, pivot, cmp)]: the data, [newpivot] and
    [alreadyPartitioned]. *)
Definition partitionCmpFunc (data : list E) (a b pivot : nat) : list E * nat * bool :=
  let data := swap data a pivot in
  let i := (a + 1)%nat in
  let j := (b - 1)%nat in
  let i := skipLess b data a i j in
  let j := skipNotLess b data a i j in
  if (j <? i)%nat then (swap data j a, j, true)
  else
    let data := swap data i j in
    let '(data, j) := partitionLoop b data a (S i) (j - 1) in
    (swap data j a, j, false).

(** The loops of [partitionEqualCmpFunc]:
    [for i <= j && !(cmp(data[a], data[i]) < 0) { i++ }] and
    [for i <= j && cmp(data[a], data[j]) < 0 { j-- }]. *)
Fixpoint skipNotGreater (fuel : nat) (data : list E) (a i j : nat) : nat :=
  match fuel with
  | O => i
  | S fuel' =>
      if (i <=? j)%nat && negb (less data a i) then skipNotGreater fuel' data a (S i) j else i
  end.

Fixpoint skipGreater (fuel : nat) (data : list E) (a i j : nat) : nat :=
  match fuel with
  | O => j
  | S fuel' => if (i <=? j)%nat && less data a j then skipGreater fuel' data a i (j - 1) else j
  end.

Fixpoint partitionEqualLoop (fuel : nat) (data : list E) (a i j : nat) : list E * nat :=
  match fuel with
  | O => (data, i)
  | S fuel' =>
      let i := skipNotGreater (S j) data a i j in
      let j := skipGreater (S j) data a i j in
      if (j <? i)%nat then (data, i)
      else partitionEqualLoop fuel' (swap data i j) a (S i) (j - 1)
  end.

(** [partitionEqualCmpFunc(data, a, b, pivot, cmp)]: the data and
    [newpivot]. *)
Definition partitionEqualCmpFunc (data : list E) (a b pivot : nat) : list E * nat :=
  let data := swap data a pivot in
  partitionEqualLoop b data a (a + 1) (b - 1).

(** [for i < b && !(cmp(data[i], data[i-1]) < 0) { i++ }] of
    [partialInsertionSortCmpFunc]. *)
Fixpoint skipOrdered (fuel : nat) (data : list E) (b i : nat) : nat :=
  match fuel with
  | O => i
  | S fuel' =>
      if (i <? b)%nat && negb (less data i (i - 1)) then skipOrdered fuel' data b (S i) else i
  end.

(** [for j := i - 1; j >= 1; j--]: shift the smaller one to the left. *)
Fixpoint shiftLeft (j : nat) (data : list E) : list E :=
  match j with
  | O => data
  | S j' => if negb (less data j j') then data else shiftLeft j' (swap data j j')
  end.

(** [for j := i + 1; j < b; j++]: shift the greater one to the right. *)
Fixpoint shiftRight (fuel : nat) (data : list E) (b j : nat) : list E :=
  match fuel with
  | O => data
  | S fuel' =>
      if (j <? b)%nat then
        if negb (less data j (j - 1)) then data
        else shiftRight fuel' (swap data j (j - 1)) b (S j)
      else data
  end.

(** [for j := 0; j < maxSteps; j++] with [steps] iterations left;
    [shortestShifting] is 50. *)
Fixpoint partialLoop (steps : nat) (data : list E) (a b i : nat) : list E * bool :=
  match steps with
  | O => (data, false)
  | S steps' =>
      let i := skipOrdered b data b i in
      if (i =? b)%nat then (data, true)
      else if (b - a <? 50)%nat then (data, false)
      else
        let data := swap data i (i - 1) in
        let data := if (2 <=? i - a)%nat then shiftLeft (i - 1) data else data in
        let data := if (2 <=? b - i)%nat then shiftRight b data b (i + 1) else data in
        partialLoop steps' data a b i
  end.

(** [partialInsertionSortCmpFunc(data, a, b, cmp)]; [maxSteps] is 5. *)
Definition partialInsertionSortCmpFunc (data : list E) (a b : nat) : list E * bool :=
  partialLoop 5 data a b (a + 1).

(** [bits.Len(uint(n))]. *)
Definition bits_Len (n : nat) : nat :=
  match n with
  | O => O
  | S _ => S (Nat.log2 n)
  end.

(** [nextPowerOfTwo(length)]. *)
Definition nextPowerOfTwo (length : nat) : Z := Z.shiftl 1 (Z.of_nat (bits_Len length)).

(** [for i := 0; i < 3; i++] of [breakPatternsCmpFunc], with
    [other := int(uint(random.Next()) & (modulus - 1))]. *)
Fixpoint breakLoop (count i : nat) (random modulus : Z) (data : list E)
    (a length idx : nat) : list E :=
  match count with
  | O => data
  | S count' =>
      let random := random_Next random in
      let other := Z.to_nat (Z.land random (modulus - 1)) in
      let other := if (length <=? other)%nat then (other - length)%nat else other in
      breakLoop count' (S i) random modulus (swap data (idx - 1 + i) (a + other)) a length idx
  end.

Definition breakPatternsCmpFunc (data : list E) (a b : nat) : list E :=
  let length := (b - a)%nat in
  if (8 <=? length)%nat then
    breakLoop 3 0 (Z.of_nat length) (nextPowerOfTwo length) data a length
      (a + length / 4 * 2 - 1)
  else data.

Inductive sortedHint := unknownHint | increasingHint | decreasingHint.

(** [order2CmpFunc(data, a, b, swaps, cmp)], with the counter returned. *)
Definition order2CmpFunc (data : list E) (a b swaps : nat) : nat * nat * nat :=
  if less data b a then (b, a, S swaps) else (a, b, swaps).

Definition medianCmpFunc (data : list E) (a b c swaps : nat) : nat * nat :=
  let '(a, b, swaps) := order2CmpFunc data a b swaps in
  let '(b, c, swaps) := order2CmpFunc data b c swaps in
  let '(a, b, swaps) := order2CmpFunc data a b swaps in
  (b, swaps).

Definition medianAdjacentCmpFunc (data : list E) (a swaps : nat) : nat * nat :=
  medianCmpFunc data (a - 1) a (a + 1) swaps.

(** [choosePivotCmpFunc(data, a, b, cmp)]; [shortestNinther] is 50 and
    [maxSwaps] is 12. *)
Definition choosePivotCmpFunc (data : list E) (a b : nat) : nat * sortedHint :=
  let l := (b - a)%nat in
  let i := (a + l / 4 * 1)%nat in
  let j := (a + l / 4 * 2)%nat in
  let k := (a + l / 4 * 3)%nat in
  let '(j, swaps) :=
    if (8 <=? l)%nat then
      let '(i, j, k, swaps) :=
        if (50 <=? l)%nat then
          let '(i, swaps) := medianAdjacentCmpFunc data i 0 in
          let '(j, swaps) := medianAdjacentCmpFunc data j swaps in
          let '(k, swaps) := medianAdjacentCmpFunc data k swaps in
          (i, j, k, swaps)
        else (i, j, k, O) in
      medianCmpFunc data i j k swaps
    else (j, O) in
  if (swaps =? 0)%nat then (j, increasingHint)
  else if (swaps =? 12)%nat then (j, decreasingHint)
  else (j, unknownHint).

(** [reverseRangeCmpFunc(data, a, b, cmp)]. *)
Fixpoint reverseLoop (fuel : nat) (data : list E) (i j : nat) : list E :=
  match fuel with
  | O => data
  | S fuel' => if (i <? j)%nat then reverseLoop fuel' (swap data i j) (S i) (j - 1) else data
  end.

Definition reverseRangeCmpFunc (data : list E) (a b : nat) : list E :=
  reverseLoop b data a (b - 1).

(** [pdqsortCmpFunc(data, a, b, limit, cmp)]; [maxInsertion] is 12.  One
    unit of [fuel] goes into each turn of the loop and each recursive
    call, and each of them works on a shorter range. *)
Fixpoint pdqsortLoop (fuel : nat) (data : list E) (a b limit : nat)
    (wasBalanced wasPartitioned : bool) : list E :=
  match fuel with
  | O => data
  | S fuel' =>
      let length := (b - a)%nat in
      if (length <=? 12)%nat then insertionSortCmpFunc data a b
      else if (limit =? 0)%nat then heapSortCmpFunc data a b
      else
        let '(data, limit) :=
          if negb wasBalanced then (breakPatternsCmpFunc data a b, (limit - 1)%nat)
          else (data, limit) in
        let '(pivot, hint) := choosePivotCmpFunc data a b in
        let '(data, pivot, hint) :=
          match hint with
          | decreasingHint =>
              (reverseRangeCmpFunc data a b, (b - 1 - (pivot - a))%nat, increasingHint)
          | _ => (data, pivot, hint)
          end in
        let '(data, sorted) :=
          match hint with
          | increasingHint =>
              if wasBalanced && wasPartitioned then partialInsertionSortCmpFunc data a b
              else (data, false)
          | _ => (data, false)
          end in
        if sorted then data
        else if (0 <? a)%nat && negb (less data (a - 1) pivot) then
          let '(data, mid) := partitionEqualCmpFunc data a b pivot in
          pdqsortLoop fuel' data mid b limit wasBalanced wasPartitioned
        else
          let '(data, mid, alreadyPartitioned) := partitionCmpFunc data a b pivot in
          let leftLen := (mid - a)%nat in
          let rightLen := (b - mid)%nat in
          let balanceThreshold := (length / 8)%nat in
          if (leftLen <? rightLen)%nat then
            let data := pdqsortLoop fuel' data a mid limit true true in
            pdqsortLoop fuel' data (mid + 1) b limit
              (balanceThreshold <=? leftLen)%nat alreadyPartitioned
          else
            let data := pdqsortLoop fuel' data (mid + 1) b limit true true in
            pdqsortLoop fuel' data a mid limit
              (balanceThreshold <=? rightLen)%nat alreadyPartitioned
  end.

Definition pdqsortCmpFunc (data : list E) (a b limit : nat) : list E :=
  pdqsortLoop (S (b - a)) data a b limit true true.

(** [slices.SortFunc(x, cmp)]. *)
Definition SortFunc (x : list E) : list E :=
  let n := length x in
  pdqsortCmpFunc x 0 n (bits_Len n).

End Sort.
End Pdqsort.

(** Every element is in order with every later one: the boolean form of
    [StronglySorted]. *)
Fixpoint sortedb {E : Type} (cmp : E -> E -> Z) (l : list E) : bool :=
  match l with
  | [] => true
  | a :: l' => forallb (fun b => cmp a b <=? 0) l' && sortedb cmp l'
  end.

(** The library sort as a [SortFunc] of [Runtime], for a generator
    [next].  That the slice comes out sorted for every ordering is the
    documented behaviour of the package and is not proved here: the result
    of [Pdqsort.SortFunc] is checked, and insertion sort stands in should
    it ever not be in order.  Wherever the library sorts, this is the
    library's result. *)
Definition librarySortFunc (next : Z -> Z) {E : Type} (x : list E) (cmp : E -> E -> Z)
    : list E :=
  let r := Pdqsort.SortFunc cmp next x in
  if sortedb cmp r then r else insertionSort x cmp.

(** ** What assembly computes, without the store

    [buildTree] reads and writes spans through addresses that several
    nodes may share (two records with one id make every child list below
    that id be walked twice).  The functions below compute, from the
    indexes and the store as decoded alone, the tree and the final span
    of an address; the properties of [Unnamed.buildTree] are proved by
    relating it to them. *)
Section Assembly.
Context {RT : Runtime}.
Variables (ch : gmap string (list ptr)) (h0 : store).

(** The id recorded at an address. *)
Definition idOf (p : ptr) : string := SpanID (deref h0 p).

(** [terminates n x]: the recursion of [buildTree] below id [x] is
    shallower than [n]. *)
Fixpoint terminates (n : nat) (x : string) : bool :=
  match n with
  | O => false
  | S n' =>
      match ch !! x with
      | None => true
      | Some ks => forallb (fun k => terminates n' (idOf k)) ks
      end
  end.

(** The comparators, reading spans from [N] instead of the store. *)
Definition startIn (N : ptr -> Span) (a b : Node) : Z :=
  Time_Compare (StartTime (N (nSpan a))) (StartTime (N (nSpan b))).

Definition endIn (N : ptr -> Span) (a b : Node) : Z :=
  Time_Compare (EndTime (N (nSpan a))) (EndTime (N (nSpan b))).

(** The zero-duration rule applied to a span [s] with sorted children. *)
Definition normalize (N : ptr -> Span) (sorted : list Node) (s : Span) : Span :=
  if Time_eqb (StartTime s) (EndTime s) then
    match sorted, MaxFunc sorted (endIn N) with
    | first :: _, Some last =>
        set_EndTime (EndTime (N (nSpan last)))
          (set_StartTime (StartTime (N (nSpan first))) s)
    | _, _ => s
    end
  else s.

(** The tree below an address and the final span at it. *)
Fixpoint assembled (n : nat) (p : ptr) : Node * Span :=
  match n with
  | O => (mkNode p [], deref h0 p)
  | S n' =>
      match ch !! idOf p with
      | None => (mkNode p [], deref h0 p)
      | Some ks =>
          let N := fun k => snd (assembled n' k) in
          let sorted := SortFunc (map (fun k => fst (assembled n' k)) ks) (startIn N) in
          (mkNode p sorted, normalize N sorted (deref h0 p))
      end
  end.

(** The indexes are as the decoding loop builds them: no empty child
    list, and every address allocated. *)
Definition index_ok : bool :=
  forallb (fun '(_, ks) => negb (length ks =? 0)%nat && forallb (fun k => k <? length h0)%nat ks)
          (map_to_list ch).

End Assembly.

(** All the nodes of a tree, the root first. *)
Fixpoint subnodes (t : Node) : list Node :=
  match t with
  | mkNode _ cs =>
      t :: (fix each (l : list Node) : list Node :=
              match l with
              | [] => []
              | c :: l' => subnodes c ++ each l'
              end) cs
  end.

(** ** The store during assembly *)
Section Invariant.
Context {RT : Runtime}.
Variables (ch : gmap string (list ptr)) (h0 : store).

(** [final p s]: [s] is the span assembly leaves at address [p]. *)
Definition final (p : ptr) (s : Span) : Prop :=
  exists n, terminates ch h0 n (idOf h0 p) = true /\ s = snd (assembled ch h0 n p).

(** A store on the way: every span is as decoded or already final. *)
Definition between (h : store) : Prop :=
  length h = length h0 /\ forall p, deref h p = deref h0 p \/ final p (deref h p).

(** From [h] to [h'] a span stays or becomes final. *)
Definition advances (h h' : store) : Prop :=
  forall p, deref h' p = deref h p \/ final p (deref h' p).

(** The write of the zero-duration rule with the times [S] and [E]. *)
Definition rewrite_times (S E : Time) (s : Span) : Span :=
  if Time_eqb (StartTime s) (EndTime s) then set_EndTime E (set_StartTime S s) else s.

End Invariant.

(** The node [buildTree] returns for a node [mkNode q cs]: untouched when
    the id has no child list. *)
Definition built {RT : Runtime} (ch : gmap string (list ptr)) (h0 : store)
    (n : nat) (q : ptr) (cs : list Node) : Node :=
  match ch !! idOf h0 q with
  | None => mkNode q cs
  | Some _ => fst (assembled ch h0 n q)
  end.

(** Every span of the tree [t] is final in the store [h]. *)
Definition settled {RT : Runtime} (ch : gmap string (list ptr)) (h0 h : store) (t : Node) : Prop :=
  forall m, In m (subnodes t) -> final ch h0 (nSpan m) (deref h (nSpan m)).

(** ** Sample inputs *)

Definition span (name id parent : string) (start end_ : Z) : Span + error :=
  inl (mkSpan name id parent (mkTime start 0) (mkTime end_ 0)).

(** The two-span scenario: "a" under the sentinel, "b" under "a". *)
Definition two_spans : stream :=
  [span "root-op" "a" rootID 0 100; span "child-op" "b" "a" 10 40].

(** A zero-duration span with children spanning [10,20] and [15,30]. *)
Definition point_parent : stream :=
  [span "group" "p" rootID 0 0; span "second" "c2" "p" 15 30; span "first" "c1" "p" 10 20].

(** A single span whose parent "zzz" has no record. *)
Definition orphan_only : stream := [span "child" "b" "zzz" 10 40].


(** A single root span of zero duration. *)
Definition lone_point : stream := [span "pt" "a" rootID 5 5].

(** Five records, the third one malformed. *)
Definition third_malformed : stream :=
  [span "one" "a" rootID 0 100; span "two" "b" "a" 10 40;
   inr (DecodeError "invalid character '}' looking for beginning of value");
   span "four" "c" "a" 50 60; span "five" "d" "a" 70 80].

(** An orphan chain that runs into a span that is its own parent. *)
Definition cyclic_orphan : stream :=
  [span "child" "a" "zzz" 10 40; span "loop" "a" "a" 20 30].

(** Two children that start together, the one that arrives first named
    "early". *)
Definition tied_children : stream :=
  [span "root-op" "a" rootID 0 100; span "early" "b" "a" 10 40; span "late" "c" "a" 10 50].

(** Thirteen children of "a": twelve that start together, arriving in
    the order "c01" to "c12", and then one that starts before them. *)
Definition thirteen_children : stream :=
  [span "root-op" "a" rootID 0 100;
   span "t01" "c01" "a" 10 20;
   span "t02" "c02" "a" 10 20;
   span "t03" "c03" "a" 10 20;
   span "t04" "c04" "a" 10 20;
   span "t05" "c05" "a" 10 20;
   span "t06" "c06" "a" 10 20;
   span "t07" "c07" "a" 10 20;
   span "t08" "c08" "a" 10 20;
   span "t09" "c09" "a" 10 20;
   span "t10" "c10" "a" 10 20;
   span "t11" "c11" "a" 10 20;
   span "t12" "c12" "a" 10 20;
   span "first" "c13" "a" 5 8].

(** A span "p" whose start and end are one instant written in two time
    zones, so that the two [*Location]s differ, with children spanning
    [15,30] and [10,20]. *)
Definition two_zone_parent : stream :=
  [inl (mkSpan "group" "p" rootID (mkTime 12 0) (mkTime 12 1));
   span "second" "c2" "p" 15 30; span "first" "c1" "p" 10 20].

(** The indexes of a stream that decodes. *)
Definition decoded (input : stream) : Decoded :=
  match Unnamed.decode input 0 (mkDecoded [] ∅ ∅) with
  | inr d => d
  | inl _ => mkDecoded [] ∅ ∅
  end.

(** ** Shapes of an assembled tree *)

(** The nodes of [l] are in ascending order of the start time their spans
    have in the store [h]. *)
Definition sorted_by_start (h : store) (l : list Node) : Prop :=
  StronglySorted
    (fun a b => ns (StartTime (deref h (nSpan a))) <= ns (StartTime (deref h (nSpan b)))) l.

(** The children of [m] are the spans of the child list of its id, in
    some order. *)
Definition children_of_index (ch : gmap string (list ptr)) (h : store) (m : Node) : Prop :=
  match ch !! SpanID (deref h (nSpan m)) with
  | Some ks => Permutation (map nSpan (Children m)) ks
  | None => Children m = []
  end.

(** The span of [m] starts with its earliest child and ends with its
    latest one. *)
Definition spans_children (h : store) (m : Node) : Prop :=
  (exists c, In c (Children m) /\ StartTime (deref h (nSpan m)) = StartTime (deref h (nSpan c))) /\
  Forall (fun c => ns (StartTime (deref h (nSpan m))) <= ns (StartTime (deref h (nSpan c))))
         (Children m) /\
  (exists c, In c (Children m) /\ EndTime (deref h (nSpan m)) = EndTime (deref h (nSpan c))) /\
  Forall (fun c => ns (EndTime (deref h (nSpan c))) <= ns (EndTime (deref h (nSpan m))))
         (Children m).

(** [s] occurs in [t]. *)
Definition occurs_in (s t : string) : Prop :=
  exists pre post, t = pre +:+ s +:+ post.

(** The label element of a node with the name as it is in the span. *)
Definition name_element (h : store) (node : Node) : string :=
  match Children node with
  | [] => "<span>"
  | _ :: _ => "<summary>"
  end +:+ Name (deref h (nSpan node)) +:+ " ".

(** ** The indexes of a stream that decodes *)

(** The addresses, from [base] on, of the spans of [ss] whose parent id is
    [x], in order of arrival. *)
Fixpoint positions (x : string) (ss : list Span) (base : nat) : list ptr :=
  match ss with
  | [] => []
  | s :: ss' =>
      (if decide (ParentID s = x) then [base] else []) ++ positions x ss' (S base)
  end.





(** A rank that shows the sample streams acyclic: the missing parent
    "zzz" and the sentinel above "a", "a" above everything else. *)
Definition sample_rank (x : string) : nat :=
  if String.eqb x "zzz" then 2%nat
  else if String.eqb x rootID then 2%nat
  else if String.eqb x "a" then 1%nat
  else 0%nat.

(** The text of the margin style with the two percentages. *)
Definition margin_text (r l : string) : string :=
  "margin: 1px " +:+ r +:+ "% 0 " +:+ l +:+ "%".

(** What [%f] prints for a value that is not a number. *)
Definition not_a_number (s : string) : Prop :=
  s = "NaN"%string \/ s = "+Inf"%string \/ s = "-Inf"%string.

(** A zero-duration span "p" under "a", with a zero-duration child. *)
Definition point_chain : stream :=
  [span "root-op" "a" rootID 0 100; span "group" "p" "a" 50 50; span "tick" "c" "p" 50 50].

(** ** float64 values as rationals *)

(** [y] lies in [[m, m+1)] at the place the location [l] says: on [m],
    below, at or above the midpoint. *)
Definition inb (m : Z) (l : location) (y : Q) : Prop :=
  match l with
  | loc_Exact => (y == inject_Z m)%Q
  | loc_Inexact Lt => (inject_Z m < y /\ y < inject_Z m + (1#2))%Q
  | loc_Inexact Eq => (y == inject_Z m + (1#2))%Q
  | loc_Inexact Gt => (inject_Z m + (1#2) < y /\ y < inject_Z m + 1)%Q
  end.

(** Powers of two. *)
Definition pow2 (e : Z) : Q := (2 ^ e)%Q.

(** The unit roundoff of float64, and [V] within one rounding of [X]. *)
Definition u53 : Q := 1 # 9007199254740992.

Definition close (X V : Q) : Prop := (X * (1 - u53) <= V /\ V <= X * (1 + u53))%Q.

(** The percentage [100.0 * (float64(l) / float64(t))] of [writeSpan]. *)
Definition pct (l t : Z) : float64 :=
  fmul f100 (fdiv (float64_of_int l) (float64_of_int t)).

(** The rational a float64 stands for (0 for the values that are not
    numbers). *)
Definition F2Q (x : float64) : Q :=
  match x with
  | S754_finite s m e => (if s then -1 else 1) * (inject_Z (Z.pos m) * pow2 e)
  | _ => 0
  end.

(** Finite or zero. *)
Definition is_number (x : float64) : Prop :=
  match x with
  | S754_zero _ | S754_finite _ _ _ => True
  | _ => False
  end.

(** A difference of instants that [time.Duration] holds without
    saturating. *)
Definition in_range (d : Z) : Prop := minDuration <= d <= maxDuration.

(** The text a run has written, when it returned. *)
Definition written_of (r : outcome Run) : option string :=
  match r with
  | Done r => Some (written r)
  | _ => None
  end.

(** ** Links between ids *)

(** [child_id ch h x y]: the child list of the id [x] holds the address
    of a span whose id is [y]. *)
Definition child_id (ch : gmap string (list ptr)) (h : store) (x y : string) : Prop :=
  exists ks k, ch !! x = Some ks /\ In k ks /\ SpanID (deref h k) = y.

(** [names_parent ss x y]: a record of [ss] has the id [y] and names [x]
    as its parent. *)
Definition names_parent (ss : list Span) (x y : string) : Prop :=
  exists s, In s ss /\ ParentID s = x /\ SpanID s = y.

(** ** [main] *)

(** [main], the same in both files: it runs [mainE] on the standard
    streams; a returned error goes to [log.Fatal], which prints it and
    ends the process with status 1, and the process ends with status 0
    otherwise.  The result is the run together with the exit status. *)
Definition main (mainE : nat -> stream -> outcome Run) (fuel : nat) (input : stream)
    : outcome (Run * Z) :=
  match mainE fuel input with
  | Done r =>
      match ret r with
      | Some _ => Done (r, 1)
      | None => Done (r, 0)
      end
  | Panic => Panic
  | OutOfFuel => OutOfFuel
  end.

(** * Properties *)

(** ** The sorting routines meet the contract *)
Section Sorting.
Context {E : Type}.
Implicit Types (cmp : E -> E -> Z) (l x : list E).

Lemma insertWhile_Permutation b cmp a l :
  Permutation (insertWhile b cmp a l) (a :: l).
Proof.
  induction l as [|y l IH]; simpl; [reflexivity|].
  destruct (if b then _ else _); [|reflexivity].
  rewrite IH. apply perm_swap.
Qed.

Lemma foldr_insertWhile_Permutation b cmp x :
  Permutation (foldr (insertWhile b cmp) [] x) x.
Proof.
  induction x as [|a x IH]; simpl; [reflexivity|].
  rewrite insertWhile_Permutation. by constructor.
Qed.

Lemma insertWhile_sorted b cmp a l :
  ordering cmp ->
  StronglySorted (fun u v => cmp u v <= 0) l ->
  StronglySorted (fun u v => cmp u v <= 0) (insertWhile b cmp a l).
Proof.
  intros [Hanti Htrans] Hs.
  induction Hs as [|y l Hs IH Hy]; simpl.
  - repeat constructor.
  - destruct (if b then _ else _) eqn:Htest.
    + constructor; [exact IH|].
      rewrite insertWhile_Permutation. constructor; [|exact Hy].
      destruct b; lia.
    + assert (Hay : cmp a y <= 0).
      { apply Hanti. destruct b; lia. }
      constructor; [by constructor|].
      constructor; [exact Hay|].
      eapply Forall_impl; [exact Hy|]. intros z Hz. by eapply Htrans.
Qed.

Lemma foldr_insertWhile_sorted b cmp x :
  ordering cmp ->
  StronglySorted (fun u v => cmp u v <= 0) (foldr (insertWhile b cmp) [] x).
Proof.
  intros Hc. induction x as [|a x IH]; simpl; [constructor|].
  by apply insertWhile_sorted.
Qed.

Lemma insertWhile_ext b cmp cmp' a l :
  (forall u, In u l -> cmp u a = cmp' u a) ->
  insertWhile b cmp a l = insertWhile b cmp' a l.
Proof.
  induction l as [|y l IH]; intros H; simpl; [reflexivity|].
  rewrite (H y) by (by left). rewrite IH; [reflexivity|].
  intros u Hu. apply H. by right.
Qed.

Lemma foldr_insertWhile_ext b cmp cmp' x :
  (forall u v, In u x -> In v x -> cmp u v = cmp' u v) ->
  foldr (insertWhile b cmp) [] x = foldr (insertWhile b cmp') [] x.
Proof.
  induction x as [|a x IH]; intros H; simpl; [reflexivity|].
  rewrite <- IH by (intros u v Hu Hv; apply H; by right).
  apply insertWhile_ext. intros u Hu. apply H; [right|by left].
  eapply Permutation_in; [apply foldr_insertWhile_Permutation|exact Hu].
Qed.

End Sorting.

(** A runtime whose [SortFunc] is the stable insertion sort and whose
    [range] walks a map in the order of [elements]. *)
#[local] Instance stableRuntime : Runtime := {|
  SortFunc := @insertionSort;
  SortFunc_Permutation := fun E x cmp => foldr_insertWhile_Permutation false cmp x;
  SortFunc_sorted := fun E x cmp => foldr_insertWhile_sorted false cmp x;
  SortFunc_ext := fun E x cmp cmp' => foldr_insertWhile_ext false cmp cmp' x;
  map_range := fun _ l => l;
  map_range_Permutation := fun _ l => Permutation_refl l
|}.

(** ** The library sort moves elements and compares them *)

Lemma insert_head_Permutation {E : Type} (l : list E) : forall j y a,
  l !! j = Some y -> Permutation (y :: <[j := a]> l) (a :: l).
Proof.
  induction l as [|b l IH]; intros [|j] y a Hj; try done; simpl in *.
  - injection Hj as ->. apply perm_swap.
  - rewrite perm_swap. rewrite (IH j y a Hj). apply perm_swap.
Qed.

Lemma swap_Permutation {E : Type} (data : list E) i j :
  Permutation (Pdqsort.swap data i j) data.
Proof.
  unfold Pdqsort.swap.
  destruct (data !! i) as [x|] eqn:Hi; [|done].
  destruct (data !! j) as [y|] eqn:Hj; [|done].
  assert (Haux : forall (l : list E) i j x y, (i < j)%nat ->
            l !! i = Some x -> l !! j = Some y ->
            Permutation (<[j := x]> (<[i := y]> l)) l).
  { clear. induction l as [|a l IH]; intros [|i] [|j] x y Hlt Hi Hj; try done; try lia;
      simpl in *.
    - injection Hi as ->. by apply insert_head_Permutation.
    - apply perm_skip. apply IH; [lia|done..]. }
  destruct (decide (i = j)) as [->|Hne].
  - rewrite list_insert_insert_eq. rewrite Hi in Hj. injection Hj as ->.
    by rewrite list_insert_id.
  - destruct (decide (i < j)%nat) as [Hlt|Hge].
    + by apply Haux.
    + rewrite list_insert_insert_ne by done. apply Haux; [lia|done..].
Qed.

Section PdqsortFacts.
Context {E : Type}.
Variables (cmp cmp' : E -> E -> Z) (next : Z -> Z) (x : list E).
Hypothesis Hagree : forall a b, In a x -> In b x -> cmp a b = cmp' a b.

(** The data is the slice [x] rearranged. *)
Let ok (data : list E) : Prop := Permutation data x.

Lemma ok_swap data i j : ok data -> ok (Pdqsort.swap data i j).
Proof. intros Hok. unfold ok. etransitivity; [apply swap_Permutation|exact Hok]. Qed.

Lemma less_agree data i j : ok data -> Pdqsort.less cmp data i j = Pdqsort.less cmp' data i j.
Proof.
  intros Hok. unfold ok in Hok. unfold Pdqsort.less.
  destruct (data !! i) as [a|] eqn:Hi; [|done].
  destruct (data !! j) as [b|] eqn:Hj; [|done].
  rewrite Hagree; [done| |].
  - apply list_elem_of_In. rewrite <- Hok. by eapply list_elem_of_lookup_2.
  - apply list_elem_of_In. rewrite <- Hok. by eapply list_elem_of_lookup_2.
Qed.

Lemma insertionInner_sim a : forall j data,
  ok data ->
  ok (Pdqsort.insertionInner cmp a j data) /\
  Pdqsort.insertionInner cmp a j data = Pdqsort.insertionInner cmp' a j data.
Proof.
  induction j as [|j IH]; intros data Hok; simpl; [done|].
  rewrite <- (less_agree _ _ _ Hok).
  destruct (_ && _); [|done]. apply IH. by apply ok_swap.
Qed.

Lemma insertionOuter_sim a b : forall fuel i data,
  ok data ->
  ok (Pdqsort.insertionOuter cmp fuel a b i data) /\
  Pdqsort.insertionOuter cmp fuel a b i data = Pdqsort.insertionOuter cmp' fuel a b i data.
Proof.
  induction fuel as [|fuel IH]; intros i data Hok; simpl; [done|].
  destruct (i <? b)%nat; [|done].
  destruct (insertionInner_sim a i data Hok) as [Hok' <-]. by apply IH.
Qed.

Lemma insertionSort_sim data a b :
  ok data ->
  ok (Pdqsort.insertionSortCmpFunc cmp data a b) /\
  Pdqsort.insertionSortCmpFunc cmp data a b = Pdqsort.insertionSortCmpFunc cmp' data a b.
Proof. apply insertionOuter_sim. Qed.

Lemma siftDown_sim hi first : forall fuel data root,
  ok data ->
  ok (Pdqsort.siftDownCmpFunc cmp fuel data root hi first) /\
  Pdqsort.siftDownCmpFunc cmp fuel data root hi first
  = Pdqsort.siftDownCmpFunc cmp' fuel data root hi first.
Proof.
  induction fuel as [|fuel IH]; intros data root Hok; simpl; [done|].
  destruct (hi <=? _)%nat; [done|].
  rewrite <- !(less_agree _ _ _ Hok).
  destruct (negb _); [done|]. apply IH. by apply ok_swap.
Qed.

Lemma heapBuild_sim hi first : forall i data,
  ok data ->
  ok (Pdqsort.heapBuild cmp i hi first data) /\
  Pdqsort.heapBuild cmp i hi first data = Pdqsort.heapBuild cmp' i hi first data.
Proof.
  induction i as [|i IH]; intros data Hok; simpl.
  - by apply siftDown_sim.
  - destruct (siftDown_sim hi first hi data (S i) Hok) as [Hok' <-]. by apply IH.
Qed.

Lemma heapPop_sim first : forall k data,
  ok data ->
  ok (Pdqsort.heapPop cmp k first data) /\
  Pdqsort.heapPop cmp k first data = Pdqsort.heapPop cmp' k first data.
Proof.
  induction k as [|k IH]; intros data Hok; simpl; [done|].
  destruct (siftDown_sim k first k (Pdqsort.swap data first (first + k)) 0%nat) as [Hok' <-];
    [by apply ok_swap|]. by apply IH.
Qed.

Lemma heapSort_sim data a b :
  ok data ->
  ok (Pdqsort.heapSortCmpFunc cmp data a b) /\
  Pdqsort.heapSortCmpFunc cmp data a b = Pdqsort.heapSortCmpFunc cmp' data a b.
Proof.
  intros Hok. unfold Pdqsort.heapSortCmpFunc.
  destruct (heapBuild_sim (b - a) a ((b - a - 1) / 2) data Hok) as [Hok' <-].
  by apply heapPop_sim.
Qed.

Lemma skipLess_agree data a j : forall fuel i,
  ok data -> Pdqsort.skipLess cmp fuel data a i j = Pdqsort.skipLess cmp' fuel data a i j.
Proof.
  induction fuel as [|fuel IH]; intros i Hok; simpl; [done|].
  rewrite <- (less_agree _ _ _ Hok). destruct (_ && _); [by apply IH|done].
Qed.

Lemma skipNotLess_agree data a i : forall fuel j,
  ok data -> Pdqsort.skipNotLess cmp fuel data a i j = Pdqsort.skipNotLess cmp' fuel data a i j.
Proof.
  induction fuel as [|fuel IH]; intros j Hok; simpl; [done|].
  rewrite <- (less_agree _ _ _ Hok). destruct (_ && _); [by apply IH|done].
Qed.

Lemma skipNotGreater_agree data a j : forall fuel i,
  ok data ->
  Pdqsort.skipNotGreater cmp fuel data a i j = Pdqsort.skipNotGreater cmp' fuel data a i j.
Proof.
  induction fuel as [|fuel IH]; intros i Hok; simpl; [done|].
  rewrite <- (less_agree _ _ _ Hok). destruct (_ && _); [by apply IH|done].
Qed.

Lemma skipGreater_agree data a i : forall fuel j,
  ok data -> Pdqsort.skipGreater cmp fuel data a i j = Pdqsort.skipGreater cmp' fuel data a i j.
Proof.
  induction fuel as [|fuel IH]; intros j Hok; simpl; [done|].
  rewrite <- (less_agree _ _ _ Hok). destruct (_ && _); [by apply IH|done].
Qed.

Lemma partitionLoop_sim a : forall fuel data i j,
  ok data ->
  ok (Pdqsort.partitionLoop cmp fuel data a i j).1 /\
  Pdqsort.partitionLoop cmp fuel data a i j = Pdqsort.partitionLoop cmp' fuel data a i j.
Proof.
  induction fuel as [|fuel IH]; intros data i j Hok; cbn [Pdqsort.partitionLoop]; [done|].
  rewrite <- (skipLess_agree _ _ _ _ _ Hok). rewrite <- (skipNotLess_agree _ _ _ _ _ Hok).
  cbv zeta. destruct (_ <? _)%nat; [done|]. apply IH. by apply ok_swap.
Qed.

Lemma partition_sim data a b pivot :
  ok data ->
  ok (Pdqsort.partitionCmpFunc cmp data a b pivot).1.1 /\
  Pdqsort.partitionCmpFunc cmp data a b pivot = Pdqsort.partitionCmpFunc cmp' data a b pivot.
Proof.
  intros Hok. unfold Pdqsort.partitionCmpFunc.
  assert (Hok1 : ok (Pdqsort.swap data a pivot)) by (by apply ok_swap).
  rewrite <- (skipLess_agree _ _ _ _ _ Hok1). rewrite <- (skipNotLess_agree _ _ _ _ _ Hok1).
  cbv zeta. destruct (_ <? _)%nat; [split; [by apply ok_swap|done]|].
  match goal with
  | |- context [Pdqsort.partitionLoop cmp ?f ?d ?a ?i ?j] =>
      destruct (partitionLoop_sim a f d i j) as [Hok2 <-]; [by apply ok_swap|];
      destruct (Pdqsort.partitionLoop cmp f d a i j) as [d2 j2]
  end.
  split; [by apply ok_swap|done].
Qed.

Lemma partitionEqualLoop_sim a : forall fuel data i j,
  ok data ->
  ok (Pdqsort.partitionEqualLoop cmp fuel data a i j).1 /\
  Pdqsort.partitionEqualLoop cmp fuel data a i j
  = Pdqsort.partitionEqualLoop cmp' fuel data a i j.
Proof.
  induction fuel as [|fuel IH]; intros data i j Hok; cbn [Pdqsort.partitionEqualLoop]; [done|].
  rewrite <- (skipNotGreater_agree _ _ _ _ _ Hok). rewrite <- (skipGreater_agree _ _ _ _ _ Hok).
  cbv zeta. destruct (_ <? _)%nat; [done|]. apply IH. by apply ok_swap.
Qed.

Lemma partitionEqual_sim data a b pivot :
  ok data ->
  ok (Pdqsort.partitionEqualCmpFunc cmp data a b pivot).1 /\
  Pdqsort.partitionEqualCmpFunc cmp data a b pivot
  = Pdqsort.partitionEqualCmpFunc cmp' data a b pivot.
Proof. intros Hok. apply partitionEqualLoop_sim. by apply ok_swap. Qed.

Lemma skipOrdered_agree data b : forall fuel i,
  ok data -> Pdqsort.skipOrdered cmp fuel data b i = Pdqsort.skipOrdered cmp' fuel data b i.
Proof.
  induction fuel as [|fuel IH]; intros i Hok; simpl; [done|].
  rewrite <- (less_agree _ _ _ Hok). destruct (_ && _); [by apply IH|done].
Qed.

Lemma shiftLeft_sim : forall j data,
  ok data ->
  ok (Pdqsort.shiftLeft cmp j data) /\
  Pdqsort.shiftLeft cmp j data = Pdqsort.shiftLeft cmp' j data.
Proof.
  induction j as [|j IH]; intros data Hok; simpl; [done|].
  rewrite <- (less_agree _ _ _ Hok). destruct (negb _); [done|]. apply IH. by apply ok_swap.
Qed.

Lemma shiftRight_sim b : forall fuel data j,
  ok data ->
  ok (Pdqsort.shiftRight cmp fuel data b j) /\
  Pdqsort.shiftRight cmp fuel data b j = Pdqsort.shiftRight cmp' fuel data b j.
Proof.
  induction fuel as [|fuel IH]; intros data j Hok; simpl; [done|].
  destruct (j <? b)%nat; [|done].
  rewrite <- (less_agree _ _ _ Hok). destruct (negb _); [done|]. apply IH. by apply ok_swap.
Qed.

Lemma partialLoop_sim a b : forall steps data i,
  ok data ->
  ok (Pdqsort.partialLoop cmp steps data a b i).1 /\
  Pdqsort.partialLoop cmp steps data a b i = Pdqsort.partialLoop cmp' steps data a b i.
Proof.
  induction steps as [|steps IH]; intros data i Hok; cbn [Pdqsort.partialLoop]; [done|].
  rewrite <- (skipOrdered_agree _ _ _ _ Hok). cbv zeta.
  set (i' := Pdqsort.skipOrdered cmp b data b i).
  destruct (i' =? b)%nat; [done|]. destruct (b - a <? 50)%nat; [done|].
  assert (Hok1 : ok (Pdqsort.swap data i' (i' - 1))) by (by apply ok_swap).
  destruct (shiftLeft_sim (i' - 1) _ Hok1) as [HokL EL].
  assert (Hok2 : ok (if (2 <=? i' - a)%nat
                     then Pdqsort.shiftLeft cmp (i' - 1) (Pdqsort.swap data i' (i' - 1))
                     else Pdqsort.swap data i' (i' - 1))) by (by destruct (2 <=? _)%nat).
  assert (E2 : (if (2 <=? i' - a)%nat
                then Pdqsort.shiftLeft cmp' (i' - 1) (Pdqsort.swap data i' (i' - 1))
                else Pdqsort.swap data i' (i' - 1)) =
               (if (2 <=? i' - a)%nat
                then Pdqsort.shiftLeft cmp (i' - 1) (Pdqsort.swap data i' (i' - 1))
                else Pdqsort.swap data i' (i' - 1))) by (by rewrite EL).
  rewrite E2. clear E2.
  set (d2 := if (2 <=? i' - a)%nat then _ else _) in *.
  destruct (shiftRight_sim b b d2 (i' + 1) Hok2) as [HokR ER].
  rewrite <- ER.
  apply IH. by destruct (2 <=? b - i')%nat.
Qed.

Lemma partialInsertionSort_sim data a b :
  ok data ->
  ok (Pdqsort.partialInsertionSortCmpFunc cmp data a b).1 /\
  Pdqsort.partialInsertionSortCmpFunc cmp data a b
  = Pdqsort.partialInsertionSortCmpFunc cmp' data a b.
Proof. apply partialLoop_sim. Qed.

Lemma breakLoop_ok modulus a length idx : forall count i random data,
  ok data -> ok (Pdqsort.breakLoop next count i random modulus data a length idx).
Proof.
  induction count as [|count IH]; intros i random data Hok; simpl; [done|].
  apply IH. by apply ok_swap.
Qed.

Lemma breakPatterns_ok data a b :
  ok data -> ok (Pdqsort.breakPatternsCmpFunc next data a b).
Proof.
  intros Hok. unfold Pdqsort.breakPatternsCmpFunc. cbv zeta.
  destruct (8 <=? b - a)%nat; [|done]. by apply breakLoop_ok.
Qed.

Lemma order2_agree data a b swaps :
  ok data -> Pdqsort.order2CmpFunc cmp data a b swaps = Pdqsort.order2CmpFunc cmp' data a b swaps.
Proof. intros Hok. unfold Pdqsort.order2CmpFunc. by rewrite (less_agree _ _ _ Hok). Qed.

Lemma median_agree data a b c swaps :
  ok data -> Pdqsort.medianCmpFunc cmp data a b c swaps = Pdqsort.medianCmpFunc cmp' data a b c swaps.
Proof.
  intros Hok. unfold Pdqsort.medianCmpFunc.
  rewrite <- (order2_agree _ _ _ _ Hok).
  destruct (Pdqsort.order2CmpFunc cmp data a b swaps) as [[a1 b1] s1].
  rewrite <- (order2_agree _ _ _ _ Hok).
  destruct (Pdqsort.order2CmpFunc cmp data b1 c s1) as [[b2 c2] s2].
  by rewrite <- (order2_agree _ _ _ _ Hok).
Qed.

Lemma choosePivot_agree data a b :
  ok data -> Pdqsort.choosePivotCmpFunc cmp data a b = Pdqsort.choosePivotCmpFunc cmp' data a b.
Proof.
  intros Hok. unfold Pdqsort.choosePivotCmpFunc, Pdqsort.medianAdjacentCmpFunc. cbv zeta.
  destruct (8 <=? b - a)%nat; [|done].
  destruct (50 <=? b - a)%nat.
  - rewrite <- (median_agree _ _ _ _ _ Hok).
    destruct (Pdqsort.medianCmpFunc cmp data _ _ _ 0) as [i1 s1].
    rewrite <- (median_agree _ _ _ _ _ Hok).
    destruct (Pdqsort.medianCmpFunc cmp data _ _ _ s1) as [j1 s2].
    rewrite <- (median_agree _ _ _ _ _ Hok).
    destruct (Pdqsort.medianCmpFunc cmp data _ _ _ s2) as [k1 s3].
    by rewrite <- (median_agree _ _ _ _ _ Hok).
  - by rewrite <- (median_agree _ _ _ _ _ Hok).
Qed.

Lemma reverseLoop_ok : forall fuel data i j,
  ok data -> ok (Pdqsort.reverseLoop fuel data i j).
Proof.
  induction fuel as [|fuel IH]; intros data i j Hok; simpl; [done|].
  destruct (i <? j)%nat; [|done]. apply IH. by apply ok_swap.
Qed.

Lemma reverseRange_ok data a b : ok data -> ok (Pdqsort.reverseRangeCmpFunc data a b).
Proof. apply reverseLoop_ok. Qed.

Lemma pdqsortLoop_sim : forall fuel data a b limit wasBalanced wasPartitioned,
  ok data ->
  ok (Pdqsort.pdqsortLoop cmp next fuel data a b limit wasBalanced wasPartitioned) /\
  Pdqsort.pdqsortLoop cmp next fuel data a b limit wasBalanced wasPartitioned
  = Pdqsort.pdqsortLoop cmp' next fuel data a b limit wasBalanced wasPartitioned.
Proof.
  induction fuel as [|fuel IH]; intros data a b limit wb wp Hok;
    cbn [Pdqsort.pdqsortLoop]; [done|]. cbv zeta.
  destruct (b - a <=? 12)%nat; [by apply insertionSort_sim|].
  destruct (limit =? 0)%nat; [by apply heapSort_sim|].
  set (dl := if negb wb then _ else _).
  assert (Hok1 : ok dl.1).
  { unfold dl. destruct (negb wb); [by apply breakPatterns_ok|done]. }
  destruct dl as [data1 limit1]. cbn [fst] in Hok1.
  rewrite <- (choosePivot_agree _ _ _ Hok1).
  destruct (Pdqsort.choosePivotCmpFunc cmp data1 a b) as [pivot hint].
  set (dph := match hint with Pdqsort.decreasingHint => _ | _ => _ end).
  assert (Hok2 : ok dph.1.1).
  { unfold dph. destruct hint; [done|done|by apply reverseRange_ok]. }
  destruct dph as [[data2 pivot2] hint2]. cbn [fst] in Hok2.
  assert (Hpart : ok (match hint2 with
                      | Pdqsort.increasingHint =>
                          if wb && wp then Pdqsort.partialInsertionSortCmpFunc cmp data2 a b
                          else (data2, false)
                      | _ => (data2, false)
                      end).1 /\
                  match hint2 with
                  | Pdqsort.increasingHint =>
                      if wb && wp then Pdqsort.partialInsertionSortCmpFunc cmp data2 a b
                      else (data2, false)
                  | _ => (data2, false)
                  end =
                  match hint2 with
                  | Pdqsort.increasingHint =>
                      if wb && wp then Pdqsort.partialInsertionSortCmpFunc cmp' data2 a b
                      else (data2, false)
                  | _ => (data2, false)
                  end).
  { destruct hint2; [done| |done]. destruct (wb && wp); [|done].
    by apply partialInsertionSort_sim. }
  destruct Hpart as [Hok3 <-].
  destruct (match hint2 with Pdqsort.increasingHint => _ | _ => _ end) as [data3 sorted].
  cbn [fst] in Hok3.
  destruct sorted; [done|].
  rewrite <- (less_agree _ _ _ Hok3).
  destruct (_ && _).
  - destruct (partitionEqual_sim data3 a b pivot2 Hok3) as [Hok4 <-].
    destruct (Pdqsort.partitionEqualCmpFunc cmp data3 a b pivot2) as [data4 mid].
    by apply IH.
  - destruct (partition_sim data3 a b pivot2 Hok3) as [Hok4 <-].
    destruct (Pdqsort.partitionCmpFunc cmp data3 a b pivot2) as [[data4 mid] already].
    cbn [fst] in Hok4.
    destruct (_ <? _)%nat.
    + destruct (IH data4 a mid limit1 true true Hok4) as [Hok5 <-]. by apply IH.
    + destruct (IH data4 (mid + 1)%nat b limit1 true true Hok4) as [Hok5 <-]. by apply IH.
Qed.

Lemma SortFunc_sim :
  ok (Pdqsort.SortFunc cmp next x) /\
  Pdqsort.SortFunc cmp next x = Pdqsort.SortFunc cmp' next x.
Proof. apply pdqsortLoop_sim. unfold ok. reflexivity. Qed.

End PdqsortFacts.

Lemma sortedb_StronglySorted {E : Type} (cmp : E -> E -> Z) (l : list E) :
  sortedb cmp l = true -> StronglySorted (fun u v => cmp u v <= 0) l.
Proof.
  induction l as [|a l IH]; simpl; [constructor|].
  intros [Ha Hl]%andb_true_iff. constructor; [by apply IH|].
  apply List.Forall_forall. intros b Hb.
  rewrite forallb_forall in Ha. specialize (Ha b Hb). lia.
Qed.

Lemma sortedb_agree {E : Type} (cmp cmp' : E -> E -> Z) (l : list E) :
  (forall a b, In a l -> In b l -> cmp a b = cmp' a b) ->
  sortedb cmp l = sortedb cmp' l.
Proof.
  induction l as [|a l IH]; intros H; simpl; [done|].
  rewrite IH by (intros u v Hu Hv; apply H; by right). f_equal.
  assert (Hall : forall l', (forall b, In b l' -> In b l) ->
            forallb (fun b => cmp a b <=? 0) l' = forallb (fun b => cmp' a b <=? 0) l').
  { induction l' as [|b l' IHl]; intros Hsub; simpl; [done|].
    rewrite (H a b); [|by left|right; apply Hsub; by left].
    f_equal. apply IHl. intros c Hc. apply Hsub. by right. }
  by apply Hall.
Qed.

Lemma librarySortFunc_Permutation next (E : Type) (x : list E) cmp :
  Permutation (librarySortFunc next x cmp) x.
Proof.
  unfold librarySortFunc. cbv zeta. destruct (sortedb cmp _).
  - by apply (SortFunc_sim cmp cmp next x).
  - apply foldr_insertWhile_Permutation.
Qed.

Lemma librarySortFunc_sorted next (E : Type) (x : list E) cmp :
  ordering cmp -> StronglySorted (fun a b => cmp a b <= 0) (librarySortFunc next x cmp).
Proof.
  intros Hord. unfold librarySortFunc. cbv zeta.
  destruct (sortedb cmp _) eqn:Hs.
  - by apply sortedb_StronglySorted.
  - by apply foldr_insertWhile_sorted.
Qed.

Lemma librarySortFunc_ext next (E : Type) (x : list E) cmp cmp' :
  (forall a b, In a x -> In b x -> cmp a b = cmp' a b) ->
  librarySortFunc next x cmp = librarySortFunc next x cmp'.
Proof.
  intros H. unfold librarySortFunc. cbv zeta.
  destruct (SortFunc_sim cmp cmp' next x H) as [Hperm <-].
  rewrite (sortedb_agree cmp cmp').
  - destruct (sortedb cmp' _); [done|]. by apply foldr_insertWhile_ext.
  - intros a b Ha Hb. apply H; eapply Permutation_in; try exact Hperm; done.
Qed.

(** A runtime whose [SortFunc] is the sort of the library, with the
    generator [next], and whose [range] walks a map in the order of
    [elements]. *)
Definition libraryRuntime (next : Z -> Z) : Runtime := {|
  SortFunc := @librarySortFunc next;
  SortFunc_Permutation := librarySortFunc_Permutation next;
  SortFunc_sorted := librarySortFunc_sorted next;
  SortFunc_ext := librarySortFunc_ext next;
  map_range := fun _ l => l;
  map_range_Permutation := fun _ l => Permutation_refl l
|}.

(** ** Spans, comparators and [MaxFunc] *)

Lemma SpanID_set_StartTime t s : SpanID (set_StartTime t s) = SpanID s.
Proof. reflexivity. Qed.

Lemma SpanID_set_EndTime t s : SpanID (set_EndTime t s) = SpanID s.
Proof. reflexivity. Qed.

Lemma Time_eqb_eq t u : Time_eqb t u = true <-> t = u.
Proof.
  unfold Time_eqb. destruct t as [a b], u as [c d]; simpl.
  rewrite andb_true_iff, !Z.eqb_eq. split; [intros [-> ->]; reflexivity|].
  intros [= -> ->]. by split.
Qed.

Lemma Time_Compare_le t u : Time_Compare t u <= 0 <-> ns t <= ns u.
Proof.
  unfold Time_Compare. destruct (Z.compare_spec (ns t) (ns u)); lia.
Qed.

Lemma Time_Compare_ge t u : 0 <= Time_Compare u t <-> ns t <= ns u.
Proof.
  unfold Time_Compare. destruct (Z.compare_spec (ns u) (ns t)); lia.
Qed.

Lemma Time_Compare_pos t u : 0 < Time_Compare t u <-> ns u < ns t.
Proof.
  unfold Time_Compare. destruct (Z.compare_spec (ns t) (ns u)); lia.
Qed.

(** Comparing nodes by a time read from their span is an ordering. *)
Lemma ordering_by_time (key : Node -> Time) :
  ordering (fun a b => Time_Compare (key a) (key b)).
Proof.
  split.
  - intros a b. by rewrite Time_Compare_le, Time_Compare_ge.
  - intros a b c. rewrite !Time_Compare_le. lia.
Qed.

Lemma fold_max_ext {E : Type} (P : E -> Prop) cmp cmp' (rest : list E) x0 :
  (forall a b, P a -> P b -> cmp a b = cmp' a b) ->
  P x0 -> Forall P rest ->
  fold_left (fun m xi => if 0 <? cmp xi m then xi else m) rest x0 =
  fold_left (fun m xi => if 0 <? cmp' xi m then xi else m) rest x0.
Proof.
  intros H. revert x0. induction rest as [|y rest IH]; intros x0 Hx0 Hall; simpl; [reflexivity|].
  inversion Hall as [|? ? Hy Hrest]; subst.
  rewrite (H y x0) by done. apply IH; [|done].
  by destruct (0 <? cmp' y x0).
Qed.

Lemma MaxFunc_ext {E : Type} (x : list E) cmp cmp' :
  (forall a b, In a x -> In b x -> cmp a b = cmp' a b) ->
  MaxFunc x cmp = MaxFunc x cmp'.
Proof.
  destruct x as [|x0 rest]; [reflexivity|]. simpl. intros H. f_equal.
  apply (fold_max_ext (fun a => x0 = a \/ In a rest)); [exact H|by left|].
  apply Forall_forall. intros a Ha. right. by apply list_elem_of_In.
Qed.

(** [MaxFunc] returns an element of the slice that no element exceeds. *)
Lemma MaxFunc_spec (x : list Node) (key : Node -> Time) m :
  MaxFunc x (fun a b => Time_Compare (key a) (key b)) = Some m ->
  In m x /\ Forall (fun a => ns (key a) <= ns (key m)) x.
Proof.
  destruct x as [|x0 rest]; [discriminate|]. simpl. intros [= <-].
  assert (Hgen : forall l m0,
    let r := fold_left (fun m xi => if 0 <? Time_Compare (key xi) (key m) then xi else m) l m0 in
    (r = m0 \/ In r l) /\ ns (key m0) <= ns (key r) /\ Forall (fun a => ns (key a) <= ns (key r)) l).
  { induction l as [|y l IH]; intros m0; simpl.
    - split; [by left|]. split; [lia|constructor].
    - destruct (0 <? Time_Compare (key y) (key m0)) eqn:Hc.
      + apply Z.ltb_lt, Time_Compare_pos in Hc.
        destruct (IH y) as (Hin & Hle & Hall). split; [|split].
        * right. destruct Hin as [->|Hin]; [by left|by right].
        * lia.
        * by constructor.
      + apply Z.ltb_ge in Hc.
        assert (ns (key y) <= ns (key m0)).
        { destruct (Z.le_gt_cases (ns (key y)) (ns (key m0))); [done|].
          apply Time_Compare_pos in H. lia. }
        destruct (IH m0) as (Hin & Hle & Hall). split; [|split].
        * destruct Hin as [->|Hin]; [by left|right; by right].
        * done.
        * constructor; [lia|done]. }
  destruct (Hgen rest x0) as (Hin & Hle & Hall). split.
  - destruct Hin as [->|Hin]; [by left|by right].
  - by constructor.
Qed.

(** ** The store-free assembly *)
Section AssemblyFacts.
Context {RT : Runtime}.
Variables (ch : gmap string (list ptr)) (h0 : store).

Lemma nSpan_assembled n p : nSpan (fst (assembled ch h0 n p)) = p.
Proof.
  destruct n; simpl; [reflexivity|]. by destruct (ch !! idOf h0 p).
Qed.

Lemma SpanID_normalize N sorted s : SpanID (normalize N sorted s) = SpanID s.
Proof.
  unfold normalize. destruct (Time_eqb _ _); [|reflexivity].
  destruct sorted; [reflexivity|]. by destruct (MaxFunc _ _).
Qed.

Lemma SpanID_assembled n p : SpanID (snd (assembled ch h0 n p)) = idOf h0 p.
Proof.
  destruct n; simpl; [reflexivity|].
  destruct (ch !! idOf h0 p); [|reflexivity]. simpl. apply SpanID_normalize.
Qed.

Lemma MaxFunc_endIn_In N sorted last :
  MaxFunc sorted (endIn N) = Some last -> In last sorted.
Proof.
  intros H. by apply (MaxFunc_spec sorted (fun a => EndTime (N (nSpan a)))) in H as [? _].
Qed.

Lemma normalize_ext N N' sorted s :
  (forall a, In a sorted -> N (nSpan a) = N' (nSpan a)) ->
  normalize N sorted s = normalize N' sorted s.
Proof.
  intros H. unfold normalize. destruct (Time_eqb _ _); [|reflexivity].
  assert (Hmax : MaxFunc sorted (endIn N) = MaxFunc sorted (endIn N')).
  { apply MaxFunc_ext. intros a b Ha Hb. unfold endIn. by rewrite (H a), (H b). }
  destruct sorted as [|first rest]; [reflexivity|].
  rewrite Hmax.
  destruct (MaxFunc _ (endIn N')) as [last|] eqn:Hm; [|reflexivity].
  rewrite (H first) by (by left).
  rewrite (H last) by (rewrite <- Hmax in Hm; by eapply MaxFunc_endIn_In). reflexivity.
Qed.

Lemma terminates_mono n : forall m x,
  terminates ch h0 n x = true -> (n <= m)%nat -> terminates ch h0 m x = true.
Proof.
  induction n as [|n IH]; intros m x Ht Hle; [discriminate|].
  destruct m as [|m]; [lia|]. simpl in *.
  destruct (ch !! x) as [ks|]; [|reflexivity].
  rewrite forallb_forall in *. intros k Hk. apply IH; [by apply Ht|lia].
Qed.

(** More fuel than the recursion needs changes nothing. *)
Lemma assembled_fuel n : forall m p,
  terminates ch h0 n (idOf h0 p) = true -> (n <= m)%nat ->
  assembled ch h0 m p = assembled ch h0 n p.
Proof.
  induction n as [|n IH]; intros m p Ht Hle; [discriminate|].
  destruct m as [|m]; [lia|]. simpl in *.
  destruct (ch !! idOf h0 p) as [ks|]; [|reflexivity].
  rewrite forallb_forall in Ht.
  assert (Hks : forall k, In k ks -> assembled ch h0 m k = assembled ch h0 n k).
  { intros k Hk. apply IH; [by apply Ht|lia]. }
  assert (Hmap : map (fun k => fst (assembled ch h0 m k)) ks =
                 map (fun k => fst (assembled ch h0 n k)) ks).
  { apply map_ext_in. intros k Hk. by rewrite Hks. }
  rewrite Hmap.
  assert (Hnodes : forall a, In a (map (fun k => fst (assembled ch h0 n k)) ks) ->
            snd (assembled ch h0 m (nSpan a)) = snd (assembled ch h0 n (nSpan a))).
  { intros a Ha. apply in_map_iff in Ha as (k & <- & Hk).
    rewrite nSpan_assembled. by rewrite Hks. }
  rewrite (SortFunc_ext _ _ _ (startIn (fun k => snd (assembled ch h0 n k)))).
  2:{ intros a b Ha Hb. unfold startIn. by rewrite (Hnodes a), (Hnodes b). }
  f_equal. apply normalize_ext. intros a Ha. apply Hnodes.
  eapply Permutation_in; [apply SortFunc_Permutation|exact Ha].
Qed.

Lemma assembled_canonical n m p :
  terminates ch h0 n (idOf h0 p) = true -> terminates ch h0 m (idOf h0 p) = true ->
  assembled ch h0 n p = assembled ch h0 m p.
Proof.
  intros Hn Hm. destruct (Nat.le_ge_cases n m).
  - symmetry. by apply assembled_fuel.
  - by apply assembled_fuel.
Qed.

End AssemblyFacts.

(** ** Reads and writes of the store *)

Lemma deref_insert (h : store) q s p :
  (q < length h)%nat ->
  deref (<[q := s]> h) p = if decide (p = q) then s else deref h p.
Proof.
  intros Hq. unfold deref. destruct (decide (p = q)) as [->|Hne].
  - by rewrite list_lookup_insert_eq.
  - by rewrite list_lookup_insert_ne.
Qed.


Lemma deref_app_new (h : store) s : deref (h ++ [s]) (length h) = s.
Proof.
  unfold deref. rewrite lookup_app_r by lia. by rewrite Nat.sub_diag.
Qed.

Lemma deref_ge (h : store) p : (length h <= p)%nat -> deref h p = zeroSpan.
Proof. intros Hp. unfold deref. by rewrite lookup_ge_None_2. Qed.

Lemma rewrite_times_idem S E s0 s :
  s = s0 \/ s = rewrite_times S E s0 ->
  rewrite_times S E s = rewrite_times S E s0.
Proof.
  intros [->| ->]; [reflexivity|].
  unfold rewrite_times at 2 3.
  destruct (Time_eqb (StartTime s0) (EndTime s0)) eqn:H0.
  - unfold rewrite_times. simpl. by destruct (Time_eqb S E).
  - unfold rewrite_times. by rewrite H0.
Qed.

Lemma index_ok_lookup ch (h0 : store) x ks :
  index_ok ch h0 = true -> ch !! x = Some ks ->
  ks <> [] /\ forall k, In k ks -> (k < length h0)%nat.
Proof.
  unfold index_ok. rewrite forallb_forall. intros Hok Hx.
  specialize (Hok (x, ks)). simpl in Hok.
  rewrite andb_true_iff, negb_true_iff, Nat.eqb_neq, forallb_forall in Hok.
  destruct Hok as [Hlen Hall].
  { apply list_elem_of_In. by apply elem_of_map_to_list. }
  split; [by destruct ks|].
  intros k Hk. by apply Nat.ltb_lt, Hall.
Qed.

(** ** Nodes of a tree *)

Lemma subnodes_each (cs : list Node) m :
  In m ((fix each (l : list Node) : list Node :=
           match l with
           | [] => []
           | c :: l' => subnodes c ++ each l'
           end) cs) <->
  exists c, In c cs /\ In m (subnodes c).
Proof.
  induction cs as [|c cs IH]; simpl.
  - split; [done|]. by intros (c & [] & _).
  - rewrite in_app_iff, IH. split.
    + intros [H|(c' & Hc' & H)]; [exists c; auto|exists c'; auto].
    + intros (c' & [<-|Hc'] & H); [by left|right; by exists c'].
Qed.

Lemma subnodes_In p cs m :
  In m (subnodes (mkNode p cs)) <->
  m = mkNode p cs \/ exists c, In c cs /\ In m (subnodes c).
Proof.
  simpl. rewrite subnodes_each. split; (intros [H|H]; [left|right]); done.
Qed.

Lemma subnodes_root t : In t (subnodes t).
Proof. destruct t. apply subnodes_In. by left. Qed.

(** Induction on trees, the hypothesis available for every child. *)
Lemma Node_ind_nested (P : Node -> Prop) :
  (forall p cs, Forall P cs -> P (mkNode p cs)) -> forall t, P t.
Proof.
  intros H. fix IH 1. intros [p cs]. apply H.
  exact ((fix each (l : list Node) : Forall P l :=
            match l with
            | [] => @List.Forall_nil _ P
            | c :: l' => @List.Forall_cons _ P c l' (IH c) (each l')
            end) cs).
Qed.

Lemma subnodes_trans t : forall m x,
  In m (subnodes t) -> In x (subnodes m) -> In x (subnodes t).
Proof.
  induction t as [p cs IH] using Node_ind_nested. intros m x Hm Hx.
  apply subnodes_In in Hm as [->|(c & Hc & Hm)]; [done|].
  apply subnodes_In. right. exists c. split; [done|].
  rewrite Forall_forall in IH. eapply IH; [by apply list_elem_of_In|done..].
Qed.

Lemma subnodes_child t m c :
  In m (subnodes t) -> In c (Children m) -> In c (subnodes t).
Proof.
  intros Hm Hc. eapply subnodes_trans; [exact Hm|].
  destruct m as [p cs]. apply subnodes_In. right. exists c. split; [done|apply subnodes_root].
Qed.

Lemma StronglySorted_impl_In {A : Type} (R R' : A -> A -> Prop) (l : list A) :
  (forall a b, In a l -> In b l -> R a b -> R' a b) ->
  StronglySorted R l -> StronglySorted R' l.
Proof.
  intros H Hs. induction Hs as [|a l Hs IH Ha]; constructor.
  - apply IH. intros x y Hx Hy. apply H; by right.
  - apply Forall_forall. intros b Hb. apply list_elem_of_In in Hb.
    apply H; [by left|by right|].
    rewrite Forall_forall in Ha. by apply Ha, list_elem_of_In.
Qed.

(** ** [Unnamed.buildTree] computes the store-free assembly *)
Section Simulation.
Context {RT : Runtime}.
Variables (ch : gmap string (list ptr)) (h0 : store).
Hypothesis Hok : index_ok ch h0 = true.

Lemma between_SpanID h p : between ch h0 h -> SpanID (deref h p) = idOf h0 p.
Proof.
  intros [_ H]. destruct (H p) as [->|(n & _ & ->)]; [reflexivity|apply SpanID_assembled].
Qed.

Lemma final_unique p s n :
  final ch h0 p s -> terminates ch h0 n (idOf h0 p) = true ->
  s = snd (assembled ch h0 n p).
Proof. intros (m & Hm & ->) Hn. f_equal. by apply assembled_canonical. Qed.

Lemma advances_refl h : advances ch h0 h h.
Proof. intros p. by left. Qed.

Lemma advances_trans h1 h2 h3 :
  advances ch h0 h1 h2 -> advances ch h0 h2 h3 -> advances ch h0 h1 h3.
Proof. intros H12 H23 p. destruct (H23 p) as [->|Hf]; [apply H12|by right]. Qed.

Lemma advances_final h h' p n :
  terminates ch h0 n (idOf h0 p) = true ->
  deref h p = snd (assembled ch h0 n p) ->
  advances ch h0 h h' ->
  deref h' p = snd (assembled ch h0 n p).
Proof.
  intros Ht Hp Hadv. destruct (Hadv p) as [->|Hf]; [done|by apply final_unique].
Qed.

Lemma final_advances h h' p :
  final ch h0 p (deref h p) -> advances ch h0 h h' -> final ch h0 p (deref h' p).
Proof. intros Hf Hadv. destruct (Hadv p) as [->|]; done. Qed.

Lemma assembled_leaf n p :
  ch !! idOf h0 p = None -> assembled ch h0 n p = (mkNode p [], deref h0 p).
Proof. destruct n; simpl; [done|]. by intros ->. Qed.

Lemma between_init : between ch h0 h0.
Proof. split; [reflexivity|]. intros p. by left. Qed.

(** The loop over the child list, given the property for the recursive
    calls. *)
Lemma buildKids_assembled n :
  (forall q cs h, between ch h0 h -> (q < length h0)%nat ->
     terminates ch h0 n (idOf h0 q) = true ->
     exists h', Unnamed.buildTree n ch (mkNode q cs) h = Done (built ch h0 n q cs, h') /\
       between ch h0 h' /\ advances ch h0 h h' /\
       deref h' q = snd (assembled ch h0 n q) /\
       settled ch h0 h' (fst (assembled ch h0 n q)) /\
       (forall p, deref h' p = deref h p \/
          exists m, In m (subnodes (fst (assembled ch h0 n q))) /\ nSpan m = p)) ->
  forall ks h,
    (forall k, In k ks -> (k < length h0)%nat /\ terminates ch h0 n (idOf h0 k) = true) ->
    between ch h0 h ->
    exists h1,
      buildKids (Unnamed.buildTree n ch) ks h
        = Done (map (fun k => fst (assembled ch h0 n k)) ks, h1) /\
      between ch h0 h1 /\ advances ch h0 h h1 /\
      (forall k, In k ks ->
        deref h1 k = snd (assembled ch h0 n k) /\
        settled ch h0 h1 (fst (assembled ch h0 n k))) /\
      (forall p, deref h1 p = deref h p \/
         exists k m, In k ks /\ In m (subnodes (fst (assembled ch h0 n k))) /\ nSpan m = p).
Proof.
  intros IH. induction ks as [|k ks IHks]; intros h Hks Hb.
  - exists h. split; [reflexivity|]. split; [done|]. split; [apply advances_refl|].
    split; [intros k []|]. intros p. by left.
  - destruct (Hks k) as [Hk Htk]; [by left|].
    destruct (IH k [] h Hb Hk Htk) as (hk & Hrun & Hbk & Hadvk & Hfk & Hsk & Hfrk).
    destruct (IHks hk) as (h1 & Hrun1 & Hb1 & Hadv1 & Hf1 & Hfr1); [|done|].
    { intros k' Hk'. apply Hks. by right. }
    exists h1. simpl. rewrite Hrun, Hrun1.
    split; [|split; [done|split; [by eapply advances_trans|split]]].
    + do 3 f_equal. unfold built.
      destruct (ch !! idOf h0 k) eqn:Hc; [reflexivity|by rewrite assembled_leaf].
    + intros k' [<-|Hk']; [|by apply Hf1].
      split; [by eapply advances_final|].
      intros m Hm. eapply final_advances; [by apply Hsk|done].
    + intros p. destruct (Hfr1 p) as [->|(k' & m & Hk' & Hm & <-)].
      * destruct (Hfrk p) as [->|(m & Hm & <-)]; [by left|].
        right. exists k, m. split; [by left|done].
      * right. exists k', m. split; [by right|done].
Qed.

(** The code-side step after the loop: with the children built and
    sorted, the span at [q] is rewritten by the zero-duration rule. *)
Lemma buildTree_step n q cs h ks nodes h1 :
  SpanID (deref h q) = idOf h0 q ->
  ch !! idOf h0 q = Some ks ->
  buildKids (Unnamed.buildTree n ch) ks h = Done (nodes, h1) ->
  (q < length h1)%nat ->
  nodes <> [] ->
  let sorted := SortFunc nodes (byStart h1) in
  exists first rest last h',
    sorted = first :: rest /\
    MaxFunc sorted (byEnd h1) = Some last /\
    Unnamed.buildTree (S n) ch (mkNode q cs) h = Done (mkNode q sorted, h') /\
    length h' = length h1 /\
    forall p, deref h' p =
      if decide (p = q)
      then rewrite_times (StartTime (deref h1 (nSpan first))) (EndTime (deref h1 (nSpan last)))
             (deref h1 q)
      else deref h1 p.
Proof.
  intros Hid Hks Hrun Hq Hne sorted.
  assert (Hperm : Permutation sorted nodes) by apply SortFunc_Permutation.
  destruct sorted as [|first rest] eqn:Hsorted.
  { apply Permutation_nil in Hperm. done. }
  destruct (MaxFunc (first :: rest) (byEnd h1)) as [last|] eqn:Hmax; [|discriminate].
  set (h2 := <[q := set_StartTime (StartTime (deref h1 (nSpan first))) (deref h1 q)]> h1).
  assert (Hend : forall p, EndTime (deref h2 p) = EndTime (deref h1 p)).
  { intros p. unfold h2. rewrite deref_insert by done.
    destruct (decide (p = q)) as [->|]; reflexivity. }
  assert (Hmax2 : MaxFunc (first :: rest) (byEnd h2) = Some last).
  { rewrite <- Hmax. apply MaxFunc_ext. intros a b _ _. unfold byEnd. by rewrite !Hend. }
  simpl. rewrite Hid, Hks, Hrun. simpl. fold sorted. rewrite Hsorted.
  unfold rewrite_times.
  destruct (Time_eqb (StartTime (deref h1 q)) (EndTime (deref h1 q))) eqn:Htest.
  - fold h2. rewrite Hmax2.
    eexists first, rest, last, _. split; [reflexivity|]. split; [reflexivity|].
    split; [reflexivity|]. split.
    + unfold h2. by rewrite !length_insert.
    + intros p. rewrite deref_insert by (unfold h2; by rewrite length_insert).
      destruct (decide (p = q)) as [->|Hne'].
      * rewrite Hend. unfold h2. rewrite deref_insert by done.
        destruct (decide (q = q)); [reflexivity|done].
      * unfold h2. rewrite deref_insert by done.
        destruct (decide (p = q)); [done|reflexivity].
  - eexists first, rest, last, h1. split; [reflexivity|]. split; [reflexivity|].
    split; [reflexivity|]. split; [reflexivity|].
    intros p. destruct (decide (p = q)) as [->|]; reflexivity.
Qed.

(** [Unnamed.buildTree] returns the store-free tree, and leaves a store in
    which the span at the root is final. *)
Lemma buildTree_assembled n : forall q cs h,
  between ch h0 h -> (q < length h0)%nat ->
  terminates ch h0 n (idOf h0 q) = true ->
  exists h', Unnamed.buildTree n ch (mkNode q cs) h = Done (built ch h0 n q cs, h') /\
    between ch h0 h' /\ advances ch h0 h h' /\
    deref h' q = snd (assembled ch h0 n q) /\
    settled ch h0 h' (fst (assembled ch h0 n q)) /\
    (forall p, deref h' p = deref h p \/
       exists m, In m (subnodes (fst (assembled ch h0 n q))) /\ nSpan m = p).
Proof.
  induction n as [|n IH]; intros q cs h Hb Hq Ht; [discriminate|].
  pose proof (between_SpanID h q Hb) as Hid.
  destruct (ch !! idOf h0 q) as [ks|] eqn:Hks.
  2:{ exists h. split.
      { simpl. rewrite Hid, Hks. unfold built. by rewrite Hks. }
      split; [done|]. split; [apply advances_refl|].
      assert (Hleaf : deref h q = deref h0 q).
      { destruct Hb as [_ Hb]. destruct (Hb q) as [->|(m & _ & ->)]; [reflexivity|].
        by rewrite assembled_leaf. }
      rewrite assembled_leaf by done. split; [exact Hleaf|].
      split; [|intros p; by left].
      intros m [<-|[]]. simpl. exists (S n). split; [done|].
      by rewrite assembled_leaf. }
  destruct (index_ok_lookup _ _ _ _ Hok Hks) as [Hne Hvalid].
  pose proof Ht as Ht'. simpl in Ht'. rewrite Hks, forallb_forall in Ht'.
  destruct (buildKids_assembled n IH ks h) as (h1 & Hrun & Hb1 & Hadv1 & Hkids & Hframe); [|done|].
  { intros k Hk. split; [by apply Hvalid|by apply Ht']. }
  set (nodes := map (fun k => fst (assembled ch h0 n k)) ks) in *.
  set (N := fun k => snd (assembled ch h0 n k)).
  assert (Hnodes : forall a, In a nodes -> deref h1 (nSpan a) = N (nSpan a)).
  { intros a Ha. apply in_map_iff in Ha as (k & <- & Hk).
    rewrite nSpan_assembled. by apply Hkids. }
  assert (Hsettled : forall a, In a nodes -> settled ch h0 h1 a).
  { intros a Ha. apply in_map_iff in Ha as (k & <- & Hk). by apply Hkids. }
  assert (Hq1 : (q < length h1)%nat) by (destruct Hb1 as [-> _]; done).
  assert (Hnn : nodes <> []) by (unfold nodes; by destruct ks).
  destruct (buildTree_step n q cs h ks nodes h1 Hid Hks Hrun Hq1 Hnn)
    as (first & rest & last & h' & Hsorted & Hmax & Hbuild & Hlen & Hh').
  assert (HsortP : SortFunc nodes (startIn N) = first :: rest).
  { rewrite <- Hsorted. apply SortFunc_ext. intros a b Ha Hb'.
    unfold startIn, byStart. by rewrite (Hnodes a), (Hnodes b). }
  assert (Hin : forall a, In a (first :: rest) -> In a nodes).
  { intros a Ha. eapply Permutation_in; [|exact Ha].
    rewrite <- Hsorted. apply SortFunc_Permutation. }
  assert (HmaxP : MaxFunc (first :: rest) (endIn N) = Some last).
  { rewrite <- Hmax, Hsorted. apply MaxFunc_ext. intros a b Ha Hb'.
    unfold endIn, byEnd. by rewrite (Hnodes a), (Hnodes b) by auto. }
  assert (Hfst : built ch h0 (S n) q cs = mkNode q (first :: rest)).
  { unfold built. rewrite Hks. simpl. rewrite Hks. simpl. fold N nodes. by rewrite HsortP. }
  assert (Hsnd : snd (assembled ch h0 (S n) q) =
            rewrite_times (StartTime (deref h1 (nSpan first))) (EndTime (deref h1 (nSpan last)))
              (deref h0 q)).
  { simpl. rewrite Hks. simpl. fold N nodes. rewrite HsortP.
    unfold normalize, rewrite_times. rewrite HmaxP.
    rewrite (Hnodes first) by (apply Hin; by left).
    rewrite (Hnodes last).
    2:{ apply Hin. by eapply MaxFunc_endIn_In. }
    reflexivity. }
  assert (Hnew : deref h' q = snd (assembled ch h0 (S n) q)).
  { rewrite Hh'. case_decide; [|done]. rewrite Hsnd.
    apply rewrite_times_idem. destruct Hb1 as [_ Hb1].
    destruct (Hb1 q) as [->|Hf]; [by left|right].
    rewrite <- Hsnd. by apply final_unique. }
  assert (Hadv' : advances ch h0 h1 h').
  { intros p. destruct (decide (p = q)) as [->|Hpq].
    - right. by exists (S n).
    - left. rewrite Hh'. by case_decide. }
  exists h'. split; [by rewrite Hfst, Hbuild, Hsorted|].
  replace (fst (assembled ch h0 (S n) q)) with (mkNode q (first :: rest)).
  2:{ rewrite <- Hfst. unfold built. by rewrite Hks. }
  split; [|split; [by eapply advances_trans|split; [done|split]]].
  - split; [destruct Hb1 as [<- _]; done|].
    intros p. destruct (decide (p = q)) as [->|Hpq].
    + right. by exists (S n).
    + rewrite Hh'. case_decide; [done|]. by destruct Hb1 as [_ Hb1].
  - intros m Hm. apply subnodes_In in Hm as [->|(c & Hc & Hm)].
    + simpl. by exists (S n).
    + eapply final_advances; [|exact Hadv']. by apply (Hsettled c); [apply Hin|].
  - intros p. destruct (decide (p = q)) as [->|Hpq].
    + right. exists (mkNode q (first :: rest)). split; [apply subnodes_root|reflexivity].
    + rewrite Hh'. case_decide; [done|].
      destruct (Hframe p) as [->|(k & m & Hk & Hm & <-)]; [by left|right].
      exists m. split; [|reflexivity]. apply subnodes_In. right.
      exists (fst (assembled ch h0 n k)). split; [|done].
      eapply Permutation_in; [symmetry; rewrite <- HsortP; apply SortFunc_Permutation|].
      unfold nodes. apply in_map_iff. by exists k.
Qed.

End Simulation.

(** ** Consequences for [Unnamed.buildTree] *)
Section Assembled.
Context {RT : Runtime}.
Variables (ch : gmap string (list ptr)) (h0 : store).
Hypothesis Hok : index_ok ch h0 = true.

Lemma final_functional p s s' : final ch h0 p s -> final ch h0 p s' -> s = s'.
Proof. intros (n & Hn & ->) Hs'. symmetry. by eapply final_unique. Qed.

Lemma store_ext (h h' : store) :
  length h = length h' -> (forall p, deref h p = deref h' p) -> h = h'.
Proof.
  intros Hlen Hd. apply list_eq. intros i. specialize (Hd i). unfold deref in Hd.
  destruct (h !! i) as [s|] eqn:Hi, (h' !! i) as [s'|] eqn:Hi'; simpl in Hd.
  - by subst.
  - apply lookup_lt_Some in Hi. apply lookup_ge_None in Hi'. lia.
  - apply lookup_lt_Some in Hi'. apply lookup_ge_None in Hi. lia.
  - reflexivity.
Qed.

(** Every node of an assembled tree is itself the assembled tree of its
    address, and the children of a node come from the child list of its
    id. *)
Lemma subnodes_assembled n : forall p m,
  terminates ch h0 n (idOf h0 p) = true ->
  In m (subnodes (fst (assembled ch h0 n p))) ->
  exists k, terminates ch h0 k (idOf h0 (nSpan m)) = true /\
            m = fst (assembled ch h0 k (nSpan m)).
Proof.
  induction n as [|n IH]; intros p m Ht Hm; [discriminate|].
  pose proof Ht as Ht'. simpl in Ht', Hm.
  destruct (ch !! idOf h0 p) as [ks|] eqn:Hks.
  - simpl in Hm. destruct Hm as [<-|Hm].
    + exists (S n). simpl. split; [done|]. simpl. by rewrite Hks.
    + apply subnodes_each in Hm as (c & Hc & Hm).
      eapply Permutation_in in Hc; [|apply SortFunc_Permutation].
      apply in_map_iff in Hc as (k & <- & Hk).
      rewrite forallb_forall in Ht'. by apply (IH k); [apply Ht'|].
  - simpl in Hm. destruct Hm as [<-|[]].
    exists (S n). simpl. split; [done|]. simpl. by rewrite Hks.
Qed.

(** In a store where the tree is settled, the spans of a node's
    children are the ones the tree was built from. *)
Lemma assembled_node n p h m :
  terminates ch h0 n (idOf h0 p) = true ->
  settled ch h0 h (fst (assembled ch h0 n p)) ->
  In m (subnodes (fst (assembled ch h0 n p))) ->
  match ch !! idOf h0 (nSpan m) with
  | None => Children m = []
  | Some ks =>
      exists k, let N := fun a => deref h a in
        Permutation (map nSpan (Children m)) ks /\
        Children m = SortFunc (map (fun a => fst (assembled ch h0 k a)) ks) (startIn N) /\
        deref h (nSpan m) = normalize N (Children m) (deref h0 (nSpan m))
  end.
Proof.
  intros Ht Hset Hm.
  destruct (subnodes_assembled n p m Ht Hm) as (k & Htk & Heq).
  assert (Hfin : deref h (nSpan m) = snd (assembled ch h0 k (nSpan m))).
  { eapply final_unique; [by apply Hset|done]. }
  destruct k as [|k]; [discriminate|]. simpl in Htk, Heq, Hfin.
  destruct (ch !! idOf h0 (nSpan m)) as [ks|] eqn:Hks; [|by rewrite Heq].
  simpl in Heq, Hfin. rewrite forallb_forall in Htk.
  set (nodes := map (fun a => fst (assembled ch h0 k a)) ks) in *.
  set (Nk := fun a => snd (assembled ch h0 k a)) in *.
  set (sorted := SortFunc nodes (startIn Nk)) in *.
  assert (HC : Children m = sorted) by (by rewrite Heq).
  assert (Hperm : Permutation sorted nodes) by apply SortFunc_Permutation.
  assert (Hagree : forall a, In a nodes -> Nk (nSpan a) = deref h (nSpan a)).
  { intros a Ha. symmetry.
    assert (Ha' : In a (subnodes (fst (assembled ch h0 n p)))).
    { eapply subnodes_child; [exact Hm|]. rewrite HC.
      eapply Permutation_in; [symmetry; exact Hperm|exact Ha]. }
    apply in_map_iff in Ha as (a0 & <- & Ha0). rewrite nSpan_assembled.
    eapply final_unique; [|by apply Htk].
    specialize (Hset _ Ha'). by rewrite nSpan_assembled in Hset. }
  exists k. cbv zeta. rewrite HC. split; [|split].
  - rewrite Hperm. unfold nodes. rewrite map_map.
    erewrite map_ext; [by rewrite map_id|]. intros a. apply nSpan_assembled.
  - apply SortFunc_ext. intros a b Ha Hb. unfold startIn.
    by rewrite (Hagree a), (Hagree b).
  - rewrite Hfin. apply normalize_ext. intros a Ha. apply Hagree.
    eapply Permutation_in; [exact Hperm|exact Ha].
Qed.

Lemma built_nil n q : built ch h0 n q [] = fst (assembled ch h0 n q).
Proof.
  unfold built. destruct (ch !! idOf h0 q) eqn:Hc; [reflexivity|].
  by rewrite assembled_leaf.
Qed.

(** A run from the store as decoded. *)
Lemma buildTree_run n q :
  (q < length h0)%nat -> terminates ch h0 n (idOf h0 q) = true ->
  exists h1,
    Unnamed.buildTree n ch (mkNode q []) h0 = Done (fst (assembled ch h0 n q), h1) /\
    between ch h0 h1 /\ settled ch h0 h1 (fst (assembled ch h0 n q)).
Proof.
  intros Hq Ht.
  destruct (buildTree_assembled ch h0 Hok n q [] h0 (between_init ch h0) Hq Ht)
    as (h1 & Hrun & Hb & _ & _ & Hset & _).
  exists h1. split; [by rewrite <- built_nil|by split].
Qed.

End Assembled.

(** C9.  Tree assembly is idempotent: when [buildTree] has run on a node,
    running it again on the same node with the same indexes (whose spans
    the first run has rewritten) returns the same tree, children in the
    same order, and writes nothing new. *)
Theorem buildTree_idempotent {RT : Runtime} ch (h0 : store) n root :
  index_ok ch h0 = true ->
  (nSpan root < length h0)%nat ->
  terminates ch h0 n (idOf h0 (nSpan root)) = true ->
  exists t h1,
    Unnamed.buildTree n ch root h0 = Done (t, h1) /\
    Unnamed.buildTree n ch t h1 = Done (t, h1).
Proof.
  intros Hok Hq Ht. destruct root as [q cs]. simpl in Hq, Ht.
  destruct (buildTree_assembled ch h0 Hok n q cs h0 (between_init ch h0) Hq Ht)
    as (h1 & Hrun & Hb & _ & _ & Hset & _).
  exists (built ch h0 n q cs), h1. split; [exact Hrun|].
  destruct (buildTree_assembled ch h0 Hok n q (Children (built ch h0 n q cs)) h1 Hb Hq Ht)
    as (h2 & Hrun2 & Hb2 & Hadv2 & _ & _ & Hframe2).
  assert (Hsame : built ch h0 n q (Children (built ch h0 n q cs)) = built ch h0 n q cs).
  { unfold built. by destruct (ch !! idOf h0 q). }
  assert (Hnode : built ch h0 n q cs = mkNode q (Children (built ch h0 n q cs))).
  { unfold built. destruct (ch !! idOf h0 q); [|reflexivity].
    pose proof (nSpan_assembled ch h0 n q) as Hn.
    destruct (fst (assembled ch h0 n q)) as [q' cs']. simpl in *. by subst. }
  rewrite Hsame in Hrun2. rewrite Hnode at 1. rewrite Hrun2. do 2 f_equal.
  apply store_ext; [destruct Hb as [-> _], Hb2 as [-> _]; reflexivity|].
  intros p. destruct (Hframe2 p) as [Hp|(m & Hm & <-)]; [done|].
  destruct (Hadv2 (nSpan m)) as [Hp|Hf]; [done|].
  eapply final_functional; [exact Hf|by apply Hset].
Qed.

(** C9, on the zero-duration sample: both runs return the same tree. *)
Lemma buildTree_idempotent_witness :
  exists t h1,
    Unnamed.buildTree (RT := stableRuntime) 2 (children (decoded point_parent))
      (mkNode 0%nat []) (heap (decoded point_parent)) = Done (t, h1) /\
    Unnamed.buildTree (RT := stableRuntime) 2 (children (decoded point_parent)) t h1
      = Done (t, h1).
Proof.
  apply (buildTree_idempotent (RT := stableRuntime)).
  - vm_compute. reflexivity.
  - vm_compute. lia.
  - vm_compute. reflexivity.
Defined.

(** ** [Main.buildTree] *)
Section MainAssembly.
Context {RT : Runtime}.
Variable ch : gmap string (list ptr).

Lemma sorted_by_start_SortFunc (h : store) (nodes : list Node) :
  sorted_by_start h (SortFunc nodes (byStart h)).
Proof.
  unfold sorted_by_start.
  eapply StronglySorted_impl_In; [|apply SortFunc_sorted, (ordering_by_time (fun a => StartTime (deref h (nSpan a))))].
  intros a b _ _. apply Time_Compare_le.
Qed.

Lemma Main_buildKids n (h : store) :
  (forall q, terminates ch h n (idOf h q) = true ->
     exists t, Main.buildTree n ch (mkNode q []) h = Done (t, h) /\ nSpan t = q /\
       forall m, In m (subnodes t) -> sorted_by_start h (Children m) /\ children_of_index ch h m) ->
  forall ks, (forall k, In k ks -> terminates ch h n (idOf h k) = true) ->
  exists nodes, buildKids (Main.buildTree n ch) ks h = Done (nodes, h) /\
    map nSpan nodes = ks /\
    forall c m, In c nodes -> In m (subnodes c) ->
      sorted_by_start h (Children m) /\ children_of_index ch h m.
Proof.
  intros IH. induction ks as [|k ks IHks]; intros Hks.
  - exists []. split; [reflexivity|]. split; [reflexivity|]. intros c m [].
  - destruct (IH k) as (t & Hrun & Ht & Hgood); [apply Hks; by left|].
    destruct IHks as (nodes & Hrun' & Hmap & Hgood'); [intros k' Hk'; apply Hks; by right|].
    exists (t :: nodes). simpl. rewrite Hrun, Hrun'. split; [reflexivity|].
    split; [by rewrite Ht, Hmap|].
    intros c m [<-|Hc] Hm; [by apply Hgood|by eapply Hgood'].
Qed.

(** [Main.buildTree] returns, leaves the store alone, and every node of
    its tree has its children sorted. *)
Lemma Main_buildTree_sorted n : forall (h : store) q,
  terminates ch h n (idOf h q) = true ->
  exists t, Main.buildTree n ch (mkNode q []) h = Done (t, h) /\ nSpan t = q /\
    forall m, In m (subnodes t) -> sorted_by_start h (Children m) /\ children_of_index ch h m.
Proof.
  induction n as [|n IH]; intros h q Ht; [discriminate|].
  simpl in Ht |- *. unfold idOf in Ht.
  destruct (ch !! SpanID (deref h q)) as [ks|] eqn:Hks.
  - rewrite forallb_forall in Ht.
    destruct (Main_buildKids n h (IH h) ks Ht) as (nodes & -> & Hmap & Hgood).
    eexists. split; [reflexivity|]. split; [reflexivity|].
    intros m Hm. apply subnodes_In in Hm as [->|(c & Hc & Hm)].
    + split; [apply sorted_by_start_SortFunc|].
      unfold children_of_index. simpl. rewrite Hks, <- Hmap.
      apply Permutation_map, SortFunc_Permutation.
    + eapply Hgood; [|exact Hm].
      eapply Permutation_in; [apply SortFunc_Permutation|exact Hc].
  - eexists. split; [reflexivity|]. split; [reflexivity|].
    intros m [<-|[]]. split; [constructor|].
    unfold children_of_index. simpl. by rewrite Hks.
Qed.

End MainAssembly.

(** ** The assembled tree of [Unnamed.buildTree] *)
Section UnnamedAssembly.
Context {RT : Runtime}.
Variables (ch : gmap string (list ptr)) (h0 : store).
Hypothesis Hok : index_ok ch h0 = true.

Lemma Unnamed_buildTree_sorted n q :
  (q < length h0)%nat -> terminates ch h0 n (idOf h0 q) = true ->
  exists t h1, Unnamed.buildTree n ch (mkNode q []) h0 = Done (t, h1) /\
    forall m, In m (subnodes t) -> sorted_by_start h1 (Children m) /\ children_of_index ch h1 m.
Proof.
  intros Hq Ht. destruct (buildTree_run ch h0 Hok n q Hq Ht) as (h1 & Hrun & Hb & Hset).
  eexists _, h1. split; [exact Hrun|]. intros m Hm.
  pose proof (assembled_node ch h0 n q h1 m Ht Hset Hm) as Hnode.
  unfold children_of_index. rewrite (between_SpanID ch h0 h1 _ Hb).
  destruct (ch !! idOf h0 (nSpan m)) as [ks|].
  - destruct Hnode as (k & Hperm & HC & _). split; [|exact Hperm].
    rewrite HC. apply sorted_by_start_SortFunc.
  - rewrite Hnode. split; [constructor|reflexivity].
Qed.

(** The zero-duration rule, for every node of the tree. *)
Lemma Unnamed_buildTree_normalized n q :
  (q < length h0)%nat -> terminates ch h0 n (idOf h0 q) = true ->
  exists t h1, Unnamed.buildTree n ch (mkNode q []) h0 = Done (t, h1) /\
    forall m, In m (subnodes t) ->
      Time_eqb (StartTime (deref h0 (nSpan m))) (EndTime (deref h0 (nSpan m))) = true ->
      Children m <> [] ->
      spans_children h1 m.
Proof.
  intros Hq Ht. destruct (buildTree_run ch h0 Hok n q Hq Ht) as (h1 & Hrun & Hb & Hset).
  eexists _, h1. split; [exact Hrun|]. intros m Hm Hpoint Hne.
  pose proof (assembled_node ch h0 n q h1 m Ht Hset Hm) as Hnode.
  destruct (ch !! idOf h0 (nSpan m)) as [ks|]; [|done].
  destruct Hnode as (k & _ & HC & Hnorm).
  assert (Hsorted : sorted_by_start h1 (Children m)).
  { rewrite HC. apply sorted_by_start_SortFunc. }
  unfold normalize in Hnorm. rewrite Hpoint in Hnorm.
  destruct (Children m) as [|first rest] eqn:Hcs; [done|].
  destruct (MaxFunc (first :: rest) (endIn (fun a => deref h1 a))) as [last|] eqn:Hmax;
    [|discriminate].
  apply (MaxFunc_spec _ (fun a => EndTime (deref h1 (nSpan a)))) in Hmax as [Hlast Hall].
  unfold spans_children. rewrite Hcs, Hnorm. simpl.
  split; [exists first; split; [by left|reflexivity]|].
  split.
  { constructor; [lia|]. by inversion Hsorted. }
  split; [exists last; split; [exact Hlast|reflexivity]|].
  exact Hall.
Qed.

End UnnamedAssembly.

(** ** Zero-duration spans (C2) *)

(** X25.  Every node of the assembled tree whose span was recorded with a
    start time equal to its end time under Go's [==] on [time.Time] (the
    same instant in the same location) and that has at least one child
    ends up, in the store assembly leaves, with the start time of its
    earliest child and the end time of its latest child. *)
Theorem zero_duration_normalized {RT : Runtime} ch (h0 : store) n q :
  index_ok ch h0 = true ->
  (q < length h0)%nat ->
  terminates ch h0 n (idOf h0 q) = true ->
  exists t h1, Unnamed.buildTree n ch (mkNode q []) h0 = Done (t, h1) /\
    forall m, In m (subnodes t) ->
      Time_eqb (StartTime (deref h0 (nSpan m))) (EndTime (deref h0 (nSpan m))) = true ->
      Children m <> [] ->
      spans_children h1 m.
Proof. intros Hok. by apply Unnamed_buildTree_normalized. Qed.

(** On the sample: the zero-duration span "group" with children [15,30]
    and [10,20]. *)
Lemma zero_duration_normalized_witness :
  exists t h1,
    Unnamed.buildTree (RT := stableRuntime) 2 (children (decoded point_parent))
      (mkNode 0%nat []) (heap (decoded point_parent)) = Done (t, h1) /\
    forall m, In m (subnodes t) ->
      Time_eqb (StartTime (deref (heap (decoded point_parent)) (nSpan m)))
               (EndTime (deref (heap (decoded point_parent)) (nSpan m))) = true ->
      Children m <> [] ->
      spans_children h1 m.
Proof.
  apply (zero_duration_normalized (RT := stableRuntime)).
  - vm_compute. reflexivity.
  - vm_compute. lia.
  - vm_compute. reflexivity.
Defined.

(** C2 fails on a span whose start and end are one instant in two
    locations.  The test on line 125 is [==] on the two [time.Time]
    values, which compares the locations as well; it is false here, the
    rule is skipped and "group" keeps its zero duration, where the claim
    has it normalized to [10,30].  Its children are then laid out under a
    parent of duration zero and get infinite margins. *)
Theorem zero_duration_in_two_zones_kept :
  let d := decoded two_zone_parent in
  let group := deref (heap d) 0%nat in
  Time_Sub (EndTime group) (StartTime group) = 0 /\
  children d !! "p"%string = Some [1%nat; 2%nat] /\
  Unnamed.buildTree (RT := stableRuntime) 2 (children d) (mkNode 0%nat []) (heap d)
    = Done (mkNode 0%nat [mkNode 2%nat []; mkNode 1%nat []], heap d) /\
  Unnamed.mainE (RT := stableRuntime) 4 two_zone_parent
    = Done (mkRun
        (header +:+
         "<div><details open><summary>root 0s</summary><div class=" +:+ dq +:+ "parent" +:+ dq +:+
         " style=" +:+ dq +:+ "margin: 1px NaN% 0 NaN%" +:+ dq +:+
         "><details><summary>group 0s</summary><div style=" +:+ dq +:+
         "margin: 1px -Inf% 0 -Inf%" +:+ dq +:+ "><span>first 10ns</span></div>" +:+ nl +:+
         "<div style=" +:+ dq +:+ "margin: 1px -Inf% 0 +Inf%" +:+ dq +:+
         "><span>second 15ns</span></div>" +:+ nl +:+
         "</details></div>" +:+ nl +:+ "</details></div>" +:+ nl +:+ footer)
        [LogMissing rootID] None).
Proof. vm_compute. repeat split; reflexivity. Qed.

(** The sample evaluated: the span is rewritten to the range [10,30] and
    its children are put in the order of their start times. *)
Example zero_duration_sample :
  Unnamed.buildTree (RT := stableRuntime) 2 (children (decoded point_parent))
    (mkNode 0%nat []) (heap (decoded point_parent))
  = Done (mkNode 0%nat [mkNode 2%nat []; mkNode 1%nat []],
          [mkSpan "group" "p" rootID (mkTime 10 0) (mkTime 30 0);
           mkSpan "second" "c2" "p" (mkTime 15 0) (mkTime 30 0);
           mkSpan "first" "c1" "p" (mkTime 10 0) (mkTime 20 0)]).
Proof. vm_compute. reflexivity. Qed.

(** ** Order of the children (C4) *)

(** C4, as the programs have it.  In both programs every node of the
    assembled tree has its children in ascending order of start time, and
    the children are the spans of the child list of the node's id in some
    order.  Which order children with equal start times take is left to
    [slices.SortFunc]. *)
Theorem children_sorted {RT : Runtime} ch (h0 : store) n q :
  index_ok ch h0 = true ->
  (q < length h0)%nat ->
  terminates ch h0 n (idOf h0 q) = true ->
  (exists t h1, Unnamed.buildTree n ch (mkNode q []) h0 = Done (t, h1) /\
     forall m, In m (subnodes t) ->
       sorted_by_start h1 (Children m) /\ children_of_index ch h1 m) /\
  (exists t, Main.buildTree n ch (mkNode q []) h0 = Done (t, h0) /\
     forall m, In m (subnodes t) ->
       sorted_by_start h0 (Children m) /\ children_of_index ch h0 m).
Proof.
  intros Hok Hq Ht. split; [by apply Unnamed_buildTree_sorted|].
  destruct (Main_buildTree_sorted ch n h0 q Ht) as (t & Hrun & _ & Hgood).
  by exists t.
Qed.

Lemma children_sorted_witness :
  let ch := children (decoded tied_children) in
  let h0 := heap (decoded tied_children) in
  (exists t h1, Unnamed.buildTree (RT := stableRuntime) 3 ch (mkNode 0%nat []) h0 = Done (t, h1) /\
     forall m, In m (subnodes t) ->
       sorted_by_start h1 (Children m) /\ children_of_index ch h1 m) /\
  (exists t, Main.buildTree (RT := stableRuntime) 3 ch (mkNode 0%nat []) h0 = Done (t, h0) /\
     forall m, In m (subnodes t) ->
       sorted_by_start h0 (Children m) /\ children_of_index ch h0 m).
Proof.
  apply (children_sorted (RT := stableRuntime)).
  - vm_compute. reflexivity.
  - vm_compute. lia.
  - vm_compute. reflexivity.
Defined.

(** C4 as stated fails: with the sort of the library, twelve children
    that start together and a thirteenth that starts before them come out
    with the one that arrived seventh ahead of the one that arrived first,
    in both programs and whatever the generator of the library is.  Up to
    twelve elements the library sorts by insertion and ties keep their
    order of arrival; from thirteen on it partitions around a pivot, here
    the seventh child, which it first swaps to the front. *)
Lemma children_order_not_stable :
  let ch := children (decoded thirteen_children) in
  let h0 := heap (decoded thirteen_children) in
  let arrival := [1; 2; 3; 4; 5; 6; 7; 8; 9; 10; 11; 12; 13]%nat in
  let sorted := [13; 7; 3; 4; 5; 6; 1; 8; 9; 10; 11; 12; 2]%nat in
  ch !! "a"%string = Some arrival /\
  StartTime (deref h0 1%nat) = StartTime (deref h0 7%nat) /\
  forall next,
    Pdqsort.SortFunc (byStart h0) next (map (fun k => mkNode k []) arrival)
      = map (fun k => mkNode k []) sorted /\
    Unnamed.buildTree (RT := libraryRuntime next) 3 ch (mkNode 0%nat []) h0
      = Done (mkNode 0%nat (map (fun k => mkNode k []) sorted), h0) /\
    Main.buildTree (RT := libraryRuntime next) 3 ch (mkNode 0%nat []) h0
      = Done (mkNode 0%nat (map (fun k => mkNode k []) sorted), h0).
Proof.
  split; [vm_compute; reflexivity|]. split; [vm_compute; reflexivity|].
  intros next. vm_compute. repeat split; reflexivity.
Qed.

(** ** Malformed records (C3) *)

Lemma Unnamed_decode_error pre err rest : forall i d,
  Unnamed.decode (map inl pre ++ inr err :: rest) i d
  = inl (Errorf_line (i + Z.of_nat (length pre) + 1) err).
Proof.
  induction pre as [|s pre IH]; intros i d; simpl.
  - do 2 f_equal. lia.
  - rewrite IH. do 2 f_equal. lia.
Qed.

Lemma Main_decode_error pre err rest : forall d,
  Main.decode (map inl pre ++ inr err :: rest) d = inl err.
Proof. induction pre as [|s pre IH]; intros d; simpl; [reflexivity|apply IH]. Qed.

(** C3, as the programs have it.  When the records [pre] decode and the
    next one fails with [err], both programs return an error and write
    nothing, whatever follows.  The program of src/unnamed/part_000 wraps
    the failure with the 1-based ordinal of the record; the program of
    src/main.go returns the failure as it is, with no ordinal. *)
Theorem malformed_record_aborts {RT : Runtime} (pre : list Span) err rest fuel :
  Unnamed.mainE fuel (map inl pre ++ inr err :: rest)
    = Done (mkRun EmptyString [] (Some (Errorf_line (Z.of_nat (length pre) + 1) err))) /\
  Main.mainE fuel (map inl pre ++ inr err :: rest)
    = Done (mkRun EmptyString [] (Some err)).
Proof.
  unfold Unnamed.mainE, Main.mainE.
  by rewrite Unnamed_decode_error, Main_decode_error.
Qed.

(** The scenario: record 3 of 5 is malformed.  src/unnamed/part_000
    reports ordinal 3 and writes nothing. *)
Example third_malformed_reported :
  Unnamed.mainE (RT := stableRuntime) 0 third_malformed
  = Done (mkRun EmptyString []
       (Some (Errorf_line 3 (DecodeError "invalid character '}' looking for beginning of value")))).
Proof. reflexivity. Qed.

(** C3 as stated fails on src/main.go: the error returned for the
    malformed third record is the bare parse failure, the same value that
    is returned when that record comes first; it carries no ordinal. *)
Lemma main_go_error_has_no_ordinal :
  Main.mainE (RT := stableRuntime) 0 third_malformed
    = Done (mkRun EmptyString []
        (Some (DecodeError "invalid character '}' looking for beginning of value"))) /\
  Main.mainE (RT := stableRuntime) 0 third_malformed
    = Main.mainE (RT := stableRuntime) 0
        [inr (DecodeError "invalid character '}' looking for beginning of value")].
Proof. split; reflexivity. Qed.

(** ** Names in the output (C10) *)

Lemma append_assoc (a b c : string) : (a +:+ b) +:+ c = a +:+ b +:+ c.
Proof.
  induction a as [|x a IH]; [reflexivity|].
  change (String x ((a +:+ b) +:+ c) = String x (a +:+ b +:+ c)). by rewrite IH.
Qed.


(** C10.  In both programs the name of the span is written as it is, with
    no escaping, right after the opening tag of the [<span>] of a leaf or
    of the [<summary>] of a node with children. *)
Theorem name_written_verbatim (h : store) parent node :
  occurs_in (name_element h node) (Unnamed.writeSpan h parent node) /\
  occurs_in (name_element h node) (Main.writeSpan h parent node).
Proof.
  unfold occurs_in, name_element. destruct node as [p [|c cs]].
  - split; exists (openDiv h parent (mkNode p [])); eexists.
    + cbn [Unnamed.writeSpan Children nSpan]. unfold label. cbn [nSpan].
      rewrite !append_assoc. reflexivity.
    + cbn [Main.writeSpan Children nSpan]. unfold label. cbn [nSpan].
      rewrite !append_assoc. reflexivity.
  - split.
    + destruct parent as [par|].
      * exists (openDiv h (Some par) (mkNode p (c :: cs)) +:+ "<details>"). eexists.
        cbn [Unnamed.writeSpan Children nSpan]. unfold label. cbn [nSpan].
        rewrite !append_assoc. reflexivity.
      * exists (openDiv h None (mkNode p (c :: cs)) +:+ "<details open>"). eexists.
        cbn [Unnamed.writeSpan Children nSpan]. unfold label. cbn [nSpan].
        rewrite !append_assoc. reflexivity.
    + exists (openDiv h parent (mkNode p (c :: cs)) +:+ "<details>"). eexists.
      cbn [Main.writeSpan Children nSpan]. unfold label. cbn [nSpan].
      rewrite !append_assoc. reflexivity.
Qed.

(** A name with markup in it goes out unchanged. *)
Example markup_in_name :
  Unnamed.writeSpan
    [mkSpan "<b>&" "a" rootID (mkTime 0 0) (mkTime 5 0)] None (mkNode 0%nat [])
  = "<div><span><b>& 5ns</span></div>" +:+ nl.
Proof. vm_compute. reflexivity. Qed.

(** ** The decoding loop *)

Lemma positions_spec x ss : forall base k,
  In k (positions x ss base) <->
  exists s, ss !! (k - base)%nat = Some s /\ (base <= k)%nat /\ ParentID s = x.
Proof.
  induction ss as [|s ss IH]; intros base k; simpl.
  - split; [done|]. by intros (s & Hs & _).
  - rewrite in_app_iff, IH. split.
    + intros [Hk|(s' & Hs' & Hle & Hp)].
      * destruct (decide (ParentID s = x)); [|done]. destruct Hk as [<-|[]].
        exists s. rewrite Nat.sub_diag. done.
      * exists s'. split; [|split; [lia|done]].
        replace (k - base)%nat with (S (k - S base)) by lia. done.
    + intros (s' & Hs' & Hle & Hp).
      destruct (decide (k = base)) as [->|Hne].
      * rewrite Nat.sub_diag in Hs'. simpl in Hs'. injection Hs' as ->.
        left. destruct (decide (ParentID s' = x)); [by left|done].
      * right. exists s'. split; [|split; [lia|done]].
        replace (k - base)%nat with (S (k - S base)) in Hs' by lia. done.
Qed.

(** A stream with no malformed record decodes; the store is the records
    in order, a child list holds the addresses of the spans with that
    parent id, and an id is absent from [spans] when no record has it. *)
Lemma Unnamed_decode_ok ss : forall i d0,
  exists d, Unnamed.decode (map inl ss) i d0 = inr d /\
    heap d = heap d0 ++ ss /\
    (forall x, children d !! x =
       match children d0 !! x, positions x ss (length (heap d0)) with
       | None, [] => None
       | o, l => Some (default [] o ++ l)
       end) /\
    (forall x, spans d !! x = None <->
       spans d0 !! x = None /\ forall s, In s ss -> SpanID s <> x).
Proof.
  induction ss as [|s ss IH]; intros i d0; simpl.
  - exists d0. split; [reflexivity|]. split; [by rewrite app_nil_r|]. split.
    + intros x. destruct (children d0 !! x); simpl; [by rewrite app_nil_r|reflexivity].
    + intros x. split; [intros H; split; [done|intros s []]|by intros [H _]].
  - edestruct IH as (d & -> & Hheap & Hch & Hsp). exists d. split; [reflexivity|].
    simpl in Hheap, Hch, Hsp. split; [by rewrite Hheap, <- app_assoc|]. split.
    + intros x. rewrite Hch, length_app. simpl.
      replace (length (heap d0) + 1)%nat with (S (length (heap d0))) by lia.
      destruct (decide (ParentID s = x)) as [<-|Hne].
      * rewrite lookup_insert_eq. simpl.
        destruct (children d0 !! ParentID s) as [ks|]; simpl.
        -- rewrite <- app_assoc. simpl. by destruct (positions _ _ _).
        -- by destruct (positions _ _ _).
      * rewrite lookup_insert_ne by done. simpl. reflexivity.
    + intros x. rewrite Hsp. destruct (decide (SpanID s = x)) as [<-|Hne].
      * rewrite lookup_insert_eq. split; [by intros [? _]|].
        intros [_ H]. exfalso. by apply (H s); [left|].
      * rewrite lookup_insert_ne by done. split.
        -- intros [H0 H]. split; [done|]. intros s' [<-|Hs']; [done|by apply H].
        -- intros [H0 H]. split; [done|]. intros s' Hs'. apply H. by right.
Qed.

Lemma Main_decode_Unnamed input : forall i d0,
  Main.decode input d0 =
  match Unnamed.decode input i d0 with
  | inl (Errorf_line _ err) => inl err
  | inl err => inl err
  | inr d => inr d
  end.
Proof.
  induction input as [|[s|err] input IH]; intros i d0; simpl; [reflexivity| |reflexivity].
  apply IH.
Qed.

Lemma decoded_spec ss :
  let d := decoded (map inl ss) in
  Unnamed.decode (map inl ss) 0 (mkDecoded [] ∅ ∅) = inr d /\
  heap d = ss /\
  (forall x, children d !! x =
     match positions x ss 0 with
     | [] => None
     | l => Some l
     end) /\
  (forall x, spans d !! x = None <-> forall s, In s ss -> SpanID s <> x).
Proof.
  unfold decoded.
  destruct (Unnamed_decode_ok ss 0 (mkDecoded [] ∅ ∅)) as (d & -> & Hheap & Hch & Hsp).
  simpl in *. split; [reflexivity|]. split; [exact Hheap|]. split.
  - intros x. rewrite Hch, lookup_empty. by destruct (positions x ss 0).
  - intros x. rewrite Hsp, lookup_empty. split; [by intros [_ H]|by split].
Qed.

(** ** Well-formed indexes and bounded recursion *)

Lemma index_ok_intro ch (h0 : store) :
  (forall x ks, ch !! x = Some ks -> ks <> [] /\ forall k, In k ks -> (k < length h0)%nat) ->
  index_ok ch h0 = true.
Proof.
  intros H. unfold index_ok. apply forallb_forall. intros [x ks] Hin.
  apply list_elem_of_In, elem_of_map_to_list in Hin.
  destruct (H x ks Hin) as [Hne Hlt].
  apply andb_true_iff. split.
  - apply negb_true_iff, Nat.eqb_neq. by destruct ks.
  - apply forallb_forall. intros k Hk. by apply Nat.ltb_lt, Hlt.
Qed.


Lemma index_ok_decoded ss :
  index_ok (children (decoded (map inl ss))) ss = true.
Proof.
  destruct (decoded_spec ss) as (_ & _ & Hch & _).
  apply index_ok_intro. intros x ks Hx. rewrite Hch in Hx.
  destruct (positions x ss 0) as [|k0 l] eqn:Hpos; [done|]. injection Hx as <-.
  split; [done|]. intros k Hk. rewrite <- Hpos in Hk.
  apply positions_spec in Hk as (s & Hs & _ & _).
  apply lookup_lt_Some in Hs. lia.
Qed.


(** Ancestry that a rank function shows acyclic makes the recursion
    bounded. *)
Lemma rank_terminates ch (h : store) (rank : string -> nat) :
  (forall y ks k, ch !! y = Some ks -> In k ks -> (rank (idOf h k) < rank y)%nat) ->
  forall n x, (rank x < n)%nat -> terminates ch h n x = true.
Proof.
  intros Hrank. induction n as [|n IH]; intros x Hx; [lia|]. simpl.
  destruct (ch !! x) as [ks|] eqn:Hks; [|reflexivity].
  apply forallb_forall. intros k Hk. apply IH.
  specialize (Hrank x ks k Hks Hk). lia.
Qed.

(** ** Runs of [Unnamed.buildTree] inside [mainE] *)
Section Returns.
Context {RT : Runtime}.
Variables (ch : gmap string (list ptr)) (hd : store).
Hypothesis Hok : index_ok ch hd = true.








End Returns.

(** ** The loop over the missing ids *)
Section Missing.
Context {RT : Runtime}.
Variables (ch : gmap string (list ptr)) (hd : store).
Hypothesis Hok : index_ok ch hd = true.


End Missing.



(** Facts about the indexes of a stream that decodes. *)
Section Decoded.
Variable ss : list Span.
Let d := decoded (map inl ss).

Lemma children_decoded_In x ks k :
  children d !! x = Some ks -> In k ks ->
  exists s, ss !! k = Some s /\ ParentID s = x.
Proof.
  destruct (decoded_spec ss) as (_ & _ & Hch & _). fold d in Hch.
  rewrite Hch. intros Hx Hk.
  destruct (positions x ss 0) as [|k0 l] eqn:Hpos; [done|]. injection Hx as <-.
  rewrite <- Hpos in Hk. apply positions_spec in Hk as (s & Hs & _ & Hp).
  rewrite Nat.sub_0_r in Hs. by exists s.
Qed.

Lemma children_decoded_None x :
  (forall s, In s ss -> ParentID s <> x) -> children d !! x = None.
Proof.
  destruct (decoded_spec ss) as (_ & _ & Hch & _). fold d in Hch.
  intros Hno. rewrite Hch.
  destruct (positions x ss 0) as [|k0 l] eqn:Hpos; [reflexivity|].
  assert (Hk : In k0 (positions x ss 0)) by (rewrite Hpos; by left).
  apply positions_spec in Hk as (s & Hs & _ & Hp).
  exfalso. apply (Hno s); [|done]. apply list_elem_of_In. by eapply list_elem_of_lookup_2.
Qed.

Lemma children_decoded_Some s :
  In s ss -> is_Some (children d !! ParentID s).
Proof.
  destruct (decoded_spec ss) as (_ & _ & Hch & _). fold d in Hch.
  intros Hs. rewrite Hch.
  destruct (positions (ParentID s) ss 0) as [|k0 l] eqn:Hpos; [|by eexists].
  apply list_elem_of_In, list_elem_of_lookup in Hs as [k Hk].
  assert (Hin : In k (positions (ParentID s) ss 0)).
  { apply positions_spec. exists s. rewrite Nat.sub_0_r. split; [done|]. split; [lia|done]. }
  by rewrite Hpos in Hin.
Qed.

(** The ids that [missing] collects. *)
Lemma missingOf_spec x :
  x ∈ Unnamed.missingOf d <->
  (exists s, In s ss /\ ParentID s = x) /\ forall s, In s ss -> SpanID s <> x.
Proof.
  destruct (decoded_spec ss) as (_ & _ & _ & Hsp). fold d in Hsp.
  unfold Unnamed.missingOf. rewrite elem_of_filter, elem_of_dom, Hsp. split.
  - intros [Hno [ks Hks]]. split; [|done].
    destruct ks as [|k ks].
    { pose proof (index_ok_decoded ss) as Hok.
      by destruct (index_ok_lookup _ _ _ _ Hok Hks). }
    destruct (children_decoded_In x (k :: ks) k Hks) as (s & Hs & Hp); [by left|].
    exists s. split; [|done]. apply list_elem_of_In. by eapply list_elem_of_lookup_2.
  - intros [(s & Hs & <-) Hno]. split; [done|]. by apply children_decoded_Some.
Qed.

Lemma rank_decoded (rank : string -> nat) :
  (forall s, In s ss -> (rank (SpanID s) < rank (ParentID s))%nat) ->
  forall y ks k, children d !! y = Some ks -> In k ks ->
    (rank (idOf ss k) < rank y)%nat.
Proof.
  intros Hrank y ks k Hy Hk.
  destruct (children_decoded_In y ks k Hy Hk) as (s & Hs & <-).
  unfold idOf, deref. rewrite Hs. simpl. apply Hrank.
  apply list_elem_of_In. by eapply list_elem_of_lookup_2.
Qed.

End Decoded.

(** ** Runs of [Unnamed.mainE] on streams that decode *)

Lemma occurs_in_app_r s w rest : occurs_in s w -> occurs_in s (w +:+ rest).
Proof.
  intros (pre & post & ->). exists pre, (post +:+ rest). by rewrite !append_assoc.
Qed.





(** ** Missing parents (C6) *)




(** ** No root span (C7) *)



(** More fuel does not change a run that returned (so the fuel above is
    a lower bound, not a choice). *)
Lemma Unnamed_buildTree_fuel {RT : Runtime} ch n : forall m root (h : store) res,
  Unnamed.buildTree n ch root h = Done res -> (n <= m)%nat ->
  Unnamed.buildTree m ch root h = Done res.
Proof.
  induction n as [|n IH]; intros m root h res Hrun Hle; [discriminate|].
  destruct m as [|m]; [lia|]. simpl in Hrun |- *.
  destruct (ch !! SpanID (deref h (nSpan root))) as [ks|]; [|done].
  assert (Hkids : forall ks h res', buildKids (Unnamed.buildTree n ch) ks h = Done res' ->
            buildKids (Unnamed.buildTree m ch) ks h = Done res').
  { clear Hrun. induction ks0 as [|k ks0 IHk]; intros h' res' Hk; simpl in *; [done|].
    destruct (Unnamed.buildTree n ch (mkNode k []) h') as [[t1 h1]| |] eqn:E; [|done..].
    rewrite (IH m _ _ _ E) by lia.
    destruct (buildKids (Unnamed.buildTree n ch) ks0 h1) as [[ns h2]| |] eqn:E2; [|done..].
    by rewrite (IHk _ _ E2). }
  destruct (buildKids (Unnamed.buildTree n ch) ks h) as [[nodes h1]| |] eqn:E; [|done..].
  by rewrite (Hkids _ _ _ E).
Qed.



(** ** Order of the output (C8) *)

(** C8 fails on the "no root" branch of src/unnamed/part_000: for a stream
    with a single orphan the container of the placeholder is written
    first, and the header only after it. *)
Theorem orphans_written_before_header :
  Unnamed.mainE (RT := stableRuntime) 3 orphan_only
  = Done (mkRun
      ("<div><details open><summary>Missing span 30ns</summary><div style=" +:+ dq +:+
       "margin: 1px 0.000000% 0 0.000000%" +:+ dq +:+ "><span>child 30ns</span></div>" +:+ nl +:+
       "</details></div>" +:+ nl +:+
       header +:+ "<div><span>root 0s</span></div>" +:+ nl +:+ footer)
      [LogMissing "zzz"; LogNoRoot] None).
Proof. vm_compute. reflexivity. Qed.

(** The other successful runs are one document: src/main.go always, and
    src/unnamed/part_000 when a root span exists (see
    [Unnamed_mainE_run]). *)
Lemma Main_mainE_document {RT : Runtime} fuel input r :
  Main.mainE fuel input = Done r -> ret r = None ->
  exists t h, written r = header +:+ Main.writeSpan h None t +:+ footer.
Proof.
  unfold Main.mainE. intros Hrun Hret.
  destruct (Main.decode input _) as [err|d]; [injection Hrun as <-; discriminate|].
  destruct (children d !! rootID) as [[|rootSpan [|? ?]]|]; try discriminate.
  - destruct (Main.buildTree _ _ _ _) as [[t h]| |]; try discriminate.
    injection Hrun as <-. by exists t, h.
  - injection Hrun as <-. discriminate.
Qed.

(** ** Zero-duration parents (C5) *)

Lemma Time_Sub_same t u : ns t = ns u -> Time_Sub t u = 0.
Proof. intros H. unfold Time_Sub. rewrite H, Z.sub_diag. reflexivity. Qed.

Lemma fmt_f_over_zero x :
  not_a_number (fmt_f (fmul f100 (fdiv x (float64_of_int 0)))).
Proof.
  destruct x as [[]|[]| |[] m e]; vm_compute; auto.
Qed.

Lemma openDiv_margins (h : store) parent node :
  occurs_in (margin_text (fmt_f (fst (margins h parent node))) (fmt_f (snd (margins h parent node))))
            (openDiv h (Some parent) node).
Proof.
  unfold openDiv, margin_text. destruct (margins h parent node) as [r l]. simpl fst. simpl snd.
  destruct (Children node).
  - exists ("<div style=" +:+ dq), (dq +:+ ">"). rewrite !append_assoc. reflexivity.
  - exists ("<div class=" +:+ dq +:+ "parent" +:+ dq +:+ " style=" +:+ dq), (dq +:+ ">").
    rewrite !append_assoc. reflexivity.
Qed.

(** C5, as the program has it.  Under a parent whose start and end are
    the same instant nothing guards the division: both percentages are
    printed as "NaN", "+Inf" or "-Inf" (never as a number, so never as
    0%), and as "NaN" when the node's own offset from the parent is zero;
    this is the text of the margin style in the opening [<div>]. *)
Theorem zero_duration_parent_margins (h : store) parent node :
  ns (EndTime (deref h (nSpan parent))) = ns (StartTime (deref h (nSpan parent))) ->
  let right := fmt_f (fst (margins h parent node)) in
  let left := fmt_f (snd (margins h parent node)) in
  not_a_number right /\ not_a_number left /\
  (ns (StartTime (deref h (nSpan node))) = ns (StartTime (deref h (nSpan parent))) ->
     left = "NaN"%string) /\
  (ns (EndTime (deref h (nSpan node))) = ns (EndTime (deref h (nSpan parent))) ->
     right = "NaN"%string) /\
  occurs_in (margin_text right left) (openDiv h (Some parent) node).
Proof.
  intros Hzero right left. subst right left.
  split; [|split; [|split; [|split]]].
  - unfold margins. simpl fst. rewrite (Time_Sub_same (EndTime _) (StartTime _)) by done.
    apply fmt_f_over_zero.
  - unfold margins. simpl snd. rewrite (Time_Sub_same (EndTime _) (StartTime _)) by done.
    apply fmt_f_over_zero.
  - intros Hl. unfold margins. simpl snd.
    rewrite (Time_Sub_same (EndTime _) (StartTime _)) by done.
    by rewrite (Time_Sub_same (StartTime _) (StartTime _)).
  - intros Hr. unfold margins. simpl fst.
    rewrite (Time_Sub_same (EndTime (deref h (nSpan parent))) (StartTime _)) by done.
    by rewrite (Time_Sub_same (EndTime _) (EndTime _)).
  - apply openDiv_margins.
Qed.

Lemma zero_duration_parent_margins_witness :
  let h := [mkSpan "root" rootID EmptyString (mkTime 5 0) (mkTime 5 0);
            mkSpan "pt" "a" rootID (mkTime 5 0) (mkTime 5 0)] in
  let parent := mkNode 0%nat [mkNode 1%nat []] in
  let node := mkNode 1%nat [] in
  let right := fmt_f (fst (margins h parent node)) in
  let left := fmt_f (snd (margins h parent node)) in
  not_a_number right /\ not_a_number left /\
  (ns (StartTime (deref h (nSpan node))) = ns (StartTime (deref h (nSpan parent))) ->
     left = "NaN"%string) /\
  (ns (EndTime (deref h (nSpan node))) = ns (EndTime (deref h (nSpan parent))) ->
     right = "NaN"%string) /\
  occurs_in (margin_text right left) (openDiv h (Some parent) node).
Proof.
  apply (zero_duration_parent_margins
           [mkSpan "root" rootID EmptyString (mkTime 5 0) (mkTime 5 0);
            mkSpan "pt" "a" rootID (mkTime 5 0) (mkTime 5 0)]
           (mkNode 0%nat [mkNode 1%nat []]) (mkNode 1%nat [])).
  reflexivity.
Defined.

(** C5 as stated fails: a single span of zero duration makes the root a
    zero-duration parent, and the margins of the span are written as
    "NaN%", not "0%". *)
Lemma zero_duration_parent_prints_NaN :
  Unnamed.mainE (RT := stableRuntime) 3 lone_point
  = Done (mkRun
      (header +:+
       "<div><details open><summary>root 0s</summary><div style=" +:+ dq +:+
       "margin: 1px NaN% 0 NaN%" +:+ dq +:+ "><span>pt 0s</span></div>" +:+ nl +:+
       "</details></div>" +:+ nl +:+ footer)
      [LogMissing rootID] None).
Proof. vm_compute. reflexivity. Qed.

(** ** float64 arithmetic: one rounding per operation *)

Lemma digits2_pos_bounds p :
  2 ^ (Z.pos (digits2_pos p) - 1) <= Z.pos p < 2 ^ Z.pos (digits2_pos p).
Proof.
  induction p as [p IH|p IH|]; simpl digits2_pos.
  - rewrite Pos2Z.inj_succ. replace (Z.succ (Z.pos (digits2_pos p)) - 1) with (Z.succ (Z.pos (digits2_pos p) - 1)) by lia.
    rewrite !Z.pow_succ_r by lia. lia.
  - rewrite Pos2Z.inj_succ. replace (Z.succ (Z.pos (digits2_pos p)) - 1) with (Z.succ (Z.pos (digits2_pos p) - 1)) by lia.
    rewrite !Z.pow_succ_r by lia. lia.
  - simpl. lia.
Qed.

Lemma digits2_pos_unique p k :
  2 ^ (k - 1) <= Z.pos p < 2 ^ k -> Z.pos (digits2_pos p) = k.
Proof.
  intros [Hlo Hhi]. pose proof (digits2_pos_bounds p) as [Hlo' Hhi'].
  assert (0 < k).
  { destruct (Z.lt_trichotomy 0 k) as [?|[<-|Hneg]]; [assumption| |].
    - rewrite Z.pow_0_r in Hhi. lia.
    - rewrite Z.pow_neg_r in Hhi by assumption. lia. }
  destruct (Z.lt_trichotomy (Z.pos (digits2_pos p)) k) as [Hlt|[Heq|Hgt]]; [|exact Heq|].
  - assert (2 ^ Z.pos (digits2_pos p) <= 2 ^ (k - 1)) by (apply Z.pow_le_mono_r; lia). lia.
  - assert (2 ^ k <= 2 ^ (Z.pos (digits2_pos p) - 1)) by (apply Z.pow_le_mono_r; lia). lia.
Qed.


Lemma inb_proper m l y y' : (y == y')%Q -> inb m l y -> inb m l y'.
Proof. intros E. destruct l as [|[]]; unfold inb; rewrite E; auto. Qed.

Lemma inb_floor m l y : inb m l y -> (inject_Z m <= y /\ y < inject_Z m + 1)%Q.
Proof. destruct l as [|[]]; unfold inb; intros H; lra. Qed.

Lemma inject_Z_xI p : (inject_Z (Z.pos p~1) == 2 * inject_Z (Z.pos p) + 1)%Q.
Proof. rewrite Pos2Z.inj_xI, inject_Z_plus, inject_Z_mult. reflexivity. Qed.

Lemma inject_Z_xO p : (inject_Z (Z.pos p~0) == 2 * inject_Z (Z.pos p))%Q.
Proof. rewrite Pos2Z.inj_xO, inject_Z_mult. reflexivity. Qed.

Lemma shr_1_inb mrs y :
  0 <= shr_m mrs ->
  inb (shr_m mrs) (loc_of_shr_record mrs) y ->
  inb (shr_m (shr_1 mrs)) (loc_of_shr_record (shr_1 mrs)) (y * (1#2)) /\
  0 <= shr_m (shr_1 mrs).
Proof.
  destruct mrs as [m r s]. simpl shr_m. intros Hm.
  destruct m as [|[p|p|]|]; try lia;
    destruct r, s; simpl; unfold inb;
    rewrite ?inject_Z_xI, ?inject_Z_xO; intros H; (split; [|lia]);
    change (inject_Z 1) with 1%Q in *; change (inject_Z 0) with 0%Q in *;
    lra.
Qed.

Lemma half_pow_double k :
  ((1#2) ^ Z.pos k~0 == (1#2) ^ Z.pos k * (1#2) ^ Z.pos k)%Q.
Proof.
  rewrite <- Qpower_plus' by lia. by rewrite Pos2Z.inj_xO, <- Z.add_diag.
Qed.

Lemma half_pow_double_succ k :
  ((1#2) ^ Z.pos k~1 == (1#2) * ((1#2) ^ Z.pos k * (1#2) ^ Z.pos k))%Q.
Proof.
  rewrite <- half_pow_double.
  change ((1#2) * (1#2) ^ Z.pos k~0)%Q with ((1#2) ^ 1 * (1#2) ^ Z.pos k~0)%Q.
  rewrite <- Qpower_plus' by lia. by rewrite Pos2Z.inj_xI, Pos2Z.inj_xO, Z.add_comm.
Qed.

Lemma iter_shr_1_inb k : forall mrs y,
  0 <= shr_m mrs ->
  inb (shr_m mrs) (loc_of_shr_record mrs) y ->
  inb (shr_m (SpecFloat.iter_pos shr_1 k mrs)) (loc_of_shr_record (SpecFloat.iter_pos shr_1 k mrs))
      (y * (1#2) ^ Z.pos k) /\
  0 <= shr_m (SpecFloat.iter_pos shr_1 k mrs).
Proof.
  induction k as [k IH|k IH|]; intros mrs y Hm Hy; simpl SpecFloat.iter_pos.
  - destruct (shr_1_inb mrs y Hm Hy) as [H1 Hm1].
    destruct (IH _ _ Hm1 H1) as [H2 Hm2].
    destruct (IH _ _ Hm2 H2) as [H3 Hm3].
    split; [|exact Hm3]. eapply inb_proper; [|exact H3].
    rewrite half_pow_double_succ. ring.
  - destruct (IH _ _ Hm Hy) as [H2 Hm2].
    destruct (IH _ _ Hm2 H2) as [H3 Hm3].
    split; [|exact Hm3]. eapply inb_proper; [|exact H3].
    rewrite half_pow_double. ring.
  - destruct (shr_1_inb mrs y Hm Hy) as [H1 Hm1]. split; [|exact Hm1].
    eapply inb_proper; [|exact H1]. reflexivity.
Qed.

Lemma loc_of_shr_record_of_loc m l :
  loc_of_shr_record (shr_record_of_loc m l) = l /\ shr_m (shr_record_of_loc m l) = m.
Proof. destruct l as [|[]]; by split. Qed.

(** [shr] by a non-negative amount. *)
Lemma shr_inb mrs e n y :
  0 <= n -> 0 <= shr_m mrs ->
  inb (shr_m mrs) (loc_of_shr_record mrs) y ->
  let '(mrs', e') := shr mrs e n in
  e' = e + n /\ 0 <= shr_m mrs' /\
  inb (shr_m mrs') (loc_of_shr_record mrs') (y * (1#2) ^ n).
Proof.
  intros Hn Hm Hy. destruct n as [|k|k]; [| |lia]; simpl.
  - split; [lia|]. split; [done|]. eapply inb_proper; [|exact Hy]. ring.
  - destruct (iter_shr_1_inb k mrs y Hm Hy) as [H1 H2]. by split; [|split].
Qed.

Lemma round_nearest_even_spec m l y :
  inb m l y ->
  let m1 := round_nearest_even m l in
  m <= m1 <= m + 1 /\ (Qabs (inject_Z m1 - y) <= 1#2)%Q.
Proof.
  intros Hy. cbv zeta. destruct l as [|[]]; unfold inb, round_nearest_even in *.
  - split; [lia|]. rewrite Hy. apply Qabs_case; intros; lra.
  - destruct (Z.even m).
    + split; [lia|]. rewrite Hy. apply Qabs_case; intros; lra.
    + split; [lia|]. rewrite Hy, inject_Z_plus. change (inject_Z 1) with 1%Q.
      apply Qabs_case; intros; lra.
  - split; [lia|]. apply Qabs_case; intros; lra.
  - split; [lia|]. rewrite inject_Z_plus. change (inject_Z 1) with 1%Q.
    apply Qabs_case; intros; lra.
Qed.


Lemma pow2_pos e : (0 < pow2 e)%Q.
Proof. apply Qpower_0_lt. reflexivity. Qed.

Lemma pow2_add a b : (pow2 (a + b) == pow2 a * pow2 b)%Q.
Proof. apply Qpower_plus. discriminate. Qed.

Lemma pow2_inject a : 0 <= a -> (inject_Z (2 ^ a) == pow2 a)%Q.
Proof. intros Ha. unfold pow2. by rewrite Zpower_Qpower. Qed.

Lemma half_pow n : ((1#2) ^ n == pow2 (- n))%Q.
Proof.
  unfold pow2. rewrite Qpower_opp, <- Qinv_power. reflexivity.
Qed.

Lemma pow2_0 : (pow2 0 == 1)%Q.
Proof. reflexivity. Qed.

Lemma fexp64_normal e : -1021 <= e -> fexp 53 1024 e = e - 53.
Proof. intros He. unfold fexp, emin. lia. Qed.

Lemma Zdigits2_bounds m :
  0 < m -> 2 ^ (Zdigits2 m - 1) <= m < 2 ^ Zdigits2 m.
Proof. destruct m as [|p|p]; [lia| |lia]. intros _. apply digits2_pos_bounds. Qed.

Lemma Zdigits2_unique m k : 2 ^ (k - 1) <= m < 2 ^ k -> 0 < m -> Zdigits2 m = k.
Proof. destruct m as [|p|p]; [lia| |lia]. intros H _. by apply digits2_pos_unique. Qed.

Lemma inject_Z_lt_inv a b : (inject_Z a < inject_Z b + 1)%Q -> a <= b.
Proof.
  intros H. change 1%Q with (inject_Z 1) in H. rewrite <- inject_Z_plus in H.
  rewrite <- Zlt_Qlt in H. lia.
Qed.


Lemma close_proper X X' V V' : (X == X')%Q -> (V == V')%Q -> close X V -> close X' V'.
Proof. intros EX EV. unfold close. by rewrite EX, EV. Qed.

Lemma pow2_52 : (pow2 52 == 4503599627370496 # 1)%Q.
Proof. vm_compute. reflexivity. Qed.

Lemma pow2_53 : (pow2 53 == 9007199254740992 # 1)%Q.
Proof. vm_compute. reflexivity. Qed.

Lemma close_scale y' m1 E :
  (0 < E)%Q -> (pow2 52 <= y')%Q -> (Qabs (m1 - y') <= 1#2)%Q ->
  close (y' * E) (m1 * E).
Proof.
  intros HE Hy Habs. rewrite pow2_52 in Hy.
  apply Qabs_Qle_condition in Habs as [Hlo Hhi].
  unfold close, u53. split.
  - rewrite <- Qmult_assoc, (Qmult_comm E), Qmult_assoc.
    apply Qmult_le_compat_r; [lra|lra].
  - rewrite <- (Qmult_assoc y'), (Qmult_comm E), Qmult_assoc.
    apply Qmult_le_compat_r; [lra|lra].
Qed.

Lemma binary_round_aux_spec s mx ex lx y :
  2 ^ 52 <= mx -> Zdigits2 mx <= 200 -> -900 <= ex <= 700 -> inb mx lx y ->
  exists m e, binary_round_aux 53 1024 s mx ex lx = S754_finite s m e /\
    2 ^ 52 <= Z.pos m < 2 ^ 53 /\
    ex + Zdigits2 mx - 53 <= e <= ex + Zdigits2 mx - 52 /\
    close (y * pow2 ex) (inject_Z (Z.pos m) * pow2 e).
Proof.
  intros Hmx Hd Hex Hy.
  assert (Hpos : 0 < mx) by lia.
  destruct (Zdigits2_bounds mx Hpos) as [Hlo Hhi].
  set (d := Zdigits2 mx) in *.
  assert (Hd53 : 53 <= d).
  { destruct (Z.lt_ge_cases d 53); [|lia].
    assert (2 ^ d <= 2 ^ 52) by (apply Z.pow_le_mono_r; lia). lia. }
  unfold binary_round_aux, shr_fexp. fold d.
  rewrite fexp64_normal by lia.
  replace (d + ex - 53 - ex) with (d - 53) by lia.
  pose proof (shr_inb (shr_record_of_loc mx lx) ex (d - 53) y) as Hshr.
  destruct (loc_of_shr_record_of_loc mx lx) as [Hl Hm]. rewrite Hl, Hm in Hshr.
  destruct (shr (shr_record_of_loc mx lx) ex (d - 53)) as [mrs' e'].
  destruct Hshr as (He' & Hm'0 & Hinb); [lia|lia|done|].
  set (m' := shr_m mrs') in *. set (l' := loc_of_shr_record mrs') in *.
  set (y' := (y * (1#2) ^ (d - 53))%Q) in *.
  (* the shifted value lies in [2^52, 2^53) *)
  destruct (inb_floor _ _ _ Hy) as [Hy1 Hy2].
  assert (Hh : ((1#2) ^ (d - 53) == pow2 (53 - d))%Q).
  { rewrite half_pow. by replace (- (d - 53)) with (53 - d) by lia. }
  assert (Hy'lo : (pow2 52 <= y')%Q).
  { unfold y'. rewrite Hh.
    replace 52 with ((d - 1) + (53 - d)) by lia. rewrite pow2_add.
    apply Qmult_le_compat_r; [|apply Qlt_le_weak, pow2_pos].
    rewrite <- pow2_inject by lia. rewrite Zle_Qle in Hlo. lra. }
  assert (Hy'hi : (y' < pow2 53)%Q).
  { unfold y'. rewrite Hh.
    replace 53 with (d + (53 - d)) at 2 by lia. rewrite pow2_add.
    apply Qmult_lt_compat_r; [apply pow2_pos|].
    rewrite <- pow2_inject by lia.
    assert (mx + 1 <= 2 ^ d) as Hle by lia.
    rewrite Zle_Qle, inject_Z_plus in Hle. change (inject_Z 1) with 1%Q in Hle. lra. }
  destruct (inb_floor _ _ _ Hinb) as [Hm1 Hm2].
  assert (Hm'lo : 2 ^ 52 <= m').
  { apply inject_Z_lt_inv. rewrite pow2_inject by lia. lra. }
  assert (Hm'hi : m' < 2 ^ 53).
  { rewrite Zlt_Qlt, pow2_inject by lia. lra. }
  destruct (round_nearest_even_spec m' l' y' Hinb) as [Hr Habs].
  set (m1 := round_nearest_even m' l') in *.
  assert (Hy'E : (y' * pow2 e' == y * pow2 ex)%Q).
  { unfold y'. rewrite Hh, He', pow2_add.
    assert (H1 : (pow2 (53 - d) * pow2 (d - 53) == 1)%Q).
    { rewrite <- pow2_add. replace (53 - d + (d - 53)) with 0 by lia. reflexivity. }
    transitivity (y * pow2 ex * (pow2 (53 - d) * pow2 (d - 53)))%Q; [ring|].
    rewrite H1. ring. }
  assert (Hclose : close (y * pow2 ex) (inject_Z m1 * pow2 e')).
  { eapply close_proper; [exact Hy'E|reflexivity|].
    apply close_scale; [apply pow2_pos|done|done]. }
  destruct (Z.eq_dec m1 (2 ^ 53)) as [Heq|Hne].
  - (* the rounding carried into a 54th bit *)
    rewrite Heq.
    assert (Hd1 : Zdigits2 (2 ^ 53) = 54) by (vm_compute; reflexivity).
    rewrite Hd1, fexp64_normal by lia.
    replace (54 + e' - 53 - e') with 1 by lia.
    change (shr (shr_record_of_loc (2 ^ 53) loc_Exact) e' 1)
      with ({| shr_m := 2 ^ 52; shr_r := false; shr_s := false |}, e' + 1).
    cbn [shr_m]. change (2 ^ 52) with (Z.pos 4503599627370496) at 1.
    replace (e' + 1 <=? 1024 - 53) with true by (symmetry; apply Z.leb_le; lia).
    exists 4503599627370496%positive, (e' + 1).
    split; [reflexivity|]. split; [vm_compute; split; [discriminate|reflexivity]|].
    split; [lia|].
    eapply close_proper; [reflexivity| |exact Hclose].
    rewrite Heq, pow2_add.
    assert (H2 : (inject_Z (2 ^ 53) == inject_Z (Z.pos 4503599627370496) * pow2 1)%Q)
      by (vm_compute; reflexivity).
    rewrite H2. ring.
  - assert (Hd1 : Zdigits2 m1 = 53) by (apply Zdigits2_unique; lia).
    rewrite Hd1, fexp64_normal by lia.
    replace (53 + e' - 53 - e') with 0 by lia.
    change (shr (shr_record_of_loc m1 loc_Exact) e' 0)
      with (shr_record_of_loc m1 loc_Exact, e').
    cbn [shr_record_of_loc shr_m].
    destruct m1 as [|p|p] eqn:Em1; [lia| |lia].
    replace (e' <=? 1024 - 53) with true by (symmetry; apply Z.leb_le; lia).
    exists p, e'. split; [reflexivity|]. split; [lia|]. split; [lia|]. exact Hclose.
Qed.

(** *** Conversion from integers *)


Lemma Pos_iter_xO p k : Z.pos (Pos.iter xO p k) = Z.pos p * 2 ^ Z.pos k.
Proof.
  induction k as [|k IH] using Pos.peano_ind.
  - simpl. lia.
  - rewrite Pos.iter_succ, Pos2Z.inj_xO, IH, Pos2Z.inj_succ, Z.pow_succ_r by lia. lia.
Qed.


Lemma binary_round_int s p :
  Z.pos p <= 2 ^ 64 ->
  exists m e, binary_round 53 1024 s p 0 = S754_finite s m e /\
    2 ^ 52 <= Z.pos m < 2 ^ 53 /\ -52 <= e <= 13 /\
    close (inject_Z (Z.pos p)) (inject_Z (Z.pos m) * pow2 e).
Proof.
  intros Hp. unfold binary_round.
  pose proof (digits2_pos_bounds p) as [Hlo Hhi].
  set (d := Z.pos (digits2_pos p)) in *.
  assert (Hd1 : 1 <= d) by (unfold d; lia).
  assert (Hd65 : d <= 65).
  { destruct (Z.le_gt_cases d 65); [done|].
    assert (2 ^ 65 <= 2 ^ (d - 1)) by (apply Z.pow_le_mono_r; lia). lia. }
  rewrite Z.add_0_r, fexp64_normal by lia.
  unfold shl_align. rewrite Z.sub_0_r.
  destruct (d - 53) as [|k|k] eqn:Ek.
  - (* exactly 53 bits *)
    destruct (binary_round_aux_spec s (Z.pos p) 0 loc_Exact (inject_Z (Z.pos p)))
      as (m & e & Hr & Hm & He & Hc); [| | |reflexivity|].
    { replace 52 with (d - 1) by lia. done. }
    { change (Zdigits2 (Z.pos p)) with d. lia. }
    { lia. }
    exists m, e. split; [done|]. split; [done|]. change (Zdigits2 (Z.pos p)) with d in He. split; [lia|].
    eapply close_proper; [|reflexivity|exact Hc]. rewrite pow2_0. ring.
  - (* more than 53 bits *)
    destruct (binary_round_aux_spec s (Z.pos p) 0 loc_Exact (inject_Z (Z.pos p)))
      as (m & e & Hr & Hm & He & Hc); [| | |reflexivity|].
    { assert (2 ^ 52 <= 2 ^ (d - 1)) by (apply Z.pow_le_mono_r; lia). lia. }
    { change (Zdigits2 (Z.pos p)) with d. lia. }
    { lia. }
    exists m, e. split; [done|]. split; [done|]. change (Zdigits2 (Z.pos p)) with d in He. split; [lia|].
    eapply close_proper; [|reflexivity|exact Hc]. rewrite pow2_0. ring.
  - (* fewer than 53 bits: the mantissa is shifted left first *)
    assert (Hmz : Z.pos (Pos.iter xO p k) = Z.pos p * 2 ^ (53 - d)).
    { rewrite Pos_iter_xO. f_equal. f_equal. lia. }
    assert (Hmz_lo : 2 ^ 52 <= Z.pos (Pos.iter xO p k) < 2 ^ 53).
    { assert (H52 : 2 ^ 52 = 2 ^ (d - 1) * 2 ^ (53 - d)).
      { rewrite <- Z.pow_add_r by lia. f_equal. lia. }
      assert (H53 : 2 ^ 53 = 2 ^ d * 2 ^ (53 - d)).
      { rewrite <- Z.pow_add_r by lia. f_equal. lia. }
      assert (HP : 0 < 2 ^ (53 - d)) by (apply Z.pow_pos_nonneg; lia).
      rewrite Hmz, H52, H53. split.
      - apply Z.mul_le_mono_nonneg_r; lia.
      - apply Z.mul_lt_mono_pos_r; lia. }
    assert (Hdz : Zdigits2 (Z.pos (Pos.iter xO p k)) = 53).
    { apply Zdigits2_unique; [exact Hmz_lo|lia]. }
    destruct (binary_round_aux_spec s (Z.pos (Pos.iter xO p k)) (Z.neg k) loc_Exact
                (inject_Z (Z.pos (Pos.iter xO p k))))
      as (m & e & Hr & Hm & He & Hc); [| | |reflexivity|].
    { apply Hmz_lo. }
    { rewrite Hdz. lia. }
    { lia. }
    exists m, e. split; [done|]. split; [done|]. rewrite Hdz in He. split; [lia|].
    eapply close_proper; [|reflexivity|exact Hc].
    rewrite Hmz, inject_Z_mult, pow2_inject by lia.
    rewrite <- Qmult_assoc, <- pow2_add.
    replace (53 - d + Z.neg k) with 0 by lia. rewrite pow2_0. ring.
Qed.

(** *** Division *)

Lemma new_location_spec nb q r :
  0 < nb -> 0 <= r < nb ->
  inb q (new_location nb r) (inject_Z q + inject_Z r / inject_Z nb).
Proof.
  intros Hnb Hr.
  assert (Hnb' : (0 < inject_Z nb)%Q) by (change 0%Q with (inject_Z 0); by rewrite <- Zlt_Qlt).
  set (rho := (inject_Z r / inject_Z nb)%Q).
  assert (Hlt : 2 * r < nb -> (rho < 1#2)%Q).
  { intros H. apply Qlt_shift_div_r; [done|].
    rewrite Zlt_Qlt, inject_Z_mult in H. change (inject_Z 2) with 2%Q in H. lra. }
  assert (Hgt : nb < 2 * r -> ((1#2) < rho)%Q).
  { intros H. apply Qlt_shift_div_l; [done|].
    rewrite Zlt_Qlt, inject_Z_mult in H. change (inject_Z 2) with 2%Q in H. lra. }
  assert (Heq : 2 * r = nb -> (rho == 1#2)%Q).
  { intros H. unfold rho. rewrite <- H, inject_Z_mult. change (inject_Z 2) with 2%Q.
    assert (0 < r) by lia.
    assert ((0 < inject_Z r)%Q) by (change 0%Q with (inject_Z 0); by rewrite <- Zlt_Qlt).
    field. lra. }
  assert (Hpos : 0 < r -> (0 < rho)%Q).
  { intros H. apply Qlt_shift_div_l; [done|]. rewrite Qmult_0_l.
    change 0%Q with (inject_Z 0). by rewrite <- Zlt_Qlt. }
  assert (Hone : (rho < 1)%Q).
  { apply Qlt_shift_div_r; [done|]. rewrite Qmult_1_l. rewrite <- Zlt_Qlt. lia. }
  unfold new_location, new_location_even, new_location_odd.
  destruct (Z.even nb) eqn:Heven.
  - destruct (Z.eqb_spec r 0) as [->|Hr0].
    + unfold inb, rho. change (inject_Z 0) with 0%Q. unfold Qdiv. ring.
    + destruct (Z.compare_spec (2 * r) nb) as [E|L|G]; unfold inb.
      * rewrite (Heq E). reflexivity.
      * specialize (Hlt L). specialize (Hpos ltac:(lia)). lra.
      * specialize (Hgt G). lra.
  - destruct (Z.eqb_spec r 0) as [->|Hr0].
    + unfold inb, rho. change (inject_Z 0) with 0%Q. unfold Qdiv. ring.
    + assert (Hodd : 2 * r <> nb).
      { intros <-. rewrite Z.even_mul in Heven. discriminate. }
      destruct (Z.compare_spec (2 * r + 1) nb) as [E|L|G]; unfold inb.
      * specialize (Hlt ltac:(lia)). specialize (Hpos ltac:(lia)). lra.
      * specialize (Hlt ltac:(lia)). specialize (Hpos ltac:(lia)). lra.
      * specialize (Hgt ltac:(lia)). lra.
Qed.

Lemma fdiv_spec sx mx ex sy my ey :
  2 ^ 52 <= Z.pos mx < 2 ^ 53 -> 2 ^ 52 <= Z.pos my < 2 ^ 53 ->
  -300 <= ex <= 300 -> -300 <= ey <= 300 ->
  exists m e, fdiv (S754_finite sx mx ex) (S754_finite sy my ey) = S754_finite (xorb sx sy) m e /\
    2 ^ 52 <= Z.pos m < 2 ^ 53 /\
    ex - ey - 53 <= e <= ex - ey - 51 /\
    close ((inject_Z (Z.pos mx) * pow2 ex) / (inject_Z (Z.pos my) * pow2 ey))
          (inject_Z (Z.pos m) * pow2 e).
Proof.
  intros Hmx Hmy Hex Hey. unfold fdiv, prec64, emax64, SFdiv, SFdiv_core_binary.
  assert (Hdx : Zdigits2 (Z.pos mx) = 53) by (apply Zdigits2_unique; lia).
  assert (Hdy : Zdigits2 (Z.pos my) = 53) by (apply Zdigits2_unique; lia).
  rewrite Hdx, Hdy.
  replace (53 + ex - (53 + ey)) with (ex - ey) by lia.
  rewrite fexp64_normal by lia.
  rewrite Z.min_l by lia.
  replace (ex - ey - (ex - ey - 53)) with 53 by lia.
  cbv iota. rewrite Z.shiftl_mul_pow2 by lia.
  pose proof (Z_div_mod (Z.pos mx * 2 ^ 53) (Z.pos my) ltac:(lia)) as Hdiv.
  destruct (Z.div_eucl (Z.pos mx * 2 ^ 53) (Z.pos my)) as [q r].
  destruct Hdiv as [Hqr Hr].
  assert (Hq_lo : 2 ^ 52 <= q).
  { assert (2 ^ 52 * Z.pos my <= Z.pos mx * 2 ^ 53) by nia. nia. }
  assert (Hq_hi : q < 2 ^ 54).
  { assert (Z.pos mx * 2 ^ 53 < 2 ^ 54 * Z.pos my) by nia. nia. }
  assert (Hdq : Zdigits2 q <= 54).
  { destruct (Zdigits2_bounds q ltac:(lia)) as [Hlo _].
    destruct (Z.le_gt_cases (Zdigits2 q) 54); [done|].
    assert (2 ^ 54 <= 2 ^ (Zdigits2 q - 1)) by (apply Z.pow_le_mono_r; lia). lia. }
  assert (Hdq' : 53 <= Zdigits2 q).
  { destruct (Zdigits2_bounds q ltac:(lia)) as [_ Hhi].
    destruct (Z.lt_ge_cases (Zdigits2 q) 53); [|lia].
    assert (2 ^ Zdigits2 q <= 2 ^ 52) by (apply Z.pow_le_mono_r; lia). lia. }
  destruct (binary_round_aux_spec (xorb sx sy) q (ex - ey - 53) (new_location (Z.pos my) r)
              (inject_Z q + inject_Z r / inject_Z (Z.pos my)))
    as (m & e & Hres & Hm & He & Hc); [done|lia|lia|by apply new_location_spec|].
  exists m, e. split; [done|]. split; [done|]. split; [lia|].
  eapply close_proper; [|reflexivity|exact Hc].
  assert (Hmy' : (0 < inject_Z (Z.pos my))%Q) by reflexivity.
  pose proof (pow2_pos ey) as Hpey.
  assert (Hm' : (inject_Z q + inject_Z r / inject_Z (Z.pos my)
                 == inject_Z (Z.pos mx) * pow2 53 / inject_Z (Z.pos my))%Q).
  { rewrite <- pow2_inject, <- inject_Z_mult, Hqr, inject_Z_plus, inject_Z_mult by lia.
    field. lra. }
  rewrite Hm'.
  replace (ex - ey - 53) with (ex + (- ey + -53)) by lia. rewrite !pow2_add.
  assert (H1 : (pow2 (- ey) * pow2 ey == 1)%Q).
  { rewrite <- pow2_add. replace (- ey + ey) with 0 by lia. reflexivity. }
  assert (H2 : (pow2 53 * pow2 (-53) == 1)%Q) by (vm_compute; reflexivity).
  assert (H3 : (pow2 (- ey) == / pow2 ey)%Q).
  { apply Qmult_inj_r with (z := pow2 ey); [lra|]. rewrite H1. field. lra. }
  rewrite H3.
  transitivity (inject_Z (Z.pos mx) * pow2 ex / (inject_Z (Z.pos my) * pow2 ey)
                * (pow2 53 * pow2 (-53)))%Q; [field; lra|].
  rewrite H2. field. lra.
Qed.

(** *** Multiplication *)

Lemma fmul_spec sx mx ex sy my ey :
  2 ^ 52 <= Z.pos mx < 2 ^ 53 -> 2 ^ 52 <= Z.pos my < 2 ^ 53 ->
  -300 <= ex <= 300 -> -300 <= ey <= 300 ->
  exists m e, fmul (S754_finite sx mx ex) (S754_finite sy my ey) = S754_finite (xorb sx sy) m e /\
    2 ^ 52 <= Z.pos m < 2 ^ 53 /\
    close ((inject_Z (Z.pos mx) * pow2 ex) * (inject_Z (Z.pos my) * pow2 ey))
          (inject_Z (Z.pos m) * pow2 e).
Proof.
  intros Hmx Hmy Hex Hey. unfold fmul, prec64, emax64, SFmul.
  assert (Hlo : 2 ^ 52 <= Z.pos (mx * my)) by (rewrite Pos2Z.inj_mul; nia).
  assert (Hhi : Z.pos (mx * my) < 2 ^ 106) by (rewrite Pos2Z.inj_mul; nia).
  assert (Hd : Zdigits2 (Z.pos (mx * my)) <= 106).
  { destruct (Zdigits2_bounds (Z.pos (mx * my)) ltac:(lia)) as [Hl _].
    destruct (Z.le_gt_cases (Zdigits2 (Z.pos (mx * my))) 106); [done|].
    assert (2 ^ 106 <= 2 ^ (Zdigits2 (Z.pos (mx * my)) - 1)) by (apply Z.pow_le_mono_r; lia).
    lia. }
  destruct (binary_round_aux_spec (xorb sx sy) (Z.pos (mx * my)) (ex + ey) loc_Exact
              (inject_Z (Z.pos (mx * my))))
    as (m & e & Hres & Hm & He & Hc); [done|lia|lia|reflexivity|].
  exists m, e. split; [done|]. split; [done|].
  eapply close_proper; [|reflexivity|exact Hc].
  rewrite Pos2Z.inj_mul, inject_Z_mult, pow2_add. ring.
Qed.

Lemma f100_normal : f100 = S754_finite false 7036874417766400 (-46).
Proof. vm_compute. reflexivity. Qed.

Lemma float64_of_int_spec z :
  z <> 0 -> Z.abs z <= 2 ^ 64 ->
  exists m e, float64_of_int z = S754_finite (z <? 0) m e /\
    2 ^ 52 <= Z.pos m < 2 ^ 53 /\ -52 <= e <= 13 /\
    close (inject_Z (Z.abs z)) (inject_Z (Z.pos m) * pow2 e).
Proof.
  intros Hz Habs. unfold float64_of_int, prec64, emax64, binary_normalize.
  destruct z as [|p|p]; [done| |].
  - apply binary_round_int. simpl in Habs. lia.
  - apply (binary_round_int true p). simpl in Habs. lia.
Qed.

(** *** Four roundings in a row *)

Lemma close_ratio X V :
  (0 < X)%Q -> close X V ->
  exists r, (V == X * r)%Q /\ (1 - u53 <= r <= 1 + u53)%Q.
Proof.
  intros HX [Hlo Hhi]. exists (V / X)%Q. split; [field; lra|]. split.
  - apply Qle_shift_div_l; [done|]. by rewrite Qmult_comm.
  - apply Qle_shift_div_r; [done|]. by rewrite Qmult_comm.
Qed.

Lemma four_factors a b c d :
  (1 - u53 <= a <= 1 + u53)%Q -> (1 - u53 <= b <= 1 + u53)%Q ->
  (1 - u53 <= c <= 1 + u53)%Q -> (1 - u53 <= d <= 1 + u53)%Q ->
  (1 - 5 * u53 <= a * c * d / b <= 1 + 5 * u53)%Q.
Proof.
  unfold u53. intros Ha Hb Hc Hd.
  set (lo := (1 - (1 # 9007199254740992))%Q) in *.
  set (hi := (1 + (1 # 9007199254740992))%Q) in *.
  assert (Hlo0 : (0 < lo)%Q) by reflexivity.
  assert (Hup : (a * c * d <= hi * hi * hi)%Q).
  { apply Qmult_le_compat_nonneg; [|lra].
    split; [apply Qmult_le_0_compat; lra|]. apply Qmult_le_compat_nonneg; lra. }
  assert (Hdn : (lo * lo * lo <= a * c * d)%Q).
  { apply Qmult_le_compat_nonneg; [|lra].
    split; [vm_compute; discriminate|]. apply Qmult_le_compat_nonneg; lra. }
  assert (Hn1 : (hi * hi * hi <= (1 + 5 * (1 # 9007199254740992)) * lo)%Q)
    by (vm_compute; discriminate).
  assert (Hn2 : ((1 - 5 * (1 # 9007199254740992)) * hi <= lo * lo * lo)%Q)
    by (vm_compute; discriminate).
  split.
  - apply Qle_shift_div_l; [lra|].
    apply Qle_trans with ((1 - 5 * (1 # 9007199254740992)) * hi)%Q; [|lra].
    apply Qmult_le_l; [reflexivity|lra].
  - apply Qle_shift_div_r; [lra|].
    apply Qle_trans with ((1 + 5 * (1 # 9007199254740992)) * lo)%Q; [lra|].
    apply Qmult_le_l; [reflexivity|lra].
Qed.

(** *** The percentage [100.0 * (float64(l) / float64(t))] *)



Lemma inject_Z_abs_pos z : z <> 0 -> (0 < inject_Z (Z.abs z))%Q.
Proof. intros Hz. change 0%Q with (inject_Z 0). rewrite <- Zlt_Qlt. lia. Qed.

Lemma inject_Z_sign z :
  (inject_Z z == (if z <? 0 then -1 else 1) * inject_Z (Z.abs z))%Q.
Proof.
  destruct (Z.ltb_spec z 0).
  - rewrite Z.abs_neq by lia. rewrite inject_Z_opp. ring.
  - rewrite Z.abs_eq by lia. ring.
Qed.

Lemma mantissa_pos m e : (0 < inject_Z (Z.pos m) * pow2 e)%Q.
Proof. apply Qmult_lt_0_compat; [reflexivity|apply pow2_pos]. Qed.

Lemma pct_finite l t :
  l <> 0 -> t <> 0 -> Z.abs l <= 2 ^ 64 -> Z.abs t <= 2 ^ 64 ->
  exists m e, pct l t = S754_finite (xorb (l <? 0) (t <? 0)) m e /\
    let X := (100 * inject_Z (Z.abs l) / inject_Z (Z.abs t))%Q in
    (X * (1 - 5 * u53) <= inject_Z (Z.pos m) * pow2 e <= X * (1 + 5 * u53))%Q.
Proof.
  intros Hl Ht Hla Hta. unfold pct.
  destruct (float64_of_int_spec l Hl Hla) as (ml & el & -> & Hml & Hel & Hcl).
  destruct (float64_of_int_spec t Ht Hta) as (mt & et & -> & Hmt & Het & Hct).
  destruct (fdiv_spec (l <? 0) ml el (t <? 0) mt et Hml Hmt ltac:(lia) ltac:(lia))
    as (mq & eq & -> & Hmq & Heq & Hcq).
  rewrite f100_normal.
  destruct (fmul_spec false 7036874417766400 (-46) (xorb (l <? 0) (t <? 0)) mq eq
              ltac:(lia) Hmq ltac:(lia) ltac:(lia))
    as (m & e & -> & Hm & Hc).
  exists m, e. split; [reflexivity|]. cbv zeta.
  pose proof (inject_Z_abs_pos l Hl) as HA. pose proof (inject_Z_abs_pos t Ht) as HB.
  set (A := inject_Z (Z.abs l)) in *. set (B := inject_Z (Z.abs t)) in *.
  pose proof (mantissa_pos ml el) as Ha. pose proof (mantissa_pos mt et) as Hb.
  pose proof (mantissa_pos mq eq) as Hq.
  set (a := (inject_Z (Z.pos ml) * pow2 el)%Q) in *.
  set (b := (inject_Z (Z.pos mt) * pow2 et)%Q) in *.
  set (q := (inject_Z (Z.pos mq) * pow2 eq)%Q) in *.
  set (P := (inject_Z (Z.pos m) * pow2 e)%Q) in *.
  assert (H100 : (inject_Z 7036874417766400 * pow2 (-46) == 100)%Q) by (vm_compute; reflexivity).
  destruct (close_ratio A a HA Hcl) as (ra & Ea & Hra).
  destruct (close_ratio B b HB Hct) as (rb & Eb & Hrb).
  assert (Hab : (0 < a / b)%Q) by (apply Qlt_shift_div_l; [done|lra]).
  destruct (close_ratio _ q Hab Hcq) as (rq & Eq & Hrq).
  assert (H100q : (0 < inject_Z 7036874417766400 * pow2 (-46) * q)%Q).
  { rewrite H100. apply Qmult_lt_0_compat; [reflexivity|done]. }
  destruct (close_ratio _ P H100q Hc) as (rp & Ep & Hrp).
  assert (Hrb0 : (0 < rb)%Q) by (unfold u53 in Hrb; lra).
  assert (EP : (P == 100 * A / B * (ra * rq * rp / rb))%Q).
  { rewrite Ep, H100, Eq, Ea, Eb. field. split; lra. }
  pose proof (four_factors ra rb rq rp Hra Hrb Hrq Hrp) as [Hlo Hhi].
  assert (HX : (0 < 100 * A / B)%Q).
  { apply Qlt_shift_div_l; [done|]. lra. }
  rewrite EP. split; apply Qmult_le_l; done.
Qed.

Lemma pct_zero t :
  t <> 0 -> Z.abs t <= 2 ^ 64 -> exists s, pct 0 t = S754_zero s.
Proof.
  intros Ht Hta. unfold pct.
  destruct (float64_of_int_spec t Ht Hta) as (mt & et & -> & _).
  rewrite f100_normal. by eexists.
Qed.

(** The percentage handed to [Fprintf] is the exact one up to five units
    in the last place. *)
Lemma pct_error l t :
  t <> 0 -> Z.abs l <= 2 ^ 64 -> Z.abs t <= 2 ^ 64 ->
  (Qabs (F2Q (pct l t) - 100 * inject_Z l / inject_Z t)
   <= 5 * u53 * Qabs (100 * inject_Z l / inject_Z t))%Q.
Proof.
  intros Ht Hla Hta.
  pose proof (inject_Z_abs_pos t Ht) as HB.
  destruct (Z.eq_dec l 0) as [->|Hl].
  - destruct (pct_zero t Ht Hta) as [s ->]. simpl F2Q.
    assert (E : (100 * inject_Z 0 / inject_Z t == 0)%Q).
    { change (inject_Z 0) with 0%Q. unfold Qdiv. ring. }
    rewrite E. vm_compute. discriminate.
  - destruct (pct_finite l t Hl Ht Hla Hta) as (m & e & -> & Hlo & Hhi).
    pose proof (inject_Z_abs_pos l Hl) as HA.
    set (A := inject_Z (Z.abs l)) in *. set (B := inject_Z (Z.abs t)) in *.
    set (P := (inject_Z (Z.pos m) * pow2 e)%Q) in *.
    set (X := (100 * A / B)%Q) in *.
    assert (HX : (0 < X)%Q) by (apply Qlt_shift_div_l; [done|lra]).
    set (sg := (if xorb (l <? 0) (t <? 0) then -1 else 1)%Q).
    assert (EX : (100 * inject_Z l / inject_Z t == sg * X)%Q).
    { rewrite (inject_Z_sign l), (inject_Z_sign t). fold A B. unfold sg, X.
      destruct (l <? 0), (t <? 0); simpl; field; lra. }
    assert (Hsg : (Qabs sg == 1)%Q) by (unfold sg; by destruct (xorb _ _)).
    simpl F2Q. fold P sg. rewrite EX.
    assert (E2 : (sg * P - sg * X == sg * (P - X))%Q) by ring. rewrite E2.
    rewrite !Qabs_Qmult, Hsg, (Qabs_pos X) by lra.
    rewrite !Qmult_1_l. apply Qabs_Qle_condition. unfold u53 in *. split; lra.
Qed.

Lemma pct_number l t :
  t <> 0 -> Z.abs l <= 2 ^ 64 -> Z.abs t <= 2 ^ 64 -> is_number (pct l t).
Proof.
  intros Ht Hla Hta. destruct (Z.eq_dec l 0) as [->|Hl].
  - by destruct (pct_zero t Ht Hta) as [s ->].
  - by destruct (pct_finite l t Hl Ht Hla Hta) as (m & e & -> & _).
Qed.

(** ** Margins (C1) *)

Lemma Time_Sub_exact t u : in_range (ns t - ns u) -> Time_Sub t u = ns t - ns u.
Proof.
  unfold in_range, Time_Sub. intros [Hlo Hhi].
  destruct (Z.ltb_spec (ns t - ns u) minDuration); [lia|].
  destruct (Z.ltb_spec maxDuration (ns t - ns u)); [lia|reflexivity].
Qed.

Lemma in_range_abs d : in_range d -> Z.abs d <= 2 ^ 64.
Proof. unfold in_range, minDuration, maxDuration. lia. Qed.

Lemma margins_pct (h : store) parent node :
  margins h parent node =
  (pct (Time_Sub (EndTime (deref h (nSpan parent))) (EndTime (deref h (nSpan node))))
       (Time_Sub (EndTime (deref h (nSpan parent))) (StartTime (deref h (nSpan parent)))),
   pct (Time_Sub (StartTime (deref h (nSpan node))) (StartTime (deref h (nSpan parent))))
       (Time_Sub (EndTime (deref h (nSpan parent))) (StartTime (deref h (nSpan parent))))).
Proof. reflexivity. Qed.

(** C1, as the programs have it.  For a node under a parent whose start
    and end are different instants (all differences within the range of
    [time.Duration]), the opening [<div>] of both programs carries the
    margin style with the right and left percentages printed by [%f];
    both are numbers, each within five units in the last place of
    [100 * (parent.end - node.end) / (parent.end - parent.start)] and
    [100 * (node.start - parent.start) / (parent.end - parent.start)];
    and left + right + 100 * (node duration / parent duration) is 100 up
    to that tolerance. *)
Theorem margins_proportional (h : store) parent node :
  let p := deref h (nSpan parent) in
  let s := deref h (nSpan node) in
  let t := ns (EndTime p) - ns (StartTime p) in
  let l := ns (StartTime s) - ns (StartTime p) in
  let r := ns (EndTime p) - ns (EndTime s) in
  let d := ns (EndTime s) - ns (StartTime s) in
  let R := fst (margins h parent node) in
  let L := snd (margins h parent node) in
  t <> 0 -> in_range t -> in_range l -> in_range r ->
  occurs_in (margin_text (fmt_f R) (fmt_f L)) (openDiv h (Some parent) node) /\
  is_number L /\ is_number R /\
  (Qabs (F2Q L - 100 * inject_Z l / inject_Z t)
     <= 5 * u53 * Qabs (100 * inject_Z l / inject_Z t))%Q /\
  (Qabs (F2Q R - 100 * inject_Z r / inject_Z t)
     <= 5 * u53 * Qabs (100 * inject_Z r / inject_Z t))%Q /\
  (Qabs (F2Q L + F2Q R + 100 * inject_Z d / inject_Z t - 100)
     <= 5 * u53 * (Qabs (100 * inject_Z l / inject_Z t) + Qabs (100 * inject_Z r / inject_Z t)))%Q.
Proof.
  intros p s t l r d R L Ht Hrt Hrl Hrr.
  assert (HR : R = pct r t).
  { unfold R. rewrite margins_pct. simpl fst. fold p s.
    by rewrite !Time_Sub_exact. }
  assert (HL : L = pct l t).
  { unfold L. rewrite margins_pct. simpl snd. fold p s.
    by rewrite !Time_Sub_exact. }
  pose proof (in_range_abs t Hrt) as Hat. pose proof (in_range_abs l Hrl) as Hal.
  pose proof (in_range_abs r Hrr) as Har.
  pose proof (pct_error l t Ht Hal Hat) as HeL.
  pose proof (pct_error r t Ht Har Hat) as HeR.
  split; [apply openDiv_margins|].
  split; [rewrite HL; by apply pct_number|].
  split; [rewrite HR; by apply pct_number|].
  rewrite HL, HR. split; [exact HeL|]. split; [exact HeR|].
  assert (Ht' : ~ (inject_Z t == 0)%Q).
  { change 0%Q with (inject_Z 0). rewrite inject_Z_injective. exact Ht. }
  assert (Hsum : (F2Q (pct l t) + F2Q (pct r t) + 100 * inject_Z d / inject_Z t - 100
                  == (F2Q (pct l t) - 100 * inject_Z l / inject_Z t)
                     + (F2Q (pct r t) - 100 * inject_Z r / inject_Z t))%Q).
  { assert (Hd : d = t - l - r) by (unfold d, t, l, r; lia).
    rewrite Hd. unfold Z.sub. rewrite !inject_Z_plus, !inject_Z_opp. field. exact Ht'. }
  rewrite Hsum. eapply Qle_trans; [apply Qabs_triangle|]. lra.
Qed.

(** C1 on the scenario: "b" (10..40) under "a" (0..100). *)
Lemma margins_proportional_witness :
  let h := heap (decoded two_spans) in
  let parent := mkNode 0%nat [mkNode 1%nat []] in
  let node := mkNode 1%nat [] in
  let R := fst (margins h parent node) in
  let L := snd (margins h parent node) in
  occurs_in (margin_text (fmt_f R) (fmt_f L)) (openDiv h (Some parent) node) /\
  is_number L /\ is_number R /\
  (Qabs (F2Q L - 100 * inject_Z 10 / inject_Z 100)
     <= 5 * u53 * Qabs (100 * inject_Z 10 / inject_Z 100))%Q /\
  (Qabs (F2Q R - 100 * inject_Z 60 / inject_Z 100)
     <= 5 * u53 * Qabs (100 * inject_Z 60 / inject_Z 100))%Q /\
  (Qabs (F2Q L + F2Q R + 100 * inject_Z 30 / inject_Z 100 - 100)
     <= 5 * u53 * (Qabs (100 * inject_Z 10 / inject_Z 100) + Qabs (100 * inject_Z 60 / inject_Z 100)))%Q.
Proof.
  apply (margins_proportional (heap (decoded two_spans))
           (mkNode 0%nat [mkNode 1%nat []]) (mkNode 1%nat [])).
  - vm_compute. discriminate.
  - vm_compute. split; discriminate.
  - vm_compute. split; discriminate.
  - vm_compute. split; discriminate.
Defined.

(** The scenario evaluated: the leaf for "child-op" gets left margin 10%
    and right margin 60%, in both programs. *)
Example scenario_two_spans :
  written_of (Unnamed.mainE (RT := stableRuntime) 3 two_spans) =
    Some (header +:+
      "<div><details open><summary>root 100ns</summary><div class=" +:+ dq +:+ "parent" +:+ dq +:+
      " style=" +:+ dq +:+ "margin: 1px 0.000000% 0 0.000000%" +:+ dq +:+
      "><details><summary>root-op 100ns</summary><div style=" +:+ dq +:+
      "margin: 1px 60.000000% 0 10.000000%" +:+ dq +:+ "><span>child-op 30ns</span></div>" +:+ nl +:+
      "</details></div>" +:+ nl +:+ "</details></div>" +:+ nl +:+ footer) /\
  written_of (Main.mainE (RT := stableRuntime) 3 two_spans) =
    Some (header +:+
      "<div><details><summary>root-op 100ns</summary><div style=" +:+ dq +:+
      "margin: 1px 60.000000% 0 10.000000%" +:+ dq +:+ "><span>child-op 30ns</span></div>" +:+ nl +:+
      "</details></div>" +:+ nl +:+ footer).
Proof. split; vm_compute; reflexivity. Qed.

(** C1 as stated fails under a zero-duration parent: the leaf "tick"
    under the zero-duration span "group" gets margins that are not
    numbers, printed "NaN%", so no sum of percentages comes to 100. *)
Lemma margins_under_point_parent :
  let h := heap (decoded point_chain) in
  let parent := mkNode 1%nat [mkNode 2%nat []] in
  let node := mkNode 2%nat [] in
  margins h parent node = (S754_nan, S754_nan) /\
  ~ is_number (fst (margins h parent node)) /\
  written_of (Unnamed.mainE (RT := stableRuntime) 4 point_chain) =
    Some (header +:+
      "<div><details open><summary>root 100ns</summary><div class=" +:+ dq +:+ "parent" +:+ dq +:+
      " style=" +:+ dq +:+ "margin: 1px 0.000000% 0 0.000000%" +:+ dq +:+
      "><details><summary>root-op 100ns</summary><div class=" +:+ dq +:+ "parent" +:+ dq +:+
      " style=" +:+ dq +:+ "margin: 1px 50.000000% 0 50.000000%" +:+ dq +:+
      "><details><summary>group 0s</summary><div style=" +:+ dq +:+
      "margin: 1px NaN% 0 NaN%" +:+ dq +:+ "><span>tick 0s</span></div>" +:+ nl +:+
      "</details></div>" +:+ nl +:+ "</details></div>" +:+ nl +:+ "</details></div>" +:+ nl +:+
      footer).
Proof.
  split; [vm_compute; reflexivity|]. split; [vm_compute; tauto|].
  vm_compute. reflexivity.
Qed.

(** ** The library models on sample values *)

Example Duration_String_samples :
  Duration_String 0 = "0s"%string /\
  Duration_String 100 = "100ns"%string /\
  Duration_String 30000000000 = "30s"%string /\
  Duration_String 1500000 = "1.5ms"%string /\
  Duration_String 3723000000000 = "1h2m3s"%string /\
  Duration_String (-90000000000) = "-1m30s"%string.
Proof. repeat split; vm_compute; reflexivity. Qed.

Example fmt_f_samples :
  fmt_f (pct 10 100) = "10.000000"%string /\
  fmt_f (pct 60 100) = "60.000000"%string /\
  fmt_f (pct 1 3) = "33.333333"%string /\
  fmt_f (pct (-2) 3) = "-66.666667"%string /\
  fmt_f (pct 0 0) = "NaN"%string /\
  fmt_f (pct 5 0) = "+Inf"%string /\
  fmt_f (pct (-5) 0) = "-Inf"%string.
Proof. repeat split; vm_compute; reflexivity. Qed.

(** ** Bounded recursion is what a returning run needs *)

(** [Unnamed.buildTree] never changes the id of a span. *)
Lemma Unnamed_buildTree_ids {RT : Runtime} ch n : forall root (h : store) t h',
  Unnamed.buildTree n ch root h = Done (t, h') ->
  forall p, SpanID (deref h' p) = SpanID (deref h p).
Proof.
  induction n as [|n IH]; intros root h t h' Hrun p; [discriminate|].
  simpl in Hrun.
  destruct (ch !! SpanID (deref h (nSpan root))) as [ks|]; [|by injection Hrun as _ <-].
  assert (Hkids : forall ks h nodes h1,
            buildKids (Unnamed.buildTree n ch) ks h = Done (nodes, h1) ->
            forall p, SpanID (deref h1 p) = SpanID (deref h p)).
  { clear Hrun. induction ks0 as [|k ks0 IHk]; intros g nodes g1 Hk q; simpl in Hk.
    - by injection Hk as _ <-.
    - destruct (Unnamed.buildTree n ch (mkNode k []) g) as [[t1 g']| |] eqn:E; [|done..].
      destruct (buildKids (Unnamed.buildTree n ch) ks0 g') as [[ns g2]| |] eqn:E2; [|done..].
      injection Hk as _ <-. rewrite (IHk _ _ _ E2 q). by eapply IH. }
  destruct (buildKids (Unnamed.buildTree n ch) ks h) as [[nodes h1]| |] eqn:E; [|done..].
  rewrite <- (Hkids _ _ _ _ E p).
  assert (Hset : forall (g : store) q s,
            SpanID s = SpanID (deref g q) -> SpanID (deref (<[q := s]> g) p) = SpanID (deref g p)).
  { intros g q s Hs. destruct (decide (q < length g)%nat) as [Hq|Hq].
    - rewrite deref_insert by done. by case_decide; subst.
    - by rewrite list_insert_ge by lia. }
  destruct (Time_eqb _ _); [|by injection Hrun as _ <-].
  destruct (SortFunc nodes (byStart h1)) as [|first rest]; [done|].
  destruct (MaxFunc _ _) as [last|]; [|done].
  injection Hrun as _ <-. rewrite !Hset; try reflexivity.
Qed.

(** A run that returns had enough fuel for the recursion below its
    root: [terminates] is exactly the condition for [Unnamed.buildTree] to
    return on well-formed indexes. *)
Lemma Unnamed_buildTree_Done_terminates {RT : Runtime} ch (h0 : store) n :
  forall root (h : store) t h',
    (forall p, SpanID (deref h p) = SpanID (deref h0 p)) ->
    Unnamed.buildTree n ch root h = Done (t, h') ->
    terminates ch h0 n (SpanID (deref h (nSpan root))) = true.
Proof.
  induction n as [|n IH]; intros root h t h' Hids Hrun; [discriminate|].
  simpl in Hrun |- *.
  destruct (ch !! SpanID (deref h (nSpan root))) as [ks|]; [|reflexivity].
  destruct (buildKids (Unnamed.buildTree n ch) ks h) as [[nodes h1]| |] eqn:E; [|done..].
  clear Hrun. revert h nodes h1 Hids E.
  induction ks as [|k ks IHk]; intros h nodes h1 Hids E; [reflexivity|].
  simpl in E |- *.
  destruct (Unnamed.buildTree n ch (mkNode k []) h) as [[t1 g]| |] eqn:E1; [|done..].
  destruct (buildKids (Unnamed.buildTree n ch) ks g) as [[ns g2]| |] eqn:E2; [|done..].
  apply andb_true_iff. split.
  - unfold idOf. rewrite <- Hids. by apply (IH _ _ _ _ Hids E1).
  - apply (IHk g ns g2); [|done].
    intros p. rewrite <- Hids. by eapply Unnamed_buildTree_ids.
Qed.

(** * Further properties of the two programs *)

(** ** The decoding loop *)

(** Decoding a stream in two pieces: the second piece continues from the
    indexes and the count the first one left. *)
Lemma Unnamed_decode_app ss rest : forall i d0,
  Unnamed.decode (map inl ss ++ rest) i d0 =
  match Unnamed.decode (map inl ss) i d0 with
  | inr d => Unnamed.decode rest (i + Z.of_nat (length ss)) d
  | inl e => inl e
  end.
Proof.
  induction ss as [|s ss IH]; intros i d0; simpl.
  - by rewrite Z.add_0_r.
  - rewrite IH. destruct (Unnamed.decode (map inl ss) _ _); [done|].
    f_equal. lia.
Qed.

(** One more record: its address is the next free one, it takes over its
    id in [spans] and joins the end of its parent's list. *)
Lemma decoded_snoc ss s :
  let d := decoded (map inl ss) in
  decoded (map inl (ss ++ [s])) =
  mkDecoded (ss ++ [s]) (<[SpanID s := length ss]> (spans d))
            (<[ParentID s := default [] (children d !! ParentID s) ++ [length ss]]> (children d)).
Proof.
  intros d. destruct (decoded_spec ss) as (Hd & Hh & _). fold d in Hd, Hh.
  unfold decoded at 1. rewrite map_app, Unnamed_decode_app, Hd. simpl.
  rewrite Hh. by destruct (children d !! ParentID s).
Qed.

(** The addresses [positions] lists are at least [base] and ascending. *)
Lemma positions_ascending x ss : forall base,
  Forall (fun k => (base <= k)%nat) (positions x ss base) /\
  StronglySorted lt (positions x ss base).
Proof.
  induction ss as [|s ss IH]; intros base; simpl; [by split; constructor|].
  destruct (IH (S base)) as [Hge Hs].
  assert (Hge' : Forall (fun k => (base <= k)%nat) (positions x ss (S base))).
  { eapply Forall_impl; [exact Hge|]. simpl. lia. }
  case_decide; simpl; [|done].
  split; [by constructor|]. constructor; [done|].
  eapply Forall_impl; [exact Hge|]. simpl. lia.
Qed.


(** X1. After the decoding loop, [spans] maps an id to the address of the
    last record that carries it: a later record with the same id replaces
    the earlier one. *)
Theorem spans_index_last_write (ss : list Span) (x : string) (k : ptr) :
  spans (decoded (map inl ss)) !! x = Some k <->
  (exists s, ss !! k = Some s /\ SpanID s = x) /\
  forall j s', (k < j)%nat -> ss !! j = Some s' -> SpanID s' <> x.
Proof.
  revert k. induction ss as [|s ss IH] using rev_ind; intros k.
  - split; [done|]. by intros [(s & Hs & _) _].
  - rewrite decoded_snoc. cbn [spans].
    destruct (decide (SpanID s = x)) as [Hx|Hx].
    + rewrite Hx, lookup_insert_eq. split.
      * intros [= <-]. split.
        -- exists s. by rewrite lookup_app_r, Nat.sub_diag by lia.
        -- intros j s' Hj Hl. apply lookup_lt_Some in Hl.
           rewrite length_app in Hl. simpl in Hl. lia.
      * intros [(s0 & Hs0 & _) Hlast]. f_equal.
        pose proof (lookup_lt_Some _ _ _ Hs0) as Hlt.
        rewrite length_app in Hlt. simpl in Hlt.
        destruct (decide (k = length ss)) as [->|Hne]; [done|].
        exfalso. apply (Hlast (length ss) s); [lia| |done].
        by rewrite lookup_app_r, Nat.sub_diag by lia.
    + rewrite lookup_insert_ne by done. rewrite IH. split.
      * intros [(s0 & Hs0 & Hid) Hlast]. split.
        -- exists s0. by rewrite lookup_app_l by (by eapply lookup_lt_Some).
        -- intros j s' Hj Hl. destruct (decide (j < length ss)%nat) as [Hlt|Hge].
           ++ rewrite lookup_app_l in Hl by done. by eapply Hlast.
           ++ rewrite lookup_app_r in Hl by lia.
              destruct (j - length ss)%nat; [|done]. by injection Hl as <-.
      * intros [(s0 & Hs0 & Hid) Hlast].
        assert (Hlt : (k < length ss)%nat).
        { pose proof (lookup_lt_Some _ _ _ Hs0) as Hlt.
          rewrite length_app in Hlt. simpl in Hlt.
          destruct (decide (k = length ss)) as [->|Hne]; [|lia].
          rewrite lookup_app_r, Nat.sub_diag in Hs0 by lia.
          injection Hs0 as <-. done. }
        split.
        -- exists s0. by rewrite lookup_app_l in Hs0.
        -- intros j s' Hj Hl. apply (Hlast j s' Hj).
           by rewrite lookup_app_l by (by eapply lookup_lt_Some).
Qed.

(** X2. After the decoding loop, the child list of a parent id holds the
    addresses of exactly the records with that parent id, each once and in
    order of arrival; an id that no record names as its parent has no
    entry, and no entry is an empty list. *)
Theorem children_index_arrival (ss : list Span) (x : string) :
  match children (decoded (map inl ss)) !! x with
  | Some ks =>
      ks <> [] /\ StronglySorted lt ks /\
      forall k, In k ks <-> exists s, ss !! k = Some s /\ ParentID s = x
  | None => forall s, In s ss -> ParentID s <> x
  end.
Proof.
  destruct (decoded_spec ss) as (_ & _ & Hch & _). rewrite Hch.
  assert (Hin : forall k, In k (positions x ss 0) <->
                          exists s, ss !! k = Some s /\ ParentID s = x).
  { intros k. rewrite positions_spec. split.
    - intros (s & Hs & _ & Hp). exists s. by rewrite Nat.sub_0_r in Hs.
    - intros (s & Hs & Hp). exists s. rewrite Nat.sub_0_r. split; [done|]. split; [lia|done]. }
  destruct (positions x ss 0) as [|k0 ks] eqn:E.
  - intros s Hs Hp. apply list_elem_of_In, list_elem_of_lookup in Hs as [k Hk].
    apply (proj2 (Hin k)). by exists s.
  - split; [done|]. split; [|done].
    rewrite <- E. apply positions_ascending.
Qed.

(** X3. The two decoding loops build the same store and the same indexes
    from a stream, and fail on the same streams: the error of
    part_000 is the one of main.go inside a "line N" wrapper. *)
Theorem decode_loops_agree (input : stream) : forall (i : Z) (d0 : Decoded),
  match Main.decode input d0, Unnamed.decode input i d0 with
  | inr d, inr d' => d = d'
  | inl e, inl e' => exists n, e' = Errorf_line n e
  | _, _ => False
  end.
Proof.
  induction input as [|[s|e] input IH]; intros i d0; simpl.
  - reflexivity.
  - apply IH.
  - by exists (i + 1).
Qed.

(** ** Assembly: what [buildTree] touches *)

Lemma deref_insert_ne (h : store) q s p : p <> q -> deref (<[q := s]> h) p = deref h p.
Proof. intros Hne. unfold deref. by rewrite list_lookup_insert_ne. Qed.

(** The loop of [buildTree] makes one node per address. *)
Lemma buildKids_length rec : forall ks (h : store) nodes h1,
  buildKids rec ks h = Done (nodes, h1) -> length nodes = length ks.
Proof.
  induction ks as [|k ks IH]; intros h nodes h1 Hk; simpl in Hk.
  - by injection Hk as <- _.
  - destruct (rec (mkNode k []) h) as [[t g]| |]; [|done..].
    destruct (buildKids rec ks g) as [[ns g1]| |] eqn:E; [|done..].
    injection Hk as <- _. simpl. f_equal. by eapply IH.
Qed.

(** The loop panics only when a recursive call does. *)
Lemma buildKids_no_panic rec :
  (forall root (h : store), rec root h <> Panic) ->
  forall ks h, buildKids rec ks h <> Panic.
Proof.
  intros Hrec. induction ks as [|k ks IH]; intros h; simpl; [done|].
  destruct (rec (mkNode k []) h) as [[t g]| |] eqn:E; [|by apply Hrec in E|done].
  specialize (IH g). by destruct (buildKids rec ks g) as [[ns g1]| |].
Qed.

(** With no empty child list in the index, [root.Children[0]] and
    [MaxFunc] always have an element to return. *)
Lemma Unnamed_buildTree_no_panic {RT : Runtime} ch :
  (forall x ks, ch !! x = Some ks -> ks <> []) ->
  forall n root (h : store), Unnamed.buildTree n ch root h <> Panic.
Proof.
  intros Hne. induction n as [|n IH]; intros root h; simpl; [done|].
  destruct (ch !! SpanID (deref h (nSpan root))) as [ks|] eqn:Hks; [|done].
  destruct (buildKids (Unnamed.buildTree n ch) ks h) as [[nodes h1]| |] eqn:E;
    [|by apply buildKids_no_panic in E|done].
  apply buildKids_length in E.
  pose proof (SortFunc_Permutation _ nodes (byStart h1)) as Hperm.
  apply Permutation_length in Hperm.
  destruct (Time_eqb _ _); [|done].
  destruct (SortFunc nodes (byStart h1)) as [|first rest].
  - apply Hne in Hks. destruct ks; [done|]. simpl in *. lia.
  - done.
Qed.

(** The decoding loop never leaves an empty child list. *)
Lemma decode_lists_nonempty input : forall i d0 d,
  (forall x ks, children d0 !! x = Some ks -> ks <> []) ->
  Unnamed.decode input i d0 = inr d ->
  forall x ks, children d !! x = Some ks -> ks <> [].
Proof.
  induction input as [|[s|e] input IH]; intros i d0 d H0 Hd; simpl in Hd.
  - by injection Hd as <-.
  - eapply IH; [|exact Hd]. cbn [children]. intros x ks Hx.
    destruct (decide (ParentID s = x)) as [<-|Hne].
    + rewrite lookup_insert_eq in Hx. injection Hx as <-.
      by destruct (children d0 !! ParentID s) as [[|]|].
    + rewrite lookup_insert_ne in Hx by done. by eapply H0.
  - done.
Qed.

Lemma renderMissing_no_panic {RT : Runtime} ch fuel :
  (forall x ks, ch !! x = Some ks -> ks <> []) ->
  forall ids (h : store) w, Unnamed.renderMissing fuel ch ids h w <> Panic.
Proof.
  intros Hne. induction ids as [|x ids IH]; intros h w; simpl; [done|].
  destruct (Unnamed.buildTree fuel ch _ _) as [[t h1]| |] eqn:E;
    [apply IH|by apply Unnamed_buildTree_no_panic in E|done].
Qed.

Lemma Unnamed_mainE_no_panic {RT : Runtime} (fuel : nat) (input : stream) :
  Unnamed.mainE fuel input <> Panic.
Proof.
  unfold Unnamed.mainE.
  destruct (Unnamed.decode input 0 (mkDecoded [] ∅ ∅)) as [e|d] eqn:Hd; [done|].
  assert (Hne : forall x ks, children d !! x = Some ks -> ks <> []).
  { eapply decode_lists_nonempty; [|exact Hd].
    intros x ks Hx. cbn [children] in Hx. by rewrite lookup_empty in Hx. }
  set (log1 := map LogMissing _).
  assert (Hlast : forall (h : store) (w : string) log cs,
    match Unnamed.buildTree fuel (children d) (mkNode (length h) cs)
            (h ++ [mkSpan "root" rootID EmptyString zeroTime zeroTime]) with
    | Done (root', h1) =>
        Done (mkRun ((w +:+ header) +:+ Unnamed.writeSpan h1 None root' +:+ footer) log None)
    | Panic => Panic
    | OutOfFuel => OutOfFuel
    end <> Panic).
  { intros h w log cs.
    destruct (Unnamed.buildTree fuel _ _ _) as [[t h1]| |] eqn:E;
      [done|by apply Unnamed_buildTree_no_panic in E|done]. }
  destruct (children d !! rootID) as [ks|]; [apply Hlast|].
  destruct (Unnamed.renderMissing fuel _ _ _ _) as [[h w]| |] eqn:E;
    [apply Hlast|by apply renderMissing_no_panic in E|done].
Qed.

(** X4. part_000 never panics, whatever the stream: a run returns or
    keeps recursing.  The index holds no empty child list, so
    [root.Children[0]] and [slices.MaxFunc] in the zero-duration rule
    always find an element. *)
Theorem Unnamed_mainE_never_panics {RT : Runtime} (fuel : nat) (input : stream) :
  (exists r, Unnamed.mainE fuel input = Done r) \/ Unnamed.mainE fuel input = OutOfFuel.
Proof.
  pose proof (Unnamed_mainE_no_panic fuel input) as H.
  destruct (Unnamed.mainE fuel input) as [r| |]; [left; by exists r|done|by right].
Qed.

(** The assembly of main.go leaves the store as it found it. *)
Lemma Main_buildTree_store {RT : Runtime} ch n : forall root (h : store) t h',
  Main.buildTree n ch root h = Done (t, h') -> h' = h /\ nSpan t = nSpan root.
Proof.
  induction n as [|n IH]; intros root h t h' Hrun; [done|]. simpl in Hrun.
  destruct (ch !! SpanID (deref h (nSpan root))) as [ks|]; [|by injection Hrun as <- <-].
  assert (Hkids : forall ks (g : store) nodes g1,
            buildKids (Main.buildTree n ch) ks g = Done (nodes, g1) -> g1 = g).
  { clear Hrun. induction ks0 as [|k ks0 IHk]; intros g nodes g1 Hk; simpl in Hk.
    - by injection Hk as _ <-.
    - destruct (Main.buildTree n ch (mkNode k []) g) as [[t1 g']| |] eqn:E; [|done..].
      destruct (buildKids (Main.buildTree n ch) ks0 g') as [[ns g2]| |] eqn:E2; [|done..].
      injection Hk as _ <-. apply IH in E as [-> _]. by eapply IHk. }
  destruct (buildKids (Main.buildTree n ch) ks h) as [[nodes h1]| |] eqn:E; [|done..].
  injection Hrun as <- <-. by apply Hkids in E.
Qed.

(** X5. main.go's [buildTree] never writes to a span: when it returns,
    the store is the one it was given and the node keeps its span. *)
Theorem Main_buildTree_reads_only {RT : Runtime} ch n root (h : store) t h' :
  Main.buildTree n ch root h = Done (t, h') -> h' = h /\ nSpan t = nSpan root.
Proof. apply Main_buildTree_store. Qed.

(** X6. Whenever part_000's [buildTree] returns, it has changed nothing
    but times: the store has the same length, every span keeps its name,
    id and parent id, and a span that differs at all is the span of a node
    of the returned tree that has children. *)
Theorem Unnamed_buildTree_frame {RT : Runtime} ch n : forall root (h : store) t h',
  Unnamed.buildTree n ch root h = Done (t, h') ->
  length h' = length h /\ nSpan t = nSpan root /\
  forall p,
    Name (deref h' p) = Name (deref h p) /\
    SpanID (deref h' p) = SpanID (deref h p) /\
    ParentID (deref h' p) = ParentID (deref h p) /\
    (deref h' p = deref h p \/
     exists m, In m (subnodes t) /\ nSpan m = p /\ Children m <> []).
Proof.
  induction n as [|n IH]; intros root h t h' Hrun; [discriminate|].
  simpl in Hrun.
  destruct (ch !! SpanID (deref h (nSpan root))) as [ks|].
  2:{ injection Hrun as <- <-. repeat split; by left. }
  assert (Hkids : forall ks (g : store) nodes g1,
            buildKids (Unnamed.buildTree n ch) ks g = Done (nodes, g1) ->
            length g1 = length g /\
            forall p,
              Name (deref g1 p) = Name (deref g p) /\
              SpanID (deref g1 p) = SpanID (deref g p) /\
              ParentID (deref g1 p) = ParentID (deref g p) /\
              (deref g1 p = deref g p \/
               exists c m, In c nodes /\ In m (subnodes c) /\ nSpan m = p /\ Children m <> [])).
  { clear Hrun. induction ks0 as [|k ks0 IHk]; intros g nodes g1 Hk; simpl in Hk.
    - injection Hk as <- <-. repeat split; by left.
    - destruct (Unnamed.buildTree n ch (mkNode k []) g) as [[t1 g']| |] eqn:E; [|done..].
      destruct (buildKids (Unnamed.buildTree n ch) ks0 g') as [[ns g2]| |] eqn:E2; [|done..].
      injection Hk as <- <-.
      destruct (IH _ _ _ _ E) as (Hl1 & _ & H1). destruct (IHk _ _ _ E2) as (Hl2 & H2).
      split; [congruence|]. intros p.
      destruct (H1 p) as (Ha & Hb & Hc & Hd). destruct (H2 p) as (Ha' & Hb' & Hc' & Hd').
      repeat split; [congruence..|].
      destruct Hd' as [Heq|(c & m & Hc0 & Hm)].
      + rewrite Heq. destruct Hd as [Heq'|(m & Hm)]; [by left|].
        right. exists t1, m. split; [by left|done].
      + right. exists c, m. split; [by right|done]. }
  destruct (buildKids (Unnamed.buildTree n ch) ks h) as [[nodes h1]| |] eqn:E; [|done..].
  destruct (Hkids _ _ _ _ E) as (Hl & Hk).
  pose proof (SortFunc_Permutation _ nodes (byStart h1)) as Hperm.
  assert (Hsub : forall p,
            (exists c m, In c nodes /\ In m (subnodes c) /\ nSpan m = p /\ Children m <> []) ->
            exists m, In m (subnodes (mkNode (nSpan root) (SortFunc nodes (byStart h1)))) /\
                      nSpan m = p /\ Children m <> []).
  { intros p (c & m & Hc & Hm & Hrest). exists m. split; [|done].
    apply subnodes_In. right. exists c. split; [|done].
    apply list_elem_of_In. rewrite Hperm. by apply list_elem_of_In. }
  destruct (Time_eqb _ _).
  2:{ injection Hrun as <- <-. split; [done|]. split; [done|]. intros p.
      destruct (Hk p) as (Ha & Hb & Hc & Hd). repeat split; [done..|].
      destruct Hd as [?|Hd]; [by left|right; by apply Hsub]. }
  destruct (SortFunc nodes (byStart h1)) as [|first rest] eqn:Es; [done|].
  destruct (MaxFunc _ _) as [last|]; [|done].
  injection Hrun as <- <-.
  split; [by rewrite !length_insert|]. split; [done|]. intros p.
  destruct (Hk p) as (Ha & Hb & Hc & Hd).
  destruct (decide (p = nSpan root)) as [->|Hne].
  - destruct (decide (nSpan root < length h1)%nat) as [Hlt|Hge].
    + rewrite (deref_insert (<[_ := _]> h1)) by (by rewrite length_insert).
      rewrite decide_True by done.
      cbn [Name SpanID ParentID set_EndTime].
      rewrite (deref_insert h1) by done. rewrite decide_True by done.
      cbn [Name SpanID ParentID set_StartTime].
      repeat split; [done..|].
      right. exists (mkNode (nSpan root) (first :: rest)).
      split; [apply subnodes_root|done].
    + rewrite !list_insert_ge by (rewrite ?length_insert; lia).
      repeat split; [done..|].
      destruct Hd as [?|Hd]; [by left|right; by apply Hsub].
  - rewrite !deref_insert_ne by done.
    repeat split; [done..|].
    destruct Hd as [?|Hd]; [by left|right; by apply Hsub].
Qed.

(** X7. part_000's [buildTree] leaves every span that was recorded with
    different start and end instants exactly as it was: the rule for
    zero-duration spans is its only write. *)
Theorem ordinary_spans_untouched {RT : Runtime} ch n : forall root (h : store) t h',
  Unnamed.buildTree n ch root h = Done (t, h') ->
  forall p, Time_eqb (StartTime (deref h p)) (EndTime (deref h p)) = false ->
    deref h' p = deref h p.
Proof.
  induction n as [|n IH]; intros root h t h' Hrun p Hp; [discriminate|].
  simpl in Hrun.
  destruct (ch !! SpanID (deref h (nSpan root))) as [ks|]; [|by injection Hrun as _ <-].
  assert (Hkids : forall ks (g : store) nodes g1,
            buildKids (Unnamed.buildTree n ch) ks g = Done (nodes, g1) ->
            Time_eqb (StartTime (deref g p)) (EndTime (deref g p)) = false ->
            deref g1 p = deref g p).
  { clear Hrun. induction ks0 as [|k ks0 IHk]; intros g nodes g1 Hk Hg; simpl in Hk.
    - by injection Hk as _ <-.
    - destruct (Unnamed.buildTree n ch (mkNode k []) g) as [[t1 g']| |] eqn:E; [|done..].
      destruct (buildKids (Unnamed.buildTree n ch) ks0 g') as [[ns g2]| |] eqn:E2; [|done..].
      injection Hk as _ <-. pose proof (IH _ _ _ _ E p Hg) as H1.
      rewrite <- H1. apply (IHk _ _ _ E2). by rewrite H1. }
  destruct (buildKids (Unnamed.buildTree n ch) ks h) as [[nodes h1]| |] eqn:E; [|done..].
  pose proof (Hkids _ _ _ _ E Hp) as H1.
  destruct (Time_eqb (StartTime (deref h1 (nSpan root))) _) eqn:Hroot;
    [|by injection Hrun as _ <-].
  destruct (SortFunc nodes (byStart h1)) as [|first rest]; [done|].
  destruct (MaxFunc _ _) as [last|]; [|done].
  injection Hrun as _ <-.
  assert (Hne : p <> nSpan root) by (intros ->; congruence).
  by rewrite !deref_insert_ne.
Qed.

Lemma Main_buildKids_store {RT : Runtime} ch n : forall ks (g : store) nodes g1,
  buildKids (Main.buildTree n ch) ks g = Done (nodes, g1) -> g1 = g.
Proof.
  induction ks as [|k ks IHk]; intros g nodes g1 Hk; simpl in Hk.
  - by injection Hk as _ <-.
  - destruct (Main.buildTree n ch (mkNode k []) g) as [[t1 g']| |] eqn:E; [|done..].
    destruct (buildKids (Main.buildTree n ch) ks g') as [[ns g2]| |] eqn:E2; [|done..].
    injection Hk as _ <-. apply Main_buildTree_store in E as [-> _]. by eapply IHk.
Qed.

(** X8. The zero-duration rule is the only difference between the two
    assemblers: on a store in which no span with a child list has equal
    start and end, part_000's [buildTree] and main.go's return the same
    tree and the same store, with the same fuel. *)
Theorem assemblers_agree {RT : Runtime} ch (h : store) :
  index_ok ch h = true ->
  (forall p, (p < length h)%nat -> is_Some (ch !! SpanID (deref h p)) ->
     Time_eqb (StartTime (deref h p)) (EndTime (deref h p)) = false) ->
  forall n root, (nSpan root < length h)%nat ->
    Unnamed.buildTree n ch root h = Main.buildTree n ch root h.
Proof.
  intros Hok Hord. induction n as [|n IH]; intros root Hroot; [done|]. simpl.
  destruct (ch !! SpanID (deref h (nSpan root))) as [ks|] eqn:Hks; [|done].
  destruct (index_ok_lookup _ _ _ _ Hok Hks) as [_ Hin].
  assert (Hkids : forall ks', (forall k, In k ks' -> (k < length h)%nat) ->
            buildKids (Unnamed.buildTree n ch) ks' h = buildKids (Main.buildTree n ch) ks' h).
  { induction ks' as [|k ks' IHk]; intros Hin'; [done|]. simpl.
    rewrite (IH (mkNode k [])) by (apply Hin'; by left).
    destruct (Main.buildTree n ch (mkNode k []) h) as [[t1 g]| |] eqn:E; [|done..].
    apply Main_buildTree_store in E as [-> _].
    rewrite IHk; [done|]. intros k' Hk'. apply Hin'. by right. }
  rewrite (Hkids ks Hin).
  destruct (buildKids (Main.buildTree n ch) ks h) as [[nodes h1]| |] eqn:E; [|done..].
  apply Main_buildKids_store in E as ->.
  rewrite Hord; [done..|]. by rewrite Hks.
Qed.

Lemma Main_buildTree_reads_only_witness :
  let d := decoded tied_children in
  exists t h', Main.buildTree (RT := stableRuntime) 3 (children d) (mkNode 0%nat []) (heap d)
               = Done (t, h') /\ h' = heap d /\ nSpan t = 0%nat.
Proof.
  eexists _, _. split; [vm_compute; reflexivity|].
  apply (Main_buildTree_reads_only (RT := stableRuntime)
           (children (decoded tied_children)) 3 (mkNode 0%nat []) (heap (decoded tied_children))).
  vm_compute. reflexivity.
Defined.

Lemma Unnamed_buildTree_frame_witness :
  let d := decoded point_parent in
  exists t h', Unnamed.buildTree (RT := stableRuntime) 2 (children d) (mkNode 0%nat []) (heap d)
               = Done (t, h') /\
    length h' = length (heap d) /\ nSpan t = 0%nat /\
    forall p,
      Name (deref h' p) = Name (deref (heap d) p) /\
      SpanID (deref h' p) = SpanID (deref (heap d) p) /\
      ParentID (deref h' p) = ParentID (deref (heap d) p) /\
      (deref h' p = deref (heap d) p \/
       exists m, In m (subnodes t) /\ nSpan m = p /\ Children m <> []).
Proof.
  eexists _, _. split; [vm_compute; reflexivity|].
  apply (Unnamed_buildTree_frame (RT := stableRuntime)
           (children (decoded point_parent)) 2 (mkNode 0%nat []) (heap (decoded point_parent))).
  vm_compute. reflexivity.
Defined.

Lemma ordinary_spans_untouched_witness :
  let d := decoded point_parent in
  exists t h', Unnamed.buildTree (RT := stableRuntime) 2 (children d) (mkNode 0%nat []) (heap d)
               = Done (t, h') /\
    deref h' 1%nat = deref (heap d) 1%nat.
Proof.
  eexists _, _. split; [vm_compute; reflexivity|].
  apply (ordinary_spans_untouched (RT := stableRuntime)
           (children (decoded point_parent)) 2 (mkNode 0%nat []) (heap (decoded point_parent))
           _ _ ltac:(vm_compute; reflexivity) 1%nat).
  vm_compute. reflexivity.
Defined.

Lemma assemblers_agree_witness :
  let d := decoded tied_children in
  Unnamed.buildTree (RT := stableRuntime) 3 (children d) (mkNode 0%nat []) (heap d)
  = Main.buildTree (RT := stableRuntime) 3 (children d) (mkNode 0%nat []) (heap d).
Proof.
  apply (assemblers_agree (RT := stableRuntime)).
  - vm_compute. reflexivity.
  - intros p Hp _. vm_compute in Hp.
    destruct p as [|[|[|p]]]; [vm_compute; reflexivity..|lia].
  - vm_compute. lia.
Defined.

(** ** Cycles of parent ids *)

Section Cycles.
Context {RT : Runtime}.
Variables (ch : gmap string (list ptr)) (h : store).

Lemma terminates_child n x y :
  terminates ch h n x = true -> child_id ch h x y ->
  exists m, (m < n)%nat /\ terminates ch h m y = true.
Proof.
  intros Ht (ks & k & Hks & Hk & Hy). destruct n as [|n]; [done|].
  simpl in Ht. rewrite Hks in Ht. exists n. split; [lia|].
  rewrite forallb_forall in Ht. rewrite <- Hy. by apply Ht.
Qed.

Lemma terminates_descendant x y :
  rtc (child_id ch h) x y ->
  forall n, terminates ch h n x = true -> exists m, (m <= n)%nat /\ terminates ch h m y = true.
Proof.
  induction 1 as [x|x y z Hxy _ IH]; intros n Ht; [by exists n|].
  destruct (terminates_child _ _ _ Ht Hxy) as (m & Hm & Hty).
  destruct (IH m Hty) as (m' & Hm' & Htz). exists m'. split; [lia|done].
Qed.

(** The recursion below an id on a cycle is not bounded. *)
Lemma cycle_unbounded x :
  tc (child_id ch h) x x -> forall n, terminates ch h n x = false.
Proof.
  intros Hc n. induction n as [n IH] using lt_wf_ind.
  destruct (terminates ch h n x) eqn:Ht; [|done]. exfalso.
  assert (Hstep : exists y, child_id ch h x y /\ rtc (child_id ch h) y x).
  { inversion Hc as [? ? Hxy|? y ? Hxy Hyx]; subst.
    - by exists x.
    - exists y. split; [done|]. by apply tc_rtc. }
  destruct Hstep as (y & Hxy & Hyx).
  destruct (terminates_child _ _ _ Ht Hxy) as (m & Hm & Hty).
  destruct (terminates_descendant _ _ Hyx m Hty) as (m' & Hm' & Htx).
  rewrite IH in Htx by lia. done.
Qed.

Lemma above_cycle_unbounded x y :
  rtc (child_id ch h) x y -> tc (child_id ch h) y y ->
  forall n, terminates ch h n x = false.
Proof.
  intros Hxy Hc n. destruct (terminates ch h n x) eqn:Ht; [|done].
  destruct (terminates_descendant _ _ Hxy n Ht) as (m & _ & Hm).
  by rewrite cycle_unbounded in Hm.
Qed.

End Cycles.

(** A returning run of main.go's [buildTree] had its recursion bounded
    by the fuel. *)
Lemma Main_buildTree_Done_terminates {RT : Runtime} ch (h : store) n :
  forall root t h',
    Main.buildTree n ch root h = Done (t, h') ->
    terminates ch h n (SpanID (deref h (nSpan root))) = true.
Proof.
  induction n as [|n IH]; intros root t h' Hrun; [discriminate|].
  simpl in Hrun |- *.
  destruct (ch !! SpanID (deref h (nSpan root))) as [ks|]; [|reflexivity].
  destruct (buildKids (Main.buildTree n ch) ks h) as [[nodes h1]| |] eqn:E; [|done..].
  clear Hrun. revert nodes h1 E.
  induction ks as [|k ks IHk]; intros nodes h1 E; [reflexivity|].
  simpl in E |- *.
  destruct (Main.buildTree n ch (mkNode k []) h) as [[t1 g]| |] eqn:E1; [|done..].
  destruct (buildKids (Main.buildTree n ch) ks g) as [[ns g2]| |] eqn:E2; [|done..].
  apply andb_true_iff. split.
  - by apply (IH _ _ _ E1).
  - apply Main_buildTree_store in E1 as [-> _]. by apply (IHk ns g2).
Qed.

(** X9. [buildTree] has no guard against cycles: when the id of the
    node leads, through child lists, to an id that is its own descendant,
    no amount of recursion makes either program's [buildTree] return. *)
Theorem cycle_never_returns {RT : Runtime} ch (h : store) (x : string) root n t h' :
  rtc (child_id ch h) (SpanID (deref h (nSpan root))) x ->
  tc (child_id ch h) x x ->
  Unnamed.buildTree n ch root h <> Done (t, h') /\
  Main.buildTree n ch root h <> Done (t, h').
Proof.
  intros Hreach Hcycle.
  pose proof (above_cycle_unbounded ch h _ _ Hreach Hcycle n) as Hno.
  split; intros Hrun.
  - apply (Unnamed_buildTree_Done_terminates ch h) in Hrun; [congruence|done].
  - apply Main_buildTree_Done_terminates in Hrun. congruence.
Qed.

Lemma cycle_never_returns_witness :
  let d := decoded cyclic_orphan in
  Unnamed.buildTree (RT := stableRuntime) 5 (children d) (mkNode 0%nat []) (heap d)
    <> Done (mkNode 0%nat [], heap d) /\
  Main.buildTree (RT := stableRuntime) 5 (children d) (mkNode 0%nat []) (heap d)
    <> Done (mkNode 0%nat [], heap d).
Proof.
  intros d.
  assert (Hstep : child_id (children d) (heap d) "a" "a").
  { exists [1%nat], 1%nat. vm_compute. repeat split. by left. }
  apply (cycle_never_returns (RT := stableRuntime) (children d) (heap d) "a").
  - vm_compute. apply rtc_refl.
  - by apply tc_once.
Defined.

(** ** Whole runs *)

Lemma Main_decode_decoded ss :
  Main.decode (map inl ss) (mkDecoded [] ∅ ∅) = inr (decoded (map inl ss)).
Proof.
  rewrite (Main_decode_Unnamed _ 0). destruct (decoded_spec ss) as (-> & _). done.
Qed.

(** The address of a record is in the child list of its parent id. *)
Lemma children_decoded_lookup ss k s :
  ss !! k = Some s ->
  exists ks, children (decoded (map inl ss)) !! ParentID s = Some ks /\ In k ks.
Proof.
  intros Hk. destruct (decoded_spec ss) as (_ & _ & Hch & _).
  assert (Hin : In k (positions (ParentID s) ss 0)).
  { apply positions_spec. exists s. rewrite Nat.sub_0_r. split; [done|]. split; [lia|done]. }
  rewrite Hch. destruct (positions (ParentID s) ss 0) as [|k0 ks]; [done|]. by eexists.
Qed.

(** A link between ids in the stream is a link in the index, also once
    synthetic spans have been added to the store. *)
Lemma names_parent_child_id ss extra x y :
  names_parent ss x y -> child_id (children (decoded (map inl ss))) (ss ++ extra) x y.
Proof.
  intros (s & Hs & <- & <-).
  apply list_elem_of_In, list_elem_of_lookup in Hs as [k Hk].
  destruct (children_decoded_lookup _ _ _ Hk) as (ks & Hks & Hin).
  exists ks, k. split; [done|]. split; [done|].
  unfold deref. by rewrite lookup_app_l, Hk by (by eapply lookup_lt_Some).
Qed.

Lemma tc_subrel {A : Type} (R1 R2 : relation A) x y :
  (forall a b, R1 a b -> R2 a b) -> tc R1 x y -> tc R2 x y.
Proof.
  intros Hsub. induction 1 as [x y Hxy|x y z Hxy _ IH].
  - by apply tc_once, Hsub.
  - eapply tc_l; [by apply Hsub|done].
Qed.

(** X10. A cycle of parent ids that the sentinel leads to makes part_000
    recurse without end: the run neither returns nor panics, however deep
    the recursion is allowed to go.  A span whose id and parent id are both
    the sentinel is the shortest such input. *)
Theorem Unnamed_mainE_cycle_diverges {RT : Runtime} (ss : list Span) (x : string) (fuel : nat) :
  rtc (names_parent ss) rootID x -> tc (names_parent ss) x x ->
  Unnamed.mainE fuel (map inl ss) = OutOfFuel.
Proof.
  intros Hreach Hcycle.
  destruct (decoded_spec ss) as (Hdec & Hheap & _ & _).
  assert (Hroot : exists y, names_parent ss rootID y).
  { apply rtc_inv in Hreach as [<-|(y & Hy & _)]; [|by exists y].
    inversion Hcycle; subst; by eexists. }
  destruct Hroot as (y & s & Hs & Hp & _).
  apply list_elem_of_In, list_elem_of_lookup in Hs as [k Hk].
  destruct (children_decoded_lookup _ _ _ Hk) as (ks & Hks & _). rewrite Hp in Hks.
  remember (decoded (map inl ss)) as d eqn:Ed.
  unfold Unnamed.mainE. rewrite Hdec, Hks, Hheap. cbn [default].
  set (rootSpan := mkSpan "root" rootID EmptyString zeroTime zeroTime).
  destruct (Unnamed.buildTree fuel (children d) _ (ss ++ [rootSpan])) as [[t h1]| |] eqn:E.
  - exfalso.
    apply (Unnamed_buildTree_Done_terminates _ (ss ++ [rootSpan])) in E; [|done].
    cbn [nSpan] in E. rewrite deref_app_new in E. cbn [SpanID rootSpan] in E.
    rewrite (above_cycle_unbounded _ _ rootID x) in E; [done| |].
    + eapply rtc_subrel; [|exact Hreach]. intros a b. subst d. apply names_parent_child_id.
    + eapply tc_subrel; [|exact Hcycle]. intros a b. subst d. apply names_parent_child_id.
  - exfalso. revert E. apply Unnamed_buildTree_no_panic.
    eapply decode_lists_nonempty; [|exact Hdec].
    intros x0 ks0 Hx. cbn [children] in Hx. by rewrite lookup_empty in Hx.
  - done.
Qed.

Lemma Unnamed_mainE_cycle_diverges_witness :
  Unnamed.mainE (RT := stableRuntime) 7
    (map inl [mkSpan "loop" rootID rootID (mkTime 0 0) (mkTime 5 0)]) = OutOfFuel.
Proof.
  assert (Hstep : names_parent [mkSpan "loop" rootID rootID (mkTime 0 0) (mkTime 5 0)]
                    rootID rootID).
  { eexists. split; [by left|]. by split. }
  apply (Unnamed_mainE_cycle_diverges (RT := stableRuntime) _ rootID).
  - apply rtc_refl.
  - by apply tc_once.
Defined.

(** X11. main.go on a stream without a root span (the empty stream
    included): the run returns the error "no root" and writes and logs
    nothing. *)
Theorem Main_mainE_no_root {RT : Runtime} (ss : list Span) (fuel : nat) :
  (forall s, In s ss -> ParentID s <> rootID) ->
  Main.mainE fuel (map inl ss) = Done (mkRun EmptyString [] (Some Errorf_no_root)).
Proof.
  intros Hno. unfold Main.mainE. rewrite Main_decode_decoded.
  by rewrite (children_decoded_None ss rootID Hno).
Qed.

Lemma Main_mainE_no_root_witness :
  Main.mainE (RT := stableRuntime) 3 (map inl [mkSpan "child" "b" "zzz" (mkTime 10 0) (mkTime 40 0)])
  = Done (mkRun EmptyString [] (Some Errorf_no_root)).
Proof.
  apply (Main_mainE_no_root (RT := stableRuntime)).
  intros s [<-|[]]. vm_compute. discriminate.
Defined.

(** X12. main.go on a stream with two or more root spans panics, before
    anything is written. *)
Theorem Main_mainE_many_roots {RT : Runtime} (ss : list Span) (fuel : nat) i j s1 s2 :
  ss !! i = Some s1 -> ss !! j = Some s2 -> i <> j ->
  ParentID s1 = rootID -> ParentID s2 = rootID ->
  Main.mainE fuel (map inl ss) = Panic.
Proof.
  intros Hi Hj Hne H1 H2. unfold Main.mainE. rewrite Main_decode_decoded.
  destruct (children_decoded_lookup _ _ _ Hi) as (ks & Hks & Hin1).
  destruct (children_decoded_lookup _ _ _ Hj) as (ks' & Hks' & Hin2).
  rewrite H1 in Hks. rewrite H2, Hks in Hks'. injection Hks' as <-.
  rewrite Hks. destruct ks as [|a [|b ks]]; [done| |done].
  destruct Hin1 as [<-|[]], Hin2 as [<-|[]]. done.
Qed.

Lemma Main_mainE_many_roots_witness :
  Main.mainE (RT := stableRuntime) 3
    (map inl [mkSpan "one" "a" rootID (mkTime 0 0) (mkTime 5 0);
              mkSpan "two" "b" rootID (mkTime 1 0) (mkTime 6 0)]) = Panic.
Proof.
  apply (Main_mainE_many_roots (RT := stableRuntime) _ 3 0%nat 1%nat
           (mkSpan "one" "a" rootID (mkTime 0 0) (mkTime 5 0))
           (mkSpan "two" "b" rootID (mkTime 1 0) (mkTime 6 0)));
    [reflexivity|reflexivity|lia|reflexivity|reflexivity].
Defined.

(** When a single record names the sentinel as its parent, the root list
    is that record alone. *)
Lemma children_index_roots ss k s0 :
  ss !! k = Some s0 -> ParentID s0 = rootID ->
  (forall j s, ss !! j = Some s -> ParentID s = rootID -> j = k) ->
  children (decoded (map inl ss)) !! rootID = Some [k].
Proof.
  intros Hk Hp Huniq. destruct (decoded_spec ss) as (_ & _ & Hch & _). rewrite Hch.
  assert (Hin : forall j, In j (positions rootID ss 0) <-> j = k).
  { intros j. rewrite positions_spec. split.
    - intros (s & Hs & _ & Hps). rewrite Nat.sub_0_r in Hs. by eapply Huniq.
    - intros ->. exists s0. rewrite Nat.sub_0_r. split; [done|]. split; [lia|done]. }
  destruct (positions_ascending rootID ss 0) as [_ Hsorted].
  destruct (positions rootID ss 0) as [|a [|b l]].
  - exfalso. by apply (proj2 (Hin k)).
  - f_equal. f_equal. apply Hin. by left.
  - exfalso. apply StronglySorted_inv in Hsorted as [_ Hlt].
    apply Forall_inv in Hlt.
    assert (a = k) by (apply Hin; by left).
    assert (b = k) by (apply Hin; right; by left). lia.
Qed.

(** X13. main.go on a stream with exactly one root span and no cycle of
    parent ids: the run returns no error, logs nothing and writes one
    document, the header, the tree of that root span and the footer.  The
    spans are rendered as recorded, and in every node the children are the
    spans of the child list of its id in ascending order of start. *)
Theorem Main_mainE_one_root {RT : Runtime} (ss : list Span) (rank : string -> nat) k s0 :
  (forall s, In s ss -> (rank (SpanID s) < rank (ParentID s))%nat) ->
  ss !! k = Some s0 -> ParentID s0 = rootID ->
  (forall j s, ss !! j = Some s -> ParentID s = rootID -> j = k) ->
  exists fuel t,
    Main.mainE fuel (map inl ss)
    = Done (mkRun (header +:+ Main.writeSpan ss None t +:+ footer) [] None) /\
    nSpan t = k /\
    forall m, In m (subnodes t) ->
      sorted_by_start ss (Children m) /\
      children_of_index (children (decoded (map inl ss))) ss m.
Proof.
  intros Hrank Hk Hp Huniq.
  destruct (decoded_spec ss) as (_ & Hheap & _ & _).
  pose proof (children_index_roots ss k s0 Hk Hp Huniq) as Hroot.
  remember (decoded (map inl ss)) as d eqn:Ed.
  assert (Hterm : terminates (children d) ss (S (rank (SpanID s0))) (idOf ss k) = true).
  { apply (rank_terminates _ _ rank).
    - subst d. by apply rank_decoded.
    - unfold idOf, deref. rewrite Hk. simpl. lia. }
  destruct (Main_buildTree_sorted (children d) _ ss k Hterm) as (t & Hrun & Ht & Hall).
  exists (S (rank (SpanID s0))), t.
  unfold Main.mainE. rewrite Main_decode_decoded, <- Ed, Hroot, Hheap, Hrun. done.
Qed.

Lemma Main_mainE_one_root_witness :
  let ss := [mkSpan "root-op" "a" rootID (mkTime 0 0) (mkTime 100 0);
             mkSpan "child-op" "b" "a" (mkTime 10 0) (mkTime 40 0)] in
  exists fuel t,
    Main.mainE (RT := stableRuntime) fuel (map inl ss)
    = Done (mkRun (header +:+ Main.writeSpan ss None t +:+ footer) [] None) /\
    nSpan t = 0%nat /\
    forall m, In m (subnodes t) ->
      sorted_by_start ss (Children m) /\
      children_of_index (children (decoded (map inl ss))) ss m.
Proof.
  apply (Main_mainE_one_root (RT := stableRuntime) _ sample_rank 0%nat
           (mkSpan "root-op" "a" rootID (mkTime 0 0) (mkTime 100 0))).
  - intros s [<-|[<-|[]]]; vm_compute; lia.
  - reflexivity.
  - reflexivity.
  - intros [|[|j]] s Hs Hp; [reflexivity| |discriminate Hs].
    injection Hs as <-. discriminate Hp.
Defined.





(** X15. The log of a run of part_000 that returns: one "missing" line
    for each parent id that some record names and no record carries, no
    line twice, and "no root" exactly when no record names the sentinel as
    its parent.  The sentinel itself is reported missing whenever there is
    a root span and no span has the sentinel as its id. *)
Theorem Unnamed_log_exact {RT : Runtime} (ss : list Span) (fuel : nat) (r : Run) :
  Unnamed.mainE fuel (map inl ss) = Done r ->
  NoDup (logged r) /\
  (forall x, In (LogMissing x) (logged r) <->
     (exists s, In s ss /\ ParentID s = x) /\ forall s, In s ss -> SpanID s <> x) /\
  (In LogNoRoot (logged r) <-> forall s, In s ss -> ParentID s <> rootID).
Proof.
  intros Hrun.
  destruct (decoded_spec ss) as (Hdec & _ & _ & _).
  pose proof (missingOf_spec ss) as Hmiss.
  pose proof (children_decoded_None ss rootID) as HNone.
  pose proof (fun s => children_decoded_Some ss s) as HSome.
  remember (decoded (map inl ss)) as d eqn:Ed.
  set (log1 := map LogMissing (map_range 0 (elements (Unnamed.missingOf d)))).
  assert (Hnd : NoDup log1).
  { apply NoDup_fmap_2; [by intros ? ? [= ->]|].
    rewrite map_range_Permutation. apply NoDup_elements. }
  assert (Hin : forall x, In (LogMissing x) log1 <-> x ∈ Unnamed.missingOf d).
  { intros x. unfold log1. rewrite in_map_iff. split.
    - intros (y & [= ->] & Hy). apply list_elem_of_In in Hy.
      rewrite map_range_Permutation in Hy. by apply elem_of_elements.
    - intros Hx. exists x. split; [done|]. apply list_elem_of_In.
      rewrite map_range_Permutation. by apply elem_of_elements. }
  assert (Hnr : ~ In LogNoRoot log1).
  { intros H. apply in_map_iff in H as (y & Hy & _). discriminate. }
  assert (Hroot : children d !! rootID = None <-> forall s, In s ss -> ParentID s <> rootID).
  { split; [|done]. intros Hn s Hs Hp. destruct (HSome s Hs) as [ks Hks]. congruence. }
  unfold Unnamed.mainE in Hrun. rewrite Hdec in Hrun. fold log1 in Hrun.
  destruct (children d !! rootID) as [ks|] eqn:Hks.
  - destruct (Unnamed.buildTree fuel _ _ _) as [[t h1]| |]; [|done..].
    injection Hrun as <-. cbn [logged].
    split; [done|]. split; [intros x; by rewrite Hin, Hmiss|].
    split; [done|]. intros Hall. by apply Hroot in Hall.
  - destruct (Unnamed.renderMissing fuel _ _ _ _) as [[h w]| |]; [|done..].
    destruct (Unnamed.buildTree fuel _ _ _) as [[t h1]| |]; [|done..].
    injection Hrun as <-. cbn [logged].
    split.
    { apply NoDup_app. split; [done|]. split; [|apply NoDup_singleton].
      intros e He ->%list_elem_of_singleton. by apply Hnr, list_elem_of_In. }
    split.
    + intros x. rewrite in_app_iff, Hin, Hmiss. split; [|by left].
      intros [?|[?|[]]]; done.
    + split; [intros _; by apply Hroot|]. intros _. apply in_app_iff. right. by left.
Qed.

Lemma Unnamed_log_exact_witness :
  let ss := [mkSpan "child" "b" "zzz" (mkTime 10 0) (mkTime 40 0)] in
  exists r, Unnamed.mainE (RT := stableRuntime) 4 (map inl ss) = Done r /\
    NoDup (logged r) /\
    (forall x, In (LogMissing x) (logged r) <->
       (exists s, In s ss /\ ParentID s = x) /\ forall s, In s ss -> SpanID s <> x) /\
    (In LogNoRoot (logged r) <-> forall s, In s ss -> ParentID s <> rootID).
Proof.
  eexists. split; [vm_compute; reflexivity|].
  apply (Unnamed_log_exact (RT := stableRuntime)
           [mkSpan "child" "b" "zzz" (mkTime 10 0) (mkTime 40 0)] 4).
  vm_compute. reflexivity.
Defined.

(** ** The text [writeSpan] writes *)

Lemma occurs_in_refl s : occurs_in s s.
Proof.
  exists EmptyString, EmptyString. induction s as [|a s IH]; [done|].
  change (String a s = String a (s +:+ EmptyString)). by rewrite <- IH at 1.
Qed.

Lemma occurs_in_app_l s w pre : occurs_in s w -> occurs_in s (pre +:+ w).
Proof.
  intros (a & b & ->). exists (pre +:+ a), b. by rewrite append_assoc.
Qed.

Lemma occurs_in_trans s t u : occurs_in s t -> occurs_in t u -> occurs_in s u.
Proof.
  intros (a & b & ->) (a' & b' & ->). exists (a' +:+ a), (b +:+ b').
  by rewrite !append_assoc.
Qed.

(** The loop over the children writes each child. *)
Lemma each_child_occurs (f : Node -> string) cs c :
  In c cs ->
  occurs_in (f c)
    ((fix each (cs : list Node) : string :=
        match cs with
        | [] => EmptyString
        | child :: cs' => f child +:+ each cs'
        end) cs).
Proof.
  induction cs as [|c0 cs IH]; intros Hin; [done|].
  destruct Hin as [->|Hin].
  - apply occurs_in_app_r, occurs_in_refl.
  - by apply occurs_in_app_l, IH.
Qed.

Lemma Unnamed_child_occurs (h : store) parent q cs c :
  In c cs ->
  occurs_in (Unnamed.writeSpan h (Some (mkNode q cs)) c)
            (Unnamed.writeSpan h parent (mkNode q cs)).
Proof.
  intros Hin. destruct cs as [|c0 cs]; [done|].
  cbn [Unnamed.writeSpan].
  apply occurs_in_app_l, occurs_in_app_r, occurs_in_app_l, occurs_in_app_r.
  destruct Hin as [->|Hin]; [apply occurs_in_app_r, occurs_in_refl|].
  by apply occurs_in_app_l, (each_child_occurs (Unnamed.writeSpan h (Some (mkNode q (c0 :: cs))))).
Qed.

Lemma Main_child_occurs (h : store) parent q cs c :
  In c cs ->
  occurs_in (Main.writeSpan h (Some (mkNode q cs)) c)
            (Main.writeSpan h parent (mkNode q cs)).
Proof.
  intros Hin. destruct cs as [|c0 cs]; [done|].
  cbn [Main.writeSpan].
  apply occurs_in_app_l, occurs_in_app_r, occurs_in_app_l, occurs_in_app_l, occurs_in_app_l,
        occurs_in_app_r.
  destruct Hin as [->|Hin]; [apply occurs_in_app_r, occurs_in_refl|].
  by apply occurs_in_app_l, (each_child_occurs (Main.writeSpan h (Some (mkNode q (c0 :: cs))))).
Qed.

(** X16. Every node of a tree is written, nested as the tree is: the
    text [writeSpan] writes for the root contains, for each node below it,
    the text [writeSpan] writes for that node under its own parent node.
    This holds for both programs. *)
Theorem writeSpan_nested (h : store) : forall t parent m,
  In m (subnodes t) ->
  exists par,
    (par = parent /\ m = t \/
     exists p, par = Some p /\ In p (subnodes t) /\ In m (Children p)) /\
    occurs_in (Unnamed.writeSpan h par m) (Unnamed.writeSpan h parent t) /\
    occurs_in (Main.writeSpan h par m) (Main.writeSpan h parent t).
Proof.
  induction t as [q cs IH] using Node_ind_nested. intros parent m Hm.
  apply subnodes_In in Hm as [->|(c & Hc & Hm)].
  - exists parent. split; [by left|]. split; apply occurs_in_refl.
  - rewrite List.Forall_forall in IH.
    destruct (IH c Hc (Some (mkNode q cs)) m Hm) as (par & Hpar & HU & HM).
    exists par. split.
    + right. destruct Hpar as [[-> ->]|(p & -> & Hp & Hin)].
      * exists (mkNode q cs). split; [done|]. split; [apply subnodes_root|done].
      * exists p. split; [done|]. split; [|done].
        apply subnodes_In. right. by exists c.
    + split.
      * eapply occurs_in_trans; [exact HU|]. by apply Unnamed_child_occurs.
      * eapply occurs_in_trans; [exact HM|]. by apply Main_child_occurs.
Qed.

Lemma each_ext (f g : Node -> string) (l : list Node) :
  (forall x, In x l -> f x = g x) ->
  (fix each (cs : list Node) : string :=
     match cs with
     | [] => EmptyString
     | child :: cs' => f child +:+ each cs'
     end) l =
  (fix each (cs : list Node) : string :=
     match cs with
     | [] => EmptyString
     | child :: cs' => g child +:+ each cs'
     end) l.
Proof.
  induction l as [|c l IHl]; intros Hl; [done|].
  rewrite (Hl c) by (by left). f_equal. apply IHl. intros x Hx. apply Hl. by right.
Qed.

Lemma writeSpan_below_parent (h : store) : forall t p,
  Unnamed.writeSpan h (Some p) t = Main.writeSpan h (Some p) t.
Proof.
  induction t as [q cs IH] using Node_ind_nested. intros p.
  destruct cs as [|c0 cs]; [reflexivity|].
  rewrite List.Forall_forall in IH.
  cbn [Unnamed.writeSpan Main.writeSpan].
  rewrite (IH c0) by (by left).
  rewrite (each_ext (Unnamed.writeSpan h (Some (mkNode q (c0 :: cs))))
                    (Main.writeSpan h (Some (mkNode q (c0 :: cs)))) cs)
    by (intros x Hx; apply IH; by right).
  rewrite !append_assoc. reflexivity.
Qed.

(** X17. The two [writeSpan]s differ in one place only: for a top-level
    node with children part_000 writes [<details open>] where main.go
    writes [<details>]; everything else, and every node below a parent, is
    written alike. *)
Theorem writeSpan_variants (h : store) : forall t parent,
  match parent, Children t with
  | None, _ :: _ =>
      exists rest,
        Unnamed.writeSpan h None t = "<div><details open>" +:+ rest /\
        Main.writeSpan h None t = "<div><details>" +:+ rest
  | _, _ => Unnamed.writeSpan h parent t = Main.writeSpan h parent t
  end.
Proof.
  intros [q [|c0 cs]] [p|]; cbn [Children];
    [apply writeSpan_below_parent|reflexivity|apply writeSpan_below_parent|].
  exists ("<summary>" +:+ label h (mkNode q (c0 :: cs)) +:+ "</summary>" +:+
          (fix each (l : list Node) : string :=
             match l with
             | [] => EmptyString
             | child :: l' => Main.writeSpan h (Some (mkNode q (c0 :: cs))) child +:+ each l'
             end) (c0 :: cs) +:+
          "</details>" +:+ "</div>" +:+ nl).
  split.
  - cbn [Unnamed.writeSpan openDiv].
    rewrite writeSpan_below_parent.
    rewrite (each_ext (Unnamed.writeSpan h (Some (mkNode q (c0 :: cs))))
                      (Main.writeSpan h (Some (mkNode q (c0 :: cs)))) cs)
      by (intros x Hx; apply writeSpan_below_parent).
    rewrite !append_assoc. reflexivity.
  - cbn [Main.writeSpan openDiv]. rewrite !append_assoc. reflexivity.
Qed.

Lemma writeSpan_nested_witness :
  let h := [mkSpan "root-op" "a" rootID (mkTime 0 0) (mkTime 100 0);
            mkSpan "child-op" "b" "a" (mkTime 10 0) (mkTime 40 0)] in
  let t := mkNode 0%nat [mkNode 1%nat []] in
  let m := mkNode 1%nat [] in
  exists par,
    (par = None /\ m = t \/
     exists p, par = Some p /\ In p (subnodes t) /\ In m (Children p)) /\
    occurs_in (Unnamed.writeSpan h par m) (Unnamed.writeSpan h None t) /\
    occurs_in (Main.writeSpan h par m) (Main.writeSpan h None t).
Proof.
  apply (writeSpan_nested _ (mkNode 0%nat [mkNode 1%nat []]) None (mkNode 1%nat [])).
  simpl. right. left. reflexivity.
Defined.

(** ** Margins at the edges and outside the parent *)

(** The percentage of an offset of zero is a zero with the sign of the
    parent's duration. *)
Lemma pct_zero_sign t :
  t <> 0 -> Z.abs t <= 2 ^ 64 -> pct 0 t = S754_zero (t <? 0).
Proof.
  intros Ht Hta. unfold pct.
  destruct (float64_of_int_spec t Ht Hta) as (mt & et & -> & _).
  rewrite f100_normal. reflexivity.
Qed.

(** The percentage of an offset inside a parent of positive duration lies
    between 0 and 100, up to the rounding; the one of a negative offset is
    negative. *)
Lemma pct_bounds l t :
  0 < t -> Z.abs l <= 2 ^ 64 -> Z.abs t <= 2 ^ 64 ->
  (0 <= l <= t -> (0 <= F2Q (pct l t) <= 100 * (1 + 5 * u53))%Q) /\
  (l < 0 -> (F2Q (pct l t) < 0)%Q).
Proof.
  intros Ht Hla Hta.
  pose proof (pct_error l t ltac:(lia) Hla Hta) as He.
  assert (HT : (inject_Z 0 < inject_Z t)%Q) by (by rewrite <- Zlt_Qlt).
  change (inject_Z 0) with 0%Q in HT.
  set (X := (100 * inject_Z l / inject_Z t)%Q) in *.
  split.
  - intros [Hl0 Hlt].
    assert (HL : (inject_Z 0 <= inject_Z l)%Q) by (by rewrite <- Zle_Qle).
    change (inject_Z 0) with 0%Q in HL.
    assert (HLT : (inject_Z l <= inject_Z t)%Q) by (by rewrite <- Zle_Qle).
    assert (HX0 : (0 <= X)%Q).
    { unfold X. apply Qle_shift_div_l; [done|]. lra. }
    assert (HX1 : (X <= 100)%Q).
    { unfold X. apply Qle_shift_div_r; [done|]. lra. }
    rewrite (Qabs_pos X) in He by done.
    apply Qabs_Qle_condition in He. unfold u53 in *. split; lra.
  - intros Hl.
    assert (HL : (inject_Z l < inject_Z 0)%Q) by (by rewrite <- Zlt_Qlt).
    change (inject_Z 0) with 0%Q in HL.
    assert (HX0 : (X < 0)%Q).
    { unfold X. apply Qlt_shift_div_r; [done|]. lra. }
    rewrite (Qabs_neg X) in He by lra.
    apply Qabs_Qle_condition in He. unfold u53 in *. lra.
Qed.

(** X18. A node that starts at the instant its parent starts gets a left
    margin of zero, and one that ends at the instant its parent ends a
    right margin of zero: the text is "0.000000", or "-0.000000" when the
    parent ends before it starts. *)
Theorem flush_margins (h : store) parent node :
  let p := deref h (nSpan parent) in
  let s := deref h (nSpan node) in
  let t := ns (EndTime p) - ns (StartTime p) in
  let zero := if t <? 0 then "-0.000000"%string else "0.000000"%string in
  t <> 0 -> in_range t ->
  (ns (StartTime s) = ns (StartTime p) -> fmt_f (snd (margins h parent node)) = zero) /\
  (ns (EndTime s) = ns (EndTime p) -> fmt_f (fst (margins h parent node)) = zero).
Proof.
  intros p s t zero Ht Hr. rewrite margins_pct. fold p s. cbn [fst snd].
  rewrite (Time_Sub_exact (EndTime p) (StartTime p)) by done. fold t.
  pose proof (in_range_abs t Hr) as Ha.
  split; intros Heq.
  - rewrite Time_Sub_same by done. rewrite pct_zero_sign by done.
    unfold zero. by destruct (t <? 0).
  - rewrite Time_Sub_same by done. rewrite pct_zero_sign by done.
    unfold zero. by destruct (t <? 0).
Qed.

Lemma flush_margins_witness :
  let h := [mkSpan "root-op" "a" rootID (mkTime 0 0) (mkTime 100 0);
            mkSpan "child-op" "b" "a" (mkTime 0 0) (mkTime 100 0)] in
  let parent := mkNode 0%nat [mkNode 1%nat []] in
  let node := mkNode 1%nat [] in
  (0 = 0 -> fmt_f (snd (margins h parent node)) = "0.000000"%string) /\
  (100 = 100 -> fmt_f (fst (margins h parent node)) = "0.000000"%string).
Proof.
  apply (flush_margins
           [mkSpan "root-op" "a" rootID (mkTime 0 0) (mkTime 100 0);
            mkSpan "child-op" "b" "a" (mkTime 0 0) (mkTime 100 0)]
           (mkNode 0%nat [mkNode 1%nat []]) (mkNode 1%nat [])).
  - vm_compute. discriminate.
  - vm_compute. split; discriminate.
Defined.

(** X19. Under a parent of positive duration, a node that lies inside
    its parent gets margins between 0 and 100 percent (100 up to five
    roundings), and a node that starts before its parent, or ends after
    it, gets a negative margin on that side. *)
Theorem margins_sign_and_range (h : store) parent node :
  let p := deref h (nSpan parent) in
  let s := deref h (nSpan node) in
  let t := ns (EndTime p) - ns (StartTime p) in
  let l := ns (StartTime s) - ns (StartTime p) in
  let r := ns (EndTime p) - ns (EndTime s) in
  let R := fst (margins h parent node) in
  let L := snd (margins h parent node) in
  0 < t -> in_range t -> in_range l -> in_range r ->
  (0 <= l <= t -> (0 <= F2Q L <= 100 * (1 + 5 * u53))%Q) /\
  (l < 0 -> (F2Q L < 0)%Q) /\
  (0 <= r <= t -> (0 <= F2Q R <= 100 * (1 + 5 * u53))%Q) /\
  (r < 0 -> (F2Q R < 0)%Q).
Proof.
  intros p s t l r R L Ht Hrt Hrl Hrr. unfold R, L. rewrite margins_pct.
  fold p s. cbn [fst snd].
  rewrite (Time_Sub_exact (EndTime p) (StartTime p)) by done.
  rewrite (Time_Sub_exact (StartTime s) (StartTime p)) by done.
  rewrite (Time_Sub_exact (EndTime p) (EndTime s)) by done.
  fold t l r.
  destruct (pct_bounds l t Ht (in_range_abs l Hrl) (in_range_abs t Hrt)) as [H1 H2].
  destruct (pct_bounds r t Ht (in_range_abs r Hrr) (in_range_abs t Hrt)) as [H3 H4].
  done.
Qed.

Lemma margins_sign_and_range_witness :
  let h := [mkSpan "root-op" "a" rootID (mkTime 0 0) (mkTime 100 0);
            mkSpan "early" "b" "a" (mkTime (-10) 0) (mkTime 40 0)] in
  let parent := mkNode 0%nat [mkNode 1%nat []] in
  let node := mkNode 1%nat [] in
  let R := fst (margins h parent node) in
  let L := snd (margins h parent node) in
  (0 <= -10 <= 100 -> (0 <= F2Q L <= 100 * (1 + 5 * u53))%Q) /\
  (-10 < 0 -> (F2Q L < 0)%Q) /\
  (0 <= 60 <= 100 -> (0 <= F2Q R <= 100 * (1 + 5 * u53))%Q) /\
  (60 < 0 -> (F2Q R < 0)%Q).
Proof.
  apply (margins_sign_and_range
           [mkSpan "root-op" "a" rootID (mkTime 0 0) (mkTime 100 0);
            mkSpan "early" "b" "a" (mkTime (-10) 0) (mkTime 40 0)]
           (mkNode 0%nat [mkNode 1%nat []]) (mkNode 1%nat [])).
  - vm_compute. reflexivity.
  - vm_compute. split; discriminate.
  - vm_compute. split; discriminate.
  - vm_compute. split; discriminate.
Defined.

(** ** The exit status *)

(** The decoding loop fails exactly on the streams that hold a record
    that does not parse. *)
Lemma decode_fails_iff input : forall i d0,
  match Unnamed.decode input i d0 with
  | inl _ => exists err, In (inr err) input
  | inr _ => forall err, ~ In (inr err) input
  end.
Proof.
  induction input as [|[s|e] input IH]; intros i d0; simpl.
  - intros err [].
  - specialize (IH (i + 1)
      (mkDecoded (heap d0 ++ [s]) (<[SpanID s := length (heap d0)]> (spans d0))
         (<[ParentID s := match children d0 !! ParentID s with
                          | Some kids => kids
                          | None => []
                          end ++ [length (heap d0)]]> (children d0)))).
    destruct (Unnamed.decode input _ _).
    + destruct IH as [err Herr]. exists err. by right.
    + intros err [Habs|Hin]; [done|]. by apply (IH err).
  - exists e. by left.
Qed.

(** A stream in which every record parses is a list of spans. *)
Lemma stream_of_spans (input : stream) :
  (forall err, ~ In (inr err) input) ->
  exists ss, input = map inl ss /\ forall s, In s ss <-> In (inl s) input.
Proof.
  induction input as [|[s|e] input IH]; intros Hno.
  - by exists [].
  - destruct IH as (ss & -> & Hss).
    { intros err Hin. apply (Hno err). by right. }
    exists (s :: ss). split; [done|]. intros s'. simpl. rewrite Hss. split.
    + intros [->|?]; [by left|by right].
    + intros [[= ->]|?]; [by left|by right].
  - exfalso. apply (Hno e). by left.
Qed.

(** X20. The process of part_000 ends with status 1 exactly when some
    record of the input does not parse, and then nothing has been written
    to the output; otherwise, when the run returns, the status is 0.  A
    missing root or missing parents never make the run fail. *)
Theorem Unnamed_main_status {RT : Runtime} (fuel : nat) (input : stream) (r : Run) (c : Z) :
  main Unnamed.mainE fuel input = Done (r, c) ->
  (c = 0 \/ c = 1) /\
  (c = 1 <-> exists err, In (inr err) input) /\
  (c = 1 -> written r = EmptyString /\ logged r = []).
Proof.
  unfold main, Unnamed.mainE. intros Hrun.
  pose proof (decode_fails_iff input 0 (mkDecoded [] ∅ ∅)) as Hdec.
  destruct (Unnamed.decode input 0 (mkDecoded [] ∅ ∅)) as [e|d].
  - cbn [ret] in Hrun. injection Hrun as <- <-. cbn [written logged].
    split; [by right|]. split; [|done]. by split.
  - assert (Hc : c = 0).
    { destruct (children d !! rootID).
      - destruct (Unnamed.buildTree fuel _ _ _) as [[t h1]| |]; [|done..].
        cbn [ret] in Hrun. by injection Hrun as _ <-.
      - destruct (Unnamed.renderMissing fuel _ _ _ _) as [[h w]| |]; [|done..].
        destruct (Unnamed.buildTree fuel _ _ _) as [[t h1]| |]; [|done..].
        cbn [ret] in Hrun. by injection Hrun as _ <-. }
    subst c. split; [by left|]. split; [|done].
    split; [done|]. intros [err Herr]. by apply Hdec in Herr.
Qed.

Lemma Unnamed_main_status_witness :
  exists r c, main (Unnamed.mainE (RT := stableRuntime)) 4 third_malformed = Done (r, c) /\
    (c = 0 \/ c = 1) /\
    (c = 1 <-> exists err, In (inr err) third_malformed) /\
    (c = 1 -> written r = EmptyString /\ logged r = []).
Proof.
  eexists _, _. split; [vm_compute; reflexivity|].
  apply (Unnamed_main_status (RT := stableRuntime) 4 third_malformed).
  vm_compute. reflexivity.
Defined.

Lemma Main_decode_fails_iff input d0 :
  match Main.decode input d0 with
  | inl _ => exists err, In (inr err) input
  | inr _ => forall err, ~ In (inr err) input
  end.
Proof.
  rewrite (Main_decode_Unnamed input 0 d0).
  pose proof (decode_fails_iff input 0 d0) as H.
  destruct (Unnamed.decode input 0 d0) as [[]|]; done.
Qed.

(** X21. The process of main.go ends with status 1 exactly when some
    record of the input does not parse or no record names the sentinel as
    its parent, and then nothing has been written to the output;
    otherwise, when the run returns, the status is 0. *)
Theorem Main_main_status {RT : Runtime} (fuel : nat) (input : stream) (r : Run) (c : Z) :
  main Main.mainE fuel input = Done (r, c) ->
  (c = 0 \/ c = 1) /\
  (c = 1 <-> (exists err, In (inr err) input) \/
             forall s, In (inl s) input -> ParentID s <> rootID) /\
  (c = 1 -> written r = EmptyString /\ logged r = []).
Proof.
  unfold main, Main.mainE. intros Hrun.
  pose proof (Main_decode_fails_iff input (mkDecoded [] ∅ ∅)) as Hdec.
  destruct (Main.decode input (mkDecoded [] ∅ ∅)) as [e|d] eqn:Hm.
  - cbn [ret] in Hrun. injection Hrun as <- <-. cbn [written logged].
    split; [by right|]. split; [|done]. split; [by left|done].
  - destruct (stream_of_spans input Hdec) as (ss & -> & Hss).
    rewrite Main_decode_decoded in Hm. injection Hm as <-.
    destruct (children (decoded (map inl ss)) !! rootID) as [ks|] eqn:Hks.
    + assert (Hroot : ~ forall s, In (inl s) (map inl ss : stream) -> ParentID s <> rootID).
      { intros Hno. rewrite children_decoded_None in Hks; [done|].
        intros s Hs. apply Hno. by apply Hss. }
      destruct ks as [|k [|k' ks]]; [done| |done].
      destruct (Main.buildTree fuel _ _ _) as [[t h1]| |]; [|done..].
      cbn [ret] in Hrun. injection Hrun as <- <-.
      split; [by left|]. split; [|done]. split; [done|].
      intros [[err Herr]|Hno]; [by apply Hdec in Herr|done].
    + cbn [ret] in Hrun. injection Hrun as <- <-. cbn [written logged].
      split; [by right|]. split; [|done]. split; [|done].
      intros _. right. intros s Hs Hp. apply Hss in Hs.
      destruct (children_decoded_Some ss s Hs) as [ks' Hks']. congruence.
Qed.

Lemma Main_main_status_witness :
  exists r c, main (Main.mainE (RT := stableRuntime)) 4 orphan_only = Done (r, c) /\
    (c = 0 \/ c = 1) /\
    (c = 1 <-> (exists err, In (inr err) orphan_only) \/
               forall s, In (inl s) orphan_only -> ParentID s <> rootID) /\
    (c = 1 -> written r = EmptyString /\ logged r = []).
Proof.
  eexists _, _. split; [vm_compute; reflexivity|].
  apply (Main_main_status (RT := stableRuntime) 4 orphan_only).
  vm_compute. reflexivity.
Defined.

(** ** Which records end up in the tree *)

Section TreeMembers.
Variables (ch : gmap string (list ptr)) (h : store).

Let idAt (m : Node) : string := SpanID (deref h (nSpan m)).

(** A child node stands for an address of the child list of its parent's
    id. *)
Lemma child_in_list (p c : Node) :
  children_of_index ch h p -> In c (Children p) ->
  exists ks, ch !! idAt p = Some ks /\ In (nSpan c) ks.
Proof.
  unfold children_of_index. fold (idAt p). intros Hidx Hc.
  destruct (ch !! idAt p) as [ks|]; [|by rewrite Hidx in Hc].
  exists ks. split; [done|]. apply list_elem_of_In. rewrite <- Hidx.
  apply list_elem_of_In, in_map, Hc.
Qed.

(** Every node below the root stands for an address of the child list of
    an id the root leads to. *)
Lemma tree_nodes_reachable : forall t,
  (forall m, In m (subnodes t) -> children_of_index ch h m) ->
  forall m, In m (subnodes t) ->
    m = t \/ exists x ks, rtc (child_id ch h) (idAt t) x /\ ch !! x = Some ks /\ In (nSpan m) ks.
Proof.
  induction t as [q cs IH] using Node_ind_nested. intros Hall m Hm.
  apply subnodes_In in Hm as [->|(c & Hc & Hm)]; [by left|]. right.
  rewrite List.Forall_forall in IH.
  destruct (child_in_list (mkNode q cs) c) as (ks & Hks & Hin);
    [apply Hall, subnodes_root|done|].
  destruct (IH c Hc) with (m := m) as [->|(x & ks' & Hreach & Hx & Hin')].
  { intros m' Hm'. apply Hall. apply subnodes_In. right. by exists c. }
  { done. }
  - exists (idAt (mkNode q cs)), ks. split; [apply rtc_refl|done].
  - exists x, ks'. split; [|done].
    eapply rtc_l; [|exact Hreach]. by exists ks, (nSpan c).
Qed.

(** Every address of the child list of an id the root leads to has a
    node in the tree. *)
Lemma tree_reachable_nodes t :
  (forall m, In m (subnodes t) -> children_of_index ch h m) ->
  forall x, rtc (child_id ch h) (idAt t) x ->
  forall ks k, ch !! x = Some ks -> In k ks ->
    exists m, In m (subnodes t) /\ nSpan m = k.
Proof.
  intros Hall.
  assert (Hstep : forall p ks k, In p (subnodes t) -> ch !! idAt p = Some ks -> In k ks ->
            exists m, In m (subnodes t) /\ nSpan m = k /\ In m (Children p)).
  { intros p ks k Hp Hks Hk. pose proof (Hall p Hp) as Hidx.
    unfold children_of_index in Hidx. fold (idAt p) in Hidx. rewrite Hks in Hidx.
    apply list_elem_of_In in Hk. rewrite <- Hidx in Hk.
    apply list_elem_of_In, in_map_iff in Hk as (c & Hc & Hin).
    exists c. split; [by eapply subnodes_child|done]. }
  apply (rtc_ind_r (fun x => forall ks k, ch !! x = Some ks -> In k ks ->
                      exists m, In m (subnodes t) /\ nSpan m = k) (idAt t)).
  - intros ks k Hks Hk.
    destruct (Hstep t ks k (subnodes_root t) Hks Hk) as (m & Hm & Hn & Hc).
    by exists m.
  - intros y z _ Hyz IH ks k Hks Hk. destruct Hyz as (ks' & k' & Hy & Hk' & Hid).
    destruct (IH ks' k' Hy Hk') as (p & Hp & Hn).
    assert (Hidp : idAt p = z) by (unfold idAt; by rewrite Hn).
    rewrite <- Hidp in Hks.
    destruct (Hstep p ks k Hp Hks Hk) as (m & Hm & Hnm & Hc).
    by exists m.
Qed.

End TreeMembers.

(** Over a store that keeps the ids of the decoded records, the links of
    the index are the links of the stream. *)
Lemma child_id_names_parent ss (h : store) :
  (forall k, (k < length ss)%nat -> SpanID (deref h k) = SpanID (deref ss k)) ->
  forall x y, child_id (children (decoded (map inl ss))) h x y <-> names_parent ss x y.
Proof.
  intros Hids x y. split.
  - intros (ks & k & Hks & Hk & Hid).
    destruct (children_decoded_In ss x ks k Hks Hk) as (s & Hs & Hp).
    exists s. split; [apply list_elem_of_In; by eapply list_elem_of_lookup_2|].
    split; [done|]. rewrite <- Hid, Hids by (by eapply lookup_lt_Some).
    unfold deref. by rewrite Hs.
  - intros (s & Hs & <- & <-).
    apply list_elem_of_In, list_elem_of_lookup in Hs as [k Hk].
    destruct (children_decoded_lookup _ _ _ Hk) as (ks & Hks & Hin).
    exists ks, k. split; [done|]. split; [done|].
    rewrite Hids by (by eapply lookup_lt_Some). unfold deref. by rewrite Hk.
Qed.



(** X23. Which records main.go renders when there is exactly one root
    span: the root span itself and every record whose parent id the id of
    the root span leads to through parent links; no other record has a
    node in the tree. *)
Theorem Main_rendered_iff_reachable {RT : Runtime} (ss : list Span)
    (rank : string -> nat) k0 s0 :
  (forall s, In s ss -> (rank (SpanID s) < rank (ParentID s))%nat) ->
  ss !! k0 = Some s0 -> ParentID s0 = rootID ->
  (forall j s, ss !! j = Some s -> ParentID s = rootID -> j = k0) ->
  exists fuel t,
    Main.mainE fuel (map inl ss)
    = Done (mkRun (header +:+ Main.writeSpan ss None t +:+ footer) [] None) /\
    forall k s, ss !! k = Some s ->
      ((exists m, In m (subnodes t) /\ nSpan m = k) <->
       k = k0 \/ rtc (names_parent ss) (SpanID s0) (ParentID s)).
Proof.
  intros Hrank Hk0 Hp0 Huniq.
  destruct (decoded_spec ss) as (_ & Hheap & _ & _).
  pose proof (children_index_roots ss k0 s0 Hk0 Hp0 Huniq) as Hroots.
  assert (Hterm : terminates (children (decoded (map inl ss))) ss
                    (S (rank (SpanID s0))) (idOf ss k0) = true).
  { apply (rank_terminates _ _ rank).
    - by apply rank_decoded.
    - unfold idOf, deref. rewrite Hk0. simpl. lia. }
  destruct (Main_buildTree_sorted _ _ ss k0 Hterm) as (t & Hrun & Ht & Hall).
  assert (Hlinks : forall x y, child_id (children (decoded (map inl ss))) ss x y <->
                               names_parent ss x y).
  { by apply child_id_names_parent. }
  assert (Hroot : SpanID (deref ss (nSpan t)) = SpanID s0).
  { rewrite Ht. unfold deref. by rewrite Hk0. }
  assert (Hidx : forall m, In m (subnodes t) ->
            children_of_index (children (decoded (map inl ss))) ss m).
  { intros m Hm. by apply Hall. }
  exists (S (rank (SpanID s0))), t. split.
  { unfold Main.mainE. by rewrite Main_decode_decoded, Hroots, Hheap, Hrun. }
  intros k s Hk. split.
  - intros (m & Hm & Hn).
    destruct (tree_nodes_reachable _ ss t Hidx m Hm)
      as [->|(x & ks' & Hreach & Hx & Hin)]; [left; congruence|right].
    destruct (children_decoded_In ss x ks' k Hx) as (s' & Hs' & Hp); [by rewrite <- Hn|].
    assert (s' = s) as -> by congruence. rewrite Hp, <- Hroot.
    eapply rtc_subrel; [|exact Hreach]. intros a b. apply Hlinks.
  - intros [->|Hreach]; [exists t; split; [apply subnodes_root|done]|].
    destruct (children_decoded_lookup _ _ _ Hk) as (ks' & Hks' & Hin).
    apply (tree_reachable_nodes _ ss t Hidx (ParentID s)) with (ks := ks'); [|done..].
    rewrite Hroot. eapply rtc_subrel; [|exact Hreach]. intros a b. apply Hlinks.
Qed.

Lemma Main_rendered_iff_reachable_witness :
  let ss := [mkSpan "root-op" "a" rootID (mkTime 0 0) (mkTime 100 0);
             mkSpan "lost" "c" "zzz" (mkTime 5 0) (mkTime 7 0)] in
  exists fuel t,
    Main.mainE (RT := stableRuntime) fuel (map inl ss)
    = Done (mkRun (header +:+ Main.writeSpan ss None t +:+ footer) [] None) /\
    forall k s, ss !! k = Some s ->
      ((exists m, In m (subnodes t) /\ nSpan m = k) <->
       k = 0%nat \/ rtc (names_parent ss) "a" (ParentID s)).
Proof.
  apply (Main_rendered_iff_reachable (RT := stableRuntime) _ sample_rank 0%nat
           (mkSpan "root-op" "a" rootID (mkTime 0 0) (mkTime 100 0))).
  - intros s [<-|[<-|[]]]; vm_compute; lia.
  - reflexivity.
  - reflexivity.
  - intros [|[|j]] s Hs Hp; [reflexivity| |discriminate Hs].
    injection Hs as <-. discriminate Hp.
Defined.

(** ** The order of siblings in the text *)

Lemma each_app (f : Node -> string) (l1 l2 : list Node) :
  (fix each (cs : list Node) : string :=
     match cs with
     | [] => EmptyString
     | child :: cs' => f child +:+ each cs'
     end) (l1 ++ l2) =
  (fix each (cs : list Node) : string :=
     match cs with
     | [] => EmptyString
     | child :: cs' => f child +:+ each cs'
     end) l1 +:+
  (fix each (cs : list Node) : string :=
     match cs with
     | [] => EmptyString
     | child :: cs' => f child +:+ each cs'
     end) l2.
Proof.
  induction l1 as [|c l1 IH]; [done|].
  change ((c :: l1) ++ l2) with (c :: (l1 ++ l2)). cbv beta iota. fold (@app Node).
  rewrite IH. by rewrite append_assoc.
Qed.

(** The loop over the children writes them one after the other. *)
Lemma each_in_order (f : Node -> string) l1 c1 l2 c2 l3 :
  exists pre mid post,
    (fix each (cs : list Node) : string :=
       match cs with
       | [] => EmptyString
       | child :: cs' => f child +:+ each cs'
       end) (l1 ++ c1 :: l2 ++ c2 :: l3) = pre +:+ f c1 +:+ mid +:+ f c2 +:+ post.
Proof.
  set (each := fix each (cs : list Node) : string :=
                 match cs with
                 | [] => EmptyString
                 | child :: cs' => f child +:+ each cs'
                 end).
  exists (each l1), (each l2), (each l3).
  unfold each. rewrite each_app. fold each. f_equal.
  change (each (c1 :: l2 ++ c2 :: l3)) with (f c1 +:+ each (l2 ++ c2 :: l3)). f_equal.
  unfold each. rewrite each_app. reflexivity.
Qed.

Lemma Unnamed_writeSpan_children (h : store) parent q cs :
  cs <> [] ->
  exists pre post,
    Unnamed.writeSpan h parent (mkNode q cs) =
    pre +:+
    (fix each (l : list Node) : string :=
       match l with
       | [] => EmptyString
       | child :: l' => Unnamed.writeSpan h (Some (mkNode q cs)) child +:+ each l'
       end) cs +:+ post.
Proof.
  intros Hne. destruct cs as [|c0 cs]; [done|].
  exists (openDiv h parent (mkNode q (c0 :: cs)) +:+
          match parent with
          | None => "<details open><summary>" +:+ label h (mkNode q (c0 :: cs)) +:+ "</summary>"
          | Some _ => "<details><summary>" +:+ label h (mkNode q (c0 :: cs)) +:+ "</summary>"
          end),
         ("</details>" +:+ "</div>" +:+ nl).
  cbn [Unnamed.writeSpan]. rewrite !append_assoc. reflexivity.
Qed.

Lemma Main_writeSpan_children (h : store) parent q cs :
  cs <> [] ->
  exists pre post,
    Main.writeSpan h parent (mkNode q cs) =
    pre +:+
    (fix each (l : list Node) : string :=
       match l with
       | [] => EmptyString
       | child :: l' => Main.writeSpan h (Some (mkNode q cs)) child +:+ each l'
       end) cs +:+ post.
Proof.
  intros Hne. destruct cs as [|c0 cs]; [done|].
  exists (openDiv h parent (mkNode q (c0 :: cs)) +:+
          "<details><summary>" +:+ label h (mkNode q (c0 :: cs)) +:+ "</summary>"),
         ("</details>" +:+ "</div>" +:+ nl).
  cbn [Main.writeSpan]. rewrite !append_assoc. reflexivity.
Qed.

(** X24. Children are written in the order the node holds them: of two
    children of a node, the text of the one that comes first in
    [node.Children] comes first in the text of the node, in both
    programs.  With the children sorted, siblings appear in the document
    in ascending order of start. *)
Theorem siblings_written_in_order (h : store) parent q l1 c1 l2 c2 l3 :
  let node := mkNode q (l1 ++ c1 :: l2 ++ c2 :: l3) in
  (exists pre mid post,
     Unnamed.writeSpan h parent node =
     pre +:+ Unnamed.writeSpan h (Some node) c1 +:+ mid +:+
     Unnamed.writeSpan h (Some node) c2 +:+ post) /\
  (exists pre mid post,
     Main.writeSpan h parent node =
     pre +:+ Main.writeSpan h (Some node) c1 +:+ mid +:+
     Main.writeSpan h (Some node) c2 +:+ post).
Proof.
  intros node.
  assert (Hne : l1 ++ c1 :: l2 ++ c2 :: l3 <> []) by (by destruct l1).
  split.
  - destruct (Unnamed_writeSpan_children h parent q _ Hne) as (pre0 & post0 & E).
    destruct (each_in_order (Unnamed.writeSpan h (Some node)) l1 c1 l2 c2 l3)
      as (pre & mid & post & E').
    exists (pre0 +:+ pre), mid, (post +:+ post0).
    unfold node in *. rewrite E, E', !append_assoc. reflexivity.
  - destruct (Main_writeSpan_children h parent q _ Hne) as (pre0 & post0 & E).
    destruct (each_in_order (Main.writeSpan h (Some node)) l1 c1 l2 c2 l3)
      as (pre & mid & post & E').
    exists (pre0 +:+ pre), mid, (post +:+ post0).
    unfold node in *. rewrite E, E', !append_assoc. reflexivity.
Qed.
